(** * Channel pruning (paddleslim/prune/pruner.py): model and verification

    A shallow embedding of the [Pruner] class.  Python exceptions are values
    of [Exn]; the NumPy primitives the pruner calls are modelled in module
    [np]; floating point values and ratios are idealised as rationals. *)

From Stdlib Require Import ZArith QArith Qabs Qround String Lia.
From stdpp Require Import gmap strings list fin_maps sorting.
Close Scope Q_scope.
Open Scope string_scope.
Open Scope list_scope.
Open Scope nat_scope.
Open Scope stdpp_scope.

(** ** Exceptions and results *)

(** The Python exceptions the pruner can run into.  [IndexError i n] is an
    index [i] out of bounds for a dimension (or sequence) of size [n].
    [OutOfFuel] is no Python exception: it marks a loop bound of this model
    being reached. *)
Inductive Exn : Type :=
| IndexError (i n : Z)
| TypeError
| ValueError
| KeyError (k : nat)
| UnboundLocalError (name : string)
| AttributeError
| AssertionError
| RecursionError
| OutOfFuel.

Inductive Result (A : Type) : Type :=
| Ok (a : A)
| Raise (e : Exn).
Arguments Ok {A} a.
Arguments Raise {A} e.

Definition rbind {A B} (r : Result A) (k : A -> Result B) : Result B :=
  match r with
  | Ok a => k a
  | Raise e => Raise e
  end.

Notation "'let?' x ':=' r 'in' k" := (rbind r (fun x => k))
  (at level 10, x pattern, r at level 200, k at level 200).

(** [seq_index l i] is Python's [l[i]] on a list or tuple, for [i >= 0]. *)
Definition seq_index {A} (l : list A) (i : nat) : Result A :=
  match l !! i with
  | Some a => Ok a
  | None => Raise (IndexError (Z.of_nat i) (Z.of_nat (length l)))
  end.

(** Python 3 [int(round(q))]: round to nearest, ties to the even integer. *)
Definition py_round (q : Q) : Z :=
  let f := Qfloor q in
  match (q - inject_Z f ?= 1 # 2)%Q with
  | Lt => f
  | Gt => (f + 1)%Z
  | Eq => if Z.even f then f else (f + 1)%Z
  end.

(** Python [l[:k]]: a negative [k] counts from the end. *)
Definition slice_to {A} (l : list A) (k : Z) : list A :=
  if (k <? 0)%Z then take (Z.to_nat (Z.of_nat (length l) + k)) l
  else take (Z.to_nat k) l.

(** ** NumPy arrays *)

#[global] Instance Q_inhabited : Inhabited Q := populate 0%Q.

(** An n-dimensional array: its shape and its element at a multi-index. *)
Record ndarray : Type := {
  shape : list nat;
  item : list nat -> Q
}.

Module np.

(** All multi-indices of an array of the given shape, in row-major order. *)
Fixpoint ndindex (sh : list nat) : list (list nat) :=
  match sh with
  | [] => [[]]
  | n :: sh' => i ← seq 0 n; (fun ix => i :: ix) <$> ndindex sh'
  end.

(** [np.zeros(n, dtype=bool)]. *)
Definition zeros (n : nat) : list bool := replicate n false.

(** [mask[idx] = True] for an integer index array [idx]: negative indices
    count from the end, an index outside [-n, n) raises IndexError. *)
Fixpoint set_true (mask : list bool) (idx : list Z) : Result (list bool) :=
  match idx with
  | [] => Ok mask
  | i :: idx' =>
      let n := Z.of_nat (length mask) in
      if ((0 <=? i) && (i <? n))%Z then
        set_true (<[Z.to_nat i := true]> mask) idx'
      else if ((- n <=? i) && (i <? 0))%Z then
        set_true (<[Z.to_nat (n + i) := true]> mask) idx'
      else Raise (IndexError i n)
  end.

(** [data[mask]] on a 1-D array: the entries where the mask is set. *)
Fixpoint compress {A} (mask : list bool) (data : list A) : list A :=
  match mask, data with
  | m :: mask', x :: data' =>
      if m then x :: compress mask' data' else compress mask' data'
  | _, _ => []
  end.

(** [data[mask] = v] on a 1-D array. *)
Fixpoint putmask {A} (mask : list bool) (v : A) (data : list A) : list A :=
  match mask, data with
  | m :: mask', x :: data' => (if m then v else x) :: putmask mask' v data'
  | _, _ => data
  end.

(** The 1-D slice of [t] along [axis] through the multi-index [ix]. *)
Definition line (t : ndarray) (axis : nat) (ix : list nat) : list Q :=
  (fun a => item t (<[axis := a]> ix)) <$> seq 0 (shape t !!! axis).

(** [np.apply_along_axis(f, axis, t)]: [f] is applied to every 1-D slice
    along [axis]; the length of the first result gives the new size of
    that axis.  NumPy refuses an array with an empty dimension off the
    axis (no slice to take the result size from). *)
Definition apply_along_axis (f : list Q -> list Q) (axis : nat) (t : ndarray)
  : Result ndarray :=
  if bool_decide (0 ∈ delete axis (shape t)) then Raise ValueError
  else
    let m := length (f (line t axis (replicate (length (shape t)) 0))) in
    Ok {| shape := <[axis := m]> (shape t);
          item := fun ix => f (line t axis ix) !!! (ix !!! axis) |}.

(** [np.abs(t)]. *)
Definition abs (t : ndarray) : ndarray :=
  {| shape := shape t; item := fun ix => Qabs (item t ix) |}.

(** [np.sum(t, axis=axes)] for a tuple of axes: the result keeps the other
    axes, and each entry adds up the entries of [t] that agree with it
    there. *)
Definition sum (t : ndarray) (axes : list nat) : ndarray :=
  let kept := List.filter (fun i => negb (bool_decide (i ∈ axes)))
                          (seq 0 (length (shape t))) in
  let proj (ix : list nat) := (fun i => ix !!! i) <$> kept in
  {| shape := proj (shape t);
     item := fun jx =>
       foldr Qplus 0%Q
         (item t <$> List.filter (fun ix => bool_decide (proj ix = jx))
                                 (ndindex (shape t))) |}.

(** The entries of a 1-D array, in order. *)
Definition tolist (t : ndarray) : list Q :=
  (fun c => item t [c]) <$> seq 0 (shape t !!! 0).

(** One insertion step of the sort: [i] goes behind every index whose
    value is not greater. *)
Fixpoint insert_index (v : list Q) (i : nat) (l : list nat) : list nat :=
  match l with
  | [] => [i]
  | j :: l' =>
      if Qle_bool (v !!! j) (v !!! i) then j :: insert_index v i l'
      else i :: l
  end.

(** [v.argsort()] on a 1-D array: the indices that sort [v] ascending.
    Modelled as the insertion sort NumPy runs on short arrays, which
    keeps equal values in index order. *)
Definition argsort (v : list Q) : list nat :=
  foldl (fun acc i => insert_index v i acc) [] (seq 0 (length v)).

End np.

(** ** The pruner: channel selection and tensor pruning *)

Record Pruner : Type := { criterion : string }.

(** [Pruner.__init__]: stores the criterion, nothing else. *)
Definition __init__ (criterion : string) : Result Pruner :=
  Ok {| criterion := criterion |}.

(** [Pruner._cal_pruned_idx(name, param, ratio, axis)]. *)
Definition _cal_pruned_idx (self : Pruner) (param : ndarray) (ratio : Q)
    (axis : nat) : Result (list Z) :=
  let? n := seq_index (shape param) axis in
  let prune_num := py_round (inject_Z (Z.of_nat n) * ratio) in
  let reduce_dims :=
    List.filter (fun i => negb (Nat.eqb i axis)) (seq 0 (length (shape param))) in
  let? criterions :=
    if String.eqb (criterion self) "l1_norm"
    then Ok (np.sum (np.abs param) reduce_dims)
    else Raise (UnboundLocalError "criterions") in
  Ok (Z.of_nat <$> slice_to (np.argsort (np.tolist criterions)) prune_num).

(** The two closures of [_prune_tensor]. *)
Definition func (mask : list bool) (data : list Q) : list Q :=
  np.compress (negb <$> mask) data.

Definition lazy_func (mask : list bool) (data : list Q) : list Q :=
  np.putmask mask 0%Q data.

(** [Pruner._prune_tensor(tensor, pruned_idx, pruned_axis, lazy)]. *)
Definition _prune_tensor (tensor : ndarray) (pruned_idx : list Z)
    (pruned_axis : nat) (lazy : bool) : Result ndarray :=
  let? n := seq_index (shape tensor) pruned_axis in
  let? mask := np.set_true (np.zeros n) pruned_idx in
  if lazy then np.apply_along_axis (lazy_func mask) pruned_axis tensor
  else np.apply_along_axis (func mask) pruned_axis tensor.

(** Small arrays for the examples: a vector and a matrix given by rows. *)
Definition vector (l : list Q) : ndarray :=
  {| shape := [length l];
     item := fun ix => l !!! (ix !!! 0) |}.

Definition matrix (cols : nat) (rows : list (list Q)) : ndarray :=
  {| shape := [length rows; cols];
     item := fun ix => (rows !!! (ix !!! 0)) !!! (ix !!! 1) |}.

(** ** The program graph *)

(** A variable of the program: shape and flags; its name is its key in
    [block_vars]. *)
Record Var : Type := {
  var_shape : list Z;
  var_is_parameter : bool;
  var_persistable : bool
}.

(** An operator: identity, type tag, named input and output slots (each
    an ordered list of variable names), classification flags, attributes. *)
Record Op : Type := {
  idx : nat;
  type : string;
  input_slots : list (string * list string);
  output_slots : list (string * list string);
  is_bwd_op : bool;
  is_opt_op : bool;
  attrs : gmap string Z
}.

Record Program : Type := {
  block_ops : list Op;
  block_vars : gmap string Var
}.

(** Modelled from the spec: the graph abstraction of [paddleslim.core]
    ([GraphWrapper], [OpWrapper], [VarWrapper]) is not part of the source;
    this module gives the queries the pruner uses the meaning the spec's
    data model and external interfaces describe.  A variable handle is its
    name, an operator handle is the operator record: type, slots and flags
    never change while pruning. *)
Module GraphWrapper.

Definition ops (p : Program) : list Op := block_ops p.

Definition var (p : Program) (name : string) : option Var :=
  block_vars p !! name.

Definition all_inputs (op : Op) : list string := mjoin (snd <$> input_slots op).

Definition all_outputs (op : Op) : list string := mjoin (snd <$> output_slots op).

(** [op.inputs(slot)]. *)
Definition inputs (op : Op) (slot : string) : list string :=
  default [] (snd <$> List.find (fun kv => String.eqb (fst kv) slot) (input_slots op)).

(** [graph.next_ops(op)]: the consumers of the outputs of [op]. *)
Definition next_ops (p : Program) (op : Op) : list Op :=
  q ← ops p; out ← all_outputs op;
  if bool_decide (out ∈ all_inputs q) then [q] else [].

(** [graph.pre_ops(op)]: the producers of the inputs of [op]. *)
Definition pre_ops (p : Program) (op : Op) : list Op :=
  q ← ops p; inv ← all_inputs op;
  if bool_decide (inv ∈ all_outputs q) then [q] else [].

(** [var.outputs()]: the operators that read the variable. *)
Definition outputs (p : Program) (name : string) : list Op :=
  List.filter (fun op => bool_decide (name ∈ all_inputs op)) (ops p).

Definition is_parameter (p : Program) (name : string) : Result bool :=
  match var p name with
  | Some v => Ok (var_is_parameter v)
  | None => Raise AttributeError
  end.

Definition is_persistable (p : Program) (name : string) : Result bool :=
  match var p name with
  | Some v => Ok (var_persistable v)
  | None => Raise AttributeError
  end.

(** [var.shape()]. *)
Definition shape_of (p : Program) (name : string) : Result (list Z) :=
  match var p name with
  | Some v => Ok (var_shape v)
  | None => Raise AttributeError
  end.

(** The names among [names] that are parameters, in order. *)
Fixpoint parameters (p : Program) (names : list string) : Result (list string) :=
  match names with
  | [] => Ok []
  | n :: names' =>
      let? b := is_parameter p n in
      let? rest := parameters p names' in
      Ok (if b then n :: rest else rest)
  end.

(** [graph.get_param_by_op(op)]. *)
Definition get_param_by_op (p : Program) (op : Op) : Result (list string) :=
  let? params := parameters p (all_inputs op) in
  if bool_decide (params = []) then Raise AssertionError else Ok params.

(** [var.set_shape(shape)]. *)
Definition set_shape (name : string) (sh : list Z) (p : Program) : Program :=
  {| block_ops := block_ops p;
     block_vars :=
       alter (fun v => {| var_shape := sh;
                          var_is_parameter := var_is_parameter v;
                          var_persistable := var_persistable v |})
             name (block_vars p) |}.

Definition op_set_attr (key : string) (v : Z) (op : Op) : Op :=
  {| idx := idx op; type := type op;
     input_slots := input_slots op; output_slots := output_slots op;
     is_bwd_op := is_bwd_op op; is_opt_op := is_opt_op op;
     attrs := <[key := v]> (attrs op) |}.

(** [op.set_attr(key, v)] on the operator at position [pos]. *)
Definition set_attr (pos : nat) (key : string) (v : Z) (p : Program) : Program :=
  {| block_ops := alter (op_set_attr key v) pos (block_ops p);
     block_vars := block_vars p |}.

End GraphWrapper.
Import GraphWrapper.

(** ** Forward search *)

(** The locals of [_forward_search_related_op]. *)
Record Search : Type := {
  visited : gmap nat bool;
  stack : list Op;
  visit_path : list Op
}.

(** [visited[k]]: a missing key raises KeyError. *)
Definition visited_get (v : gmap nat bool) (k : nat) : Result bool :=
  match v !! k with
  | Some b => Ok b
  | None => Raise (KeyError k)
  end.

(** The filter loop of [_get_next_unvisited_op]. *)
Fixpoint unvisited_of (v : gmap nat bool) (l : list Op) : Result (list Op) :=
  match l with
  | [] => Ok []
  | op :: l' =>
      let? b := visited_get v (idx op) in
      let? rest := unvisited_of v l' in
      Ok (if negb b && negb (is_bwd_op op) then op :: rest else rest)
  end.

(** [Pruner._get_next_unvisited_op(graph, visited, top_op)]. *)
Definition _get_next_unvisited_op (graph : Program) (v : gmap nat bool)
    (top_op : Op) : Result (list Op) :=
  unvisited_of v (next_ops graph top_op).

(** The loop that appends the still unvisited operators of [next] to the
    worklist and to the path, marking them visited. *)
Fixpoint push_unvisited (next : list Op) (st : Search) : Result Search :=
  match next with
  | [] => Ok st
  | next_op :: rest =>
      let? b := visited_get (visited st) (idx next_op) in
      if negb b then
        push_unvisited rest
          {| visited := <[idx next_op := true]> (visited st);
             stack := stack st ++ [next_op];
             visit_path := visit_path st ++ [next_op] |}
      else push_unvisited rest st
  end.

(** The start node of a search: a variable (by name) or an operator. *)
Inductive Node : Type :=
| VarNode (name : string)
| OpNode (op : Op).

(** The first loop of the search from a variable: over all operators. *)
Fixpoint start_from_var (graph : Program) (node : string) (l : list Op)
    (st : Search) : Result Search :=
  match l with
  | [] => Ok st
  | op :: l' =>
      if negb (is_bwd_op op) && bool_decide (node ∈ all_inputs op) then
        let? next := _get_next_unvisited_op graph (visited st) op in
        let st1 := {| visited := <[idx op := true]> (visited st);
                      stack := stack st; visit_path := visit_path st |} in
        let? st2 := push_unvisited next st1 in
        start_from_var graph node l' st2
      else start_from_var graph node l' st
  end.

(** The state of the search when the while loop is entered. *)
Definition search_start (graph : Program) (node : Node) : Result Search :=
  let st0 := {| visited := list_to_map ((fun op => (idx op, false)) <$> ops graph);
                stack := []; visit_path := [] |} in
  match node with
  | VarNode name => start_from_var graph name (ops graph) st0
  | OpNode op =>
      let? next := _get_next_unvisited_op graph (visited st0) op in
      push_unvisited next st0
  end.

(** The operator types at which the search does not go on. *)
Definition is_boundary (t : string) : bool :=
  bool_decide (t ∈ ["conv2d"; "deformable_conv"]) || bool_decide (t ∈ ["mul"; "concat"]).

(** One iteration of the while loop, [top_op] being popped off the front. *)
Definition search_step (graph : Program) (top_op : Op) (st : Search) : Result Search :=
  if is_boundary (type top_op) then Ok st
  else
    let? next := _get_next_unvisited_op graph (visited st) top_op in
    push_unvisited next st.

(** The while loop, run for at most [fuel] iterations. *)
Fixpoint search_loop (fuel : nat) (graph : Program) (st : Search) : Result Search :=
  match fuel with
  | 0 => Ok st
  | S fuel' =>
      match stack st with
      | [] => Ok st
      | top_op :: rest =>
          let? st' := search_step graph top_op
                        {| visited := visited st; stack := rest;
                           visit_path := visit_path st |} in
          search_loop fuel' graph st'
      end
  end.

(** The final locals of [_forward_search_related_op]; every operator enters
    the worklist at most once, so [length (ops graph)] iterations are enough
    (see [search_run_spec]). *)
Definition search_run (graph : Program) (node : Node) : Result Search :=
  let? st := search_start graph node in
  search_loop (length (ops graph)) graph st.

(** [Pruner._forward_search_related_op(graph, node)]. *)
Definition _forward_search_related_op (graph : Program) (node : Node)
    : Result (list Op) :=
  let? st := search_run graph node in
  Ok (visit_path st).

(** ** Accumulators and sibling operators *)

(** The persistable outputs of [op] other than [param]. *)
Fixpoint accumulators_of (graph : Program) (param : string) (outs : list string)
    : Result (list string) :=
  match outs with
  | [] => Ok []
  | out_var :: outs' =>
      let? b := is_persistable graph out_var in
      let? rest := accumulators_of graph param outs' in
      Ok (if b && negb (String.eqb out_var param) then out_var :: rest else rest)
  end.

Fixpoint accumulators_loop (graph : Program) (param : string) (l : list Op)
    : Result (list string) :=
  match l with
  | [] => Ok []
  | op :: l' =>
      let? here := if is_opt_op op
                   then accumulators_of graph param (all_outputs op)
                   else Ok [] in
      let? rest := accumulators_loop graph param l' in
      Ok (here ++ rest)
  end.

(** [Pruner._get_accumulator(graph, param)]; [param] is [None] when the
    variable was not found, which fails the assertion. *)
Definition _get_accumulator (graph : Program) (param : option string)
    : Result (list string) :=
  match param with
  | None => Raise AssertionError
  | Some name => accumulators_loop graph name (outputs graph name)
  end.

(** Python's [sub in s] on strings. *)
Definition contains (sub s : string) : bool :=
  match String.index 0 sub s with
  | Some _ => true
  | None => false
  end.

(** The locals of [_search_brother_ops]. *)
Record Brothers : Type := {
  b_visited : list nat;
  b_stack : list Op;
  brothers : list Op
}.

(** The test that lets the walk step onto a consumer. *)
Definition passable (op : Op) : bool :=
  negb (contains "conv2d" (type op)) && negb (contains "concat" (type op))
  && negb (contains "deformable_conv" (type op))
  && negb (String.eqb (type op) "fc").

Fixpoint brothers_children (l : list Op) (check_visited : bool) (st : Brothers)
    : Brothers :=
  match l with
  | [] => st
  | op :: l' =>
      if passable op
         && (negb check_visited || negb (bool_decide (idx op ∈ b_visited st)))
         && negb (is_bwd_op op) && negb (is_opt_op op)
      then brothers_children l' check_visited
             {| b_visited := b_visited st ++ [idx op];
                b_stack := b_stack st ++ [op];
                brothers := brothers st |}
      else brothers_children l' check_visited st
  end.

Fixpoint brothers_parents (l : list Op) (st : Brothers) : Brothers :=
  match l with
  | [] => st
  | parent :: l' =>
      if negb (bool_decide (idx parent ∈ b_visited st))
         && negb (is_bwd_op parent) && negb (is_opt_op parent)
      then
        if contains "conv2d" (type parent)
           || contains "deformable_conv" (type parent)
           || String.eqb (type parent) "fc"
        then brothers_parents l'
               {| b_visited := b_visited st ++ [idx parent];
                  b_stack := b_stack st;
                  brothers := brothers st ++ [parent] |}
        else brothers_parents l'
               {| b_visited := b_visited st ++ [idx parent];
                  b_stack := b_stack st ++ [parent];
                  brothers := brothers st |}
      else brothers_parents l' st
  end.

(** The while loop of [_search_brother_ops]; the worklist is popped at its
    end.  [OutOfFuel] marks the bound of the model being hit. *)
Fixpoint brothers_loop (fuel : nat) (graph : Program) (st : Brothers)
    : Result (list Op) :=
  match rev (b_stack st) with
  | [] => Ok (brothers st)
  | top_op :: rest =>
      match fuel with
      | 0 => Raise OutOfFuel
      | S fuel' =>
          let st1 := {| b_visited := b_visited st; b_stack := rev rest;
                        brothers := brothers st |} in
          let st2 := brothers_parents (pre_ops graph top_op) st1 in
          let st3 := brothers_children (next_ops graph top_op) true st2 in
          brothers_loop fuel' graph st3
      end
  end.

(** [Pruner._search_brother_ops(graph, op_node)]. *)
Definition _search_brother_ops (graph : Program) (op_node : Op)
    : Result (list Op) :=
  let st0 := {| b_visited := [idx op_node]; b_stack := []; brothers := [] |} in
  let st1 := brothers_children (next_ops graph op_node) false st0 in
  brothers_loop (length (b_stack st1) + length (ops graph)) graph st1.

(** ** The mutable state *)

(** What [param_backup] holds for a name: the dense value, or (in
    graph-only mode) the shape. *)
Inductive Backup : Type :=
| BackupShape (sh : list Z)
| BackupValue (t : ndarray).

(** The records the logger emits at level INFO and above. *)
Inductive LogRecord : Type :=
| InfoSkip (param : string)
| InfoPruning (param : string)
| ErrorPruning (param : string) (e : Exn).

(** Everything [prune] can change: the program objects (a program is
    referred to by its position in [programs]), the scope, the registry
    [self.pruned_list], the two backup dicts and the log. *)
Record State : Type := {
  programs : list Program;
  scope : gmap string ndarray;
  pruned_list : list (list string);
  param_backup : option (gmap string Backup);
  param_shape_backup : option (gmap string (list Z));
  log : list LogRecord
}.

Definition set_programs (f : list Program -> list Program) (s : State) : State :=
  {| programs := f (programs s); scope := scope s;
     pruned_list := pruned_list s; param_backup := param_backup s;
     param_shape_backup := param_shape_backup s; log := log s |}.

Definition set_scope (f : gmap string ndarray -> gmap string ndarray) (s : State) : State :=
  {| programs := programs s; scope := f (scope s);
     pruned_list := pruned_list s; param_backup := param_backup s;
     param_shape_backup := param_shape_backup s; log := log s |}.

Definition set_pruned_list (f : list (list string) -> list (list string)) (s : State) : State :=
  {| programs := programs s; scope := scope s;
     pruned_list := f (pruned_list s); param_backup := param_backup s;
     param_shape_backup := param_shape_backup s; log := log s |}.

Definition set_param_backup
    (f : option (gmap string Backup) -> option (gmap string Backup)) (s : State) : State :=
  {| programs := programs s; scope := scope s;
     pruned_list := pruned_list s; param_backup := f (param_backup s);
     param_shape_backup := param_shape_backup s; log := log s |}.

Definition set_param_shape_backup
    (f : option (gmap string (list Z)) -> option (gmap string (list Z))) (s : State) : State :=
  {| programs := programs s; scope := scope s;
     pruned_list := pruned_list s; param_backup := param_backup s;
     param_shape_backup := f (param_shape_backup s); log := log s |}.

Definition set_log (f : list LogRecord -> list LogRecord) (s : State) : State :=
  {| programs := programs s; scope := scope s;
     pruned_list := pruned_list s; param_backup := param_backup s;
     param_shape_backup := param_shape_backup s; log := f (log s) |}.

(** A computation: the result or the exception, and the state it leaves
    (what was written before an exception stays written). *)
Definition M (A : Type) : Type := State -> Result A * State.

Definition ret {A} (a : A) : M A := fun s => (Ok a, s).

Definition raise {A} (e : Exn) : M A := fun s => (Raise e, s).

Definition bind {A B} (m : M A) (k : A -> M B) : M B :=
  fun s => match m s with
           | (Ok a, s') => k a s'
           | (Raise e, s') => (Raise e, s')
           end.

Definition liftR {A} (r : Result A) : M A := fun s => (r, s).

Definition gets {A} (f : State -> A) : M A := fun s => (Ok (f s), s).

Definition modify (f : State -> State) : M unit := fun s => (Ok tt, f s).

Notation "'let*' x ':=' m 'in' k" := (bind m (fun x => k))
  (at level 10, x pattern, m at level 200, k at level 200).
Notation "m ;; k" := (bind m (fun _ => k))
  (at level 100, k at level 200, right associativity).

(** [for x in l: body x]. *)
Fixpoint for_each {A} (l : list A) (body : A -> M unit) : M unit :=
  match l with
  | [] => ret tt
  | x :: l' => body x;; for_each l' body
  end.

(** A [for] loop that carries a local variable from one iteration on. *)
Fixpoint for_fold {A L} (l : list A) (local : L) (body : A -> L -> M L) : M L :=
  match l with
  | [] => ret local
  | x :: l' => let* local' := body x local in for_fold l' local' body
  end.

(** Python's [l[i] = f(l[i])]. *)
Definition list_update {A} (l : list A) (i : nat) (f : A -> A) : Result (list A) :=
  if bool_decide (i < length l) then Ok (alter f i l)
  else Raise (IndexError (Z.of_nat i) (Z.of_nat (length l))).

(** The program behind the graph handle [g]. *)
Definition graph_at (g : nat) : M Program :=
  fun s => match programs s !! g with
           | Some p => (Ok p, s)
           | None => (Raise AttributeError, s)
           end.

Definition update_graph (g : nat) (f : Program -> Program) : M unit :=
  modify (set_programs (alter f g)).

(** [param.shape()] and [param.set_shape(sh)] for the variable [name] of
    graph [g]. *)
Definition var_shape_of (g : nat) (name : string) : M (list Z) :=
  let* gr := graph_at g in liftR (shape_of gr name).

Definition var_set_shape (g : nat) (name : string) (sh : list Z) : M unit :=
  update_graph g (set_shape name sh).

(** [np.array(scope.find_var(name).get_tensor())]. *)
Definition find_tensor (name : string) : M ndarray :=
  fun s => match scope s !! name with
           | Some t => (Ok t, s)
           | None => (Raise AttributeError, s)
           end.

(** [param_t.set(value, place)]. *)
Definition tensor_set (name : string) (value : ndarray) : M unit :=
  modify (set_scope (insert name value)).

(** [name in self.pruned_list[axis]]. *)
Definition in_pruned_list (name : string) (axis : nat) : M bool :=
  let* pl := gets pruned_list in
  let* l := liftR (seq_index pl axis) in
  ret (bool_decide (name ∈ l)).

(** [self.pruned_list[axis].append(name)]. *)
Definition pruned_list_append (axis : nat) (name : string) : M unit :=
  let* pl := gets pruned_list in
  let* pl' := liftR (list_update pl axis (fun l => l ++ [name])) in
  modify (set_pruned_list (fun _ => pl')).

(** [if param_backup is not None and name not in param_backup:
       param_backup[name] = b]. *)
Definition backup_value (name : string) (b : Backup) : M unit :=
  modify (set_param_backup (fmap (fun d =>
    match d !! name with Some _ => d | None => <[name := b]> d end))).

Definition backup_shape (name : string) (sh : list Z) : M unit :=
  modify (set_param_shape_backup (fmap (fun d =>
    match d !! name with Some _ => d | None => <[name := sh]> d end))).

Definition logger (r : LogRecord) : M unit :=
  modify (set_log (fun l => l ++ [r])).

(** ** Pruning parameters *)

(** [Pruner._prune_filters_by_ratio(scope, params, ratio, place, lazy,
    only_graph, ...)].  [g] is the graph the variable handles in [params]
    belong to.  The result is [None] on the early return. *)
Definition _prune_filters_by_ratio (self : Pruner) (g : nat) (params : list string)
    (ratio : Q) (lazy only_graph : bool) : M (option (list Z)) :=
  let* p0 := liftR (seq_index params 0) in
  let* skip := in_pruned_list p0 0 in
  if skip then ret None
  else if only_graph then
    let* sh0 := var_shape_of g p0 in
    let* n0 := liftR (seq_index sh0 0) in
    let pruned_num := py_round (inject_Z n0 * ratio) in
    for_each params (fun param =>
      let* ori_shape := var_shape_of g param in
      backup_value param (BackupShape ori_shape);;
      let* new_shape := liftR (list_update ori_shape 0 (fun x => x - pruned_num)%Z) in
      var_set_shape g param new_shape;;
      pruned_list_append 0 param);;
    ret (Some (Z.of_nat <$> seq 0 (Z.to_nat pruned_num)))
  else
    let* param_t := find_tensor p0 in
    let* pruned_idx := liftR (_cal_pruned_idx self param_t ratio 0) in
    for_fold params None (fun param (pruned_param : option ndarray) =>
      let* param_t := find_tensor param in
      backup_value param (BackupValue param_t);;
      let* pruned_param :=
        match _prune_tensor param_t pruned_idx 0 lazy with
        | Ok t => ret (Some t)
        | Raise (IndexError i n) =>
            logger (ErrorPruning param (IndexError i n));; ret pruned_param
        | Raise e => raise e
        end in
      let* value :=
        match pruned_param with
        | Some t => ret t
        | None => raise (UnboundLocalError "pruned_param")
        end in
      tensor_set param value;;
      let* ori_shape := var_shape_of g param in
      backup_shape param ori_shape;;
      let* n := liftR (seq_index (shape value) 0) in
      let* new_shape := liftR (list_update ori_shape 0 (fun _ => Z.of_nat n)) in
      var_set_shape g param new_shape;;
      pruned_list_append 0 param;;
      ret pruned_param);;
    ret (Some pruned_idx).

(** [Pruner._prune_parameter_by_idx(scope, params, pruned_idx, pruned_axis,
    place, lazy, only_graph, ...)]. *)
Definition _prune_parameter_by_idx (g : nat) (params : list string)
    (pruned_idx : list Z) (pruned_axis : nat) (lazy only_graph : bool) : M unit :=
  let* p0 := liftR (seq_index params 0) in
  let* skip := in_pruned_list p0 pruned_axis in
  if skip then ret tt
  else if only_graph then
    let pruned_num := Z.of_nat (length pruned_idx) in
    for_each params (fun param =>
      let* ori_shape := var_shape_of g param in
      backup_value param (BackupShape ori_shape);;
      let* new_shape :=
        liftR (list_update ori_shape pruned_axis (fun x => x - pruned_num)%Z) in
      var_set_shape g param new_shape;;
      pruned_list_append pruned_axis param)
  else
    for_each params (fun param =>
      let* param_t := find_tensor param in
      backup_value param (BackupValue param_t);;
      let* pruned_param := liftR (_prune_tensor param_t pruned_idx pruned_axis lazy) in
      tensor_set param pruned_param;;
      let* ori_shape := var_shape_of g param in
      backup_shape param ori_shape;;
      let* n := liftR (seq_index (shape pruned_param) pruned_axis) in
      let* new_shape :=
        liftR (list_update ori_shape pruned_axis (fun _ => Z.of_nat n)) in
      var_set_shape g param new_shape;;
      pruned_list_append pruned_axis param).

(** The call the dispatcher repeats for every parameter it reaches:
    [_prune_parameter_by_idx(scope, [param] + _get_accumulator(graph, param),
    pruned_idx, pruned_axis, ...)]. *)
Definition prune_with_accumulators (g : nat) (param : option string)
    (pruned_idx : list Z) (pruned_axis : nat) (lazy only_graph : bool) : M unit :=
  let* gr := graph_at g in
  let* acc := liftR (_get_accumulator gr param) in
  match param with
  | Some name => _prune_parameter_by_idx g (name :: acc) pruned_idx pruned_axis lazy only_graph
  | None => raise AssertionError
  end.

(** [for in_var in op.all_inputs(): if graph.is_parameter(in_var): ...]. *)
Definition prune_parameter_inputs (g : nat) (op : Op) (pruned_idx : list Z)
    (pruned_axis : nat) (lazy only_graph : bool) : M unit :=
  for_each (all_inputs op) (fun in_var =>
    let* gr := graph_at g in
    let* b := liftR (is_parameter gr in_var) in
    if b then prune_with_accumulators g (Some in_var) pruned_idx pruned_axis lazy only_graph
    else ret tt).

(** The loop of the "mul" case that picks the operands: the last parameter
    and the last other input. *)
Fixpoint mul_operands (graph : Program) (l : list string)
    (fc_input fc_param : option string) : Result (option string * option string) :=
  match l with
  | [] => Ok (fc_input, fc_param)
  | in_var :: l' =>
      let? b := is_parameter graph in_var in
      if b then mul_operands graph l' fc_input (Some in_var)
      else mul_operands graph l' (Some in_var) fc_param
  end.

(** The index list of the "mul" case: every channel index becomes the
    [feature_map_size] flattened positions of that channel. *)
Definition fc_indices (feature_map_size : Z) (pruned_idxs : list Z) : list Z :=
  i ← pruned_idxs;
  (fun j => Z.of_nat j + i * feature_map_size)%Z <$> seq 0 (Z.to_nat feature_map_size).

(** The search of the "concat" case, [l] being [reversed(ops)]: the first
    operator with an output among [concat_inputs] fixes the position. *)
Fixpoint list_index_of (x : string) (l : list string) : option nat :=
  match l with
  | [] => None
  | y :: l' => if String.eqb y x then Some 0 else S <$> list_index_of x l'
  end.

Fixpoint find_concat_idx (l : list Op) (concat_inputs : list string) : option nat :=
  match l with
  | [] => None
  | last_op :: l' =>
      match List.find (fun out_var => bool_decide (out_var ∈ concat_inputs))
                      (all_outputs last_op) with
      | Some out_var => list_index_of out_var concat_inputs
      | None => find_concat_idx l' concat_inputs
      end
  end.

(** [offset += concat_inputs[ci].shape()[1]] for [ci] in [range(concat_idx)]. *)
Fixpoint concat_offset (graph : Program) (concat_inputs : list string)
    (cis : list nat) (offset : Z) : Result Z :=
  match cis with
  | [] => Ok offset
  | ci :: cis' =>
      let? v := seq_index concat_inputs ci in
      let? sh := shape_of graph v in
      let? w := seq_index sh 1 in
      concat_offset graph concat_inputs cis' (offset + w)%Z
  end.

(** The body of the loop of [_prune_ops] for the operator [op] of the list
    [ops]; [prune_ops] is the function itself, for the nested call. *)
Definition prune_op (prune_ops : list Op -> list Z -> M unit) (g : nat)
    (ops : list Op) (pruned_idxs : list Z) (lazy only_graph : bool) (op : Op)
    : M unit :=
  (if bool_decide (type op ∈ ["conv2d"; "deformable_conv"])
   then prune_parameter_inputs g op pruned_idxs 1 lazy only_graph
   else ret tt);;
  if String.eqb (type op) "depthwise_conv2d" then
    prune_parameter_inputs g op pruned_idxs 0 lazy only_graph
  else if String.eqb (type op) "elementwise_add" then
    prune_parameter_inputs g op pruned_idxs 0 lazy only_graph
  else if String.eqb (type op) "mul" then
    let* gr := graph_at g in
    let* (fc_input, fc_param) := liftR (mul_operands gr (all_inputs op) None None) in
    let* in_shape :=
      match fc_input with
      | Some v => liftR (shape_of gr v)
      | None => raise AttributeError
      end in
    let* h := liftR (seq_index in_shape 2) in
    let* w := liftR (seq_index in_shape 3) in
    let corrected_idxs := fc_indices (h * w) pruned_idxs in
    prune_with_accumulators g fc_param corrected_idxs 0 lazy only_graph
  else if String.eqb (type op) "concat" then
    let concat_inputs := all_inputs op in
    match find_concat_idx (rev ops) concat_inputs with
    | None => raise TypeError
    | Some concat_idx =>
        let* gr := graph_at g in
        let* offset := liftR (concat_offset gr concat_inputs (seq 0 concat_idx) 0) in
        let corrected_idxs := (fun x => x + offset)%Z <$> pruned_idxs in
        let* related_ops := liftR (_forward_search_related_op gr (OpNode op)) in
        prune_ops related_ops corrected_idxs
    end
  else if String.eqb (type op) "batch_norm" then
    let bn_inputs := all_inputs op in
    let* beta := liftR (seq_index bn_inputs 0) in
    let* mean := liftR (seq_index bn_inputs 1) in
    let* alpha := liftR (seq_index bn_inputs 2) in
    let* variance := liftR (seq_index bn_inputs 3) in
    prune_with_accumulators g (Some mean) pruned_idxs 0 lazy only_graph;;
    prune_with_accumulators g (Some variance) pruned_idxs 0 lazy only_graph;;
    prune_with_accumulators g (Some alpha) pruned_idxs 0 lazy only_graph;;
    prune_with_accumulators g (Some beta) pruned_idxs 0 lazy only_graph
  else ret tt.

(** [Pruner._prune_ops(ops, pruned_idxs, graph, scope, place, lazy,
    only_graph, ...)].  [depth] bounds the nesting of the recursive calls,
    as the interpreter's recursion limit does. *)
Fixpoint _prune_ops (depth : nat) (g : nat) (ops : list Op) (pruned_idxs : list Z)
    (lazy only_graph : bool) {struct depth} : M unit :=
  match depth with
  | 0 => raise RecursionError
  | S depth' =>
      for_each ops
        (prune_op (fun related_ops corrected_idxs =>
                     _prune_ops depth' g related_ops corrected_idxs lazy only_graph)
                  g ops pruned_idxs lazy only_graph)
  end.

(** The nesting of calls the interpreter allows. *)
Definition recursion_limit : nat := 1000.

(** [Pruner._forward_pruning_ralated_params(graph, scope, param, place,
    ratio, pruned_idxs, lazy, only_graph, ...)]; [param] is [None] when the
    lookup of the name failed. *)
Definition _forward_pruning_ralated_params (self : Pruner) (g : nat)
    (param : option string) (ratio : option Q) (pruned_idxs : option (list Z))
    (lazy only_graph : bool) : M unit :=
  match param with
  | None => raise AssertionError
  | Some name =>
      let* skip := in_pruned_list name 0 in
      if skip then ret tt
      else
        let* gr := graph_at g in
        let* related_ops := liftR (_forward_search_related_op gr (VarNode name)) in
        let* idxs :=
          match ratio with
          | None =>
              match pruned_idxs with
              | None => raise AssertionError
              | Some idxs =>
                  prune_with_accumulators g param idxs 0 lazy only_graph;;
                  ret (Some idxs)
              end
          | Some r =>
              let* acc := liftR (_get_accumulator gr param) in
              _prune_filters_by_ratio self g (name :: acc) r lazy only_graph
          end in
        match idxs with
        | Some idxs => _prune_ops recursion_limit g related_ops idxs lazy only_graph
        | None => raise TypeError
        end
  end.

(** [graph.var(name)] as a handle: [None] when there is no such variable. *)
Definition var_handle (graph : Program) (name : string) : option string :=
  match var graph name with
  | Some _ => Some name
  | None => None
  end.

(** [Pruner._prune_parameters(graph, scope, params, ratios, place, lazy,
    only_graph, ...)]. *)
Definition _prune_parameters (self : Pruner) (g : nat) (params : list string)
    (ratios : list Q) (lazy only_graph : bool) : M unit :=
  if negb (length params =? length ratios) then raise AssertionError
  else
    modify (set_pruned_list (fun _ => [[]; []]));;
    for_each (zip params ratios) (fun pr =>
      let param := fst pr in
      let ratio := snd pr in
      let* skip := in_pruned_list param 0 in
      if skip then logger (InfoSkip param)
      else
        logger (InfoPruning param);;
        let* gr := graph_at g in
        _forward_pruning_ralated_params self g (var_handle gr param) (Some ratio) None
          lazy only_graph;;
        let* gr := graph_at g in
        for_each (outputs gr param) (fun op =>
          if bool_decide (type op ∈ ["conv2d"; "deformable_conv"]) then
            let* gr := graph_at g in
            let* brother_ops := liftR (_search_brother_ops gr op) in
            for_each brother_ops (fun broher =>
              let* gr := graph_at g in
              let* ps := liftR (get_param_by_op gr broher) in
              for_each ps (fun p =>
                _forward_pruning_ralated_params self g (Some p) (Some ratio) None
                  lazy only_graph))
          else ret tt)).

(** [program.clone()]: a new program object with the same content. *)
Definition clone (program : nat) : M nat :=
  let* p := graph_at program in
  let* n := gets (fun s => length (programs s)) in
  modify (set_programs (fun ps => ps ++ [p]));;
  ret n.

(** The post-pass over the operator at position [pos]. *)
Definition fix_groups (g : nat) (pos : nat) : M unit :=
  let* gr := graph_at g in
  let* op := liftR (seq_index (ops gr) pos) in
  if String.eqb (type op) "depthwise_conv2d"
     || String.eqb (type op) "depthwise_conv2d_grad"
  then
    let* filter := liftR (seq_index (inputs op "Filter") 0) in
    let* sh := liftR (shape_of gr filter) in
    let* n := liftR (seq_index sh 0) in
    update_graph g (set_attr pos "groups" n)
  else ret tt.

(** [Pruner.prune(program, scope, params, ratios, place, lazy, only_graph,
    param_backup, param_shape_backup)]: returns the pruned program and the
    two backups. *)
Definition prune (self : Pruner) (program : nat) (params : list string)
    (ratios : list Q) (lazy only_graph : bool)
    (want_param_backup want_param_shape_backup : bool)
    : M (nat * option (gmap string Backup) * option (gmap string (list Z))) :=
  modify (set_pruned_list (fun _ => []));;
  let* graph := clone program in
  modify (set_param_backup (fun _ => if want_param_backup then Some ∅ else None));;
  modify (set_param_shape_backup
            (fun _ => if want_param_shape_backup then Some ∅ else None));;
  _prune_parameters self graph params ratios lazy only_graph;;
  let* gr := graph_at graph in
  for_each (seq 0 (length (ops gr))) (fix_groups graph);;
  let* pb := gets param_backup in
  let* psb := gets param_shape_backup in
  ret (graph, pb, psb).

(** ** Concrete arrays and graphs *)

(** The flat position of a multi-index in row-major order. *)
Fixpoint ravel (sh ix : list nat) : nat :=
  match sh, ix with
  | n :: sh', i :: ix' => i * foldr Nat.mul 1 sh' + ravel sh' ix'
  | _, _ => 0
  end.

(** [np.array(data).reshape(sh)]. *)
Definition array (sh : list nat) (data : list Q) : ndarray :=
  {| shape := sh; item := fun ix => data !!! ravel sh ix |}.

(** The entries of an array in row-major order. *)
Definition ravelled (t : ndarray) : list Q := item t <$> np.ndindex (shape t).

Definition mk_var (sh : list Z) (is_param persist : bool) : Var :=
  {| var_shape := sh; var_is_parameter := is_param; var_persistable := persist |}.

Definition mk_op (i : nat) (t : string) (ins outs : list (string * list string)) : Op :=
  {| idx := i; type := t; input_slots := ins; output_slots := outs;
     is_bwd_op := false; is_opt_op := false; attrs := ∅ |}.

Definition initial_state (p : Program) (sc : gmap string ndarray) : State :=
  {| programs := [p]; scope := sc; pruned_list := [];
     param_backup := None; param_shape_backup := None; log := [] |}.

(** ** The vocabulary of the statements, and the examples *)



(** The channels that stay when the channels [sel] go, in order. *)
Definition kept_channels (n : nat) (sel : list nat) : list nat :=
  List.filter (fun c => negb (bool_decide (c ∈ sel))) (seq 0 n).

(** [t'] is [t] without the slices [sel] along [axis]. *)
Definition slices_removed (t t' : ndarray) (axis : nat) (sel : list nat) : Prop :=
  let kept := kept_channels (shape t !!! axis) sel in
  shape t' = <[axis := length kept]> (shape t) /\
  forall ix, ix !!! axis < length kept ->
    item t' ix = item t (<[axis := kept !!! (ix !!! axis)]> ix).

(** [t'] is [t] with the slices [sel] along [axis] set to zero. *)
Definition slices_zeroed (t t' : ndarray) (axis : nat) (sel : list nat) : Prop :=
  shape t' = shape t /\
  forall ix, ix !!! axis < shape t !!! axis ->
    item t' ix = if bool_decide (ix !!! axis ∈ sel) then 0%Q else item t ix.



(** The pruner built with the default criterion. *)
Definition l1_norm : Pruner := {| criterion := "l1_norm" |}.

(** A 3x2 parameter whose channels along axis 0 have l1 scores 6, 4, 2. *)
Definition descending_param : ndarray := array [3; 2] [3; -3; 2; 2; -1; 1]%Q.

(** A 2x4x1x1 filter bank pruned along its input-channel axis with the
    indices selected on a 4x1 parameter. *)
Definition selecting_param : ndarray := array [4; 1] [3; -1; 2; 1]%Q.


(** Every operator of the graph has an entry in the [visited] dict. *)
Definition covers (graph : Program) (v : gmap nat bool) : Prop :=
  forall op, op ∈ ops graph -> is_Some (v !! idx op).

(** The number of operators identities not yet visited. *)
Definition unvisited_count (v : gmap nat bool) : nat :=
  size (filter (fun kv => kv.2 = false) v).

(** What holds of the locals of the search at every point: the dict covers
    the graph, and the path holds distinct, visited, non-backward operators
    of the graph. *)
Definition core_inv (graph : Program) (st : Search) : Prop :=
  covers graph (visited st) /\
  (forall op, op ∈ visit_path st -> visited st !! idx op = Some true) /\
  NoDup (idx <$> visit_path st) /\
  (forall op, op ∈ visit_path st -> op ∈ ops graph /\ is_bwd_op op = false).

(** The operators the search starts from: the non-backward consumers of the
    variable, or the operator itself. *)
Definition start_ops (graph : Program) (node : Node) : list Op :=
  match node with
  | VarNode name =>
      List.filter (fun op => negb (is_bwd_op op) && bool_decide (name ∈ all_inputs op))
                  (ops graph)
  | OpNode op => [op]
  end.

(** The bound on the remaining iterations of the while loop. *)
Definition search_measure (st : Search) : nat :=
  length (stack st) + unvisited_count (visited st).

(** The [visited] dict as the search sets it up: no operator visited. *)
Definition fresh_visited (graph : Program) : gmap nat bool :=
  list_to_map ((fun op => (idx op, false)) <$> ops graph).

(** The invariant of the while loop after [j] iterations: the worklist is
    the path without its first [j] entries, and every operator on the path
    was either there at the start or pushed as a consumer of a non-boundary
    operator of the path. *)
Definition loop_inv (graph : Program) (init : list Op) (j : nat) (st : Search) : Prop :=
  core_inv graph st /\
  stack st = drop j (visit_path st) /\
  (forall op, op ∈ visit_path st ->
     op ∈ init \/
     exists p, p ∈ visit_path st /\ is_boundary (type p) = false /\
               op ∈ next_ops graph p) /\
  init `prefix_of` visit_path st.

(** A weight [w] whose decayed copy [w_decay] is read by the optimizer
    operator that updates the bias [b]. *)
Definition decay_net : Program :=
  {| block_ops :=
       [ mk_op 0 "scale" [("X", ["w"])] [("Out", ["w_decay"])];
         {| idx := 1; type := "sgd";
            input_slots := [("Param", ["b"]); ("Grad", ["w_decay"])];
            output_slots := [("ParamOut", ["b"])];
            is_bwd_op := false; is_opt_op := true; attrs := ∅ |} ];
     block_vars :=
       list_to_map [ ("w", mk_var [4; 1; 1; 1]%Z true true);
                     ("w_decay", mk_var [4; 1; 1; 1]%Z false false);
                     ("b", mk_var [4]%Z true true) ] |}.

(** [s'] differs from [s] in no program object but the one behind [g]. *)
Definition same_programs_except (g : nat) (s s' : State) : Prop :=
  length (programs s') = length (programs s) /\
  forall g', g' <> g -> programs s' !! g' = programs s !! g'.

(** Every name registered for an axis in [s] is registered for it in [s']. *)
Definition registry_grows (s s' : State) : Prop :=
  forall axis l x, pruned_list s !! axis = Some l -> x ∈ l ->
    exists l', pruned_list s' !! axis = Some l' /\ x ∈ l'.

(** The computation [m] takes every state to one related to it by [R],
    whether it returns or raises. *)
Definition respects (R : State -> State -> Prop) {A} (m : M A) : Prop :=
  forall s, R s (m s).2.

Definition is_depthwise (op : Op) : bool :=
  String.eqb (type op) "depthwise_conv2d"
  || String.eqb (type op) "depthwise_conv2d_grad".

(** The "groups" attribute of a depthwise operator is the axis-0 size of the
    first variable in its "Filter" slot. *)
Definition groups_ok (gr : Program) (op : Op) : Prop :=
  is_depthwise op = true ->
  exists filter sh n,
    inputs op "Filter" !! 0 = Some filter /\
    shape_of gr filter = Ok sh /\
    sh !! 0 = Some n /\
    attrs op !! "groups" = Some n.

Definition groups_ok_at (gr : Program) (pos : nat) : Prop :=
  forall op, ops gr !! pos = Some op -> groups_ok gr op.

(** A convolution followed by a depthwise convolution whose "groups" is the
    channel count before pruning. *)
Definition depthwise_net : Program :=
  {| block_ops :=
       [ mk_op 0 "conv2d" [("Filter", ["A.w"]); ("Input", ["x"])] [("Output", ["a"])];
         {| idx := 1; type := "depthwise_conv2d";
            input_slots := [("Filter", ["D.w"]); ("Input", ["a"])];
            output_slots := [("Output", ["d"])];
            is_bwd_op := false; is_opt_op := false;
            attrs := {["groups" := 4%Z]} |} ];
     block_vars :=
       list_to_map [ ("x", mk_var [-1; 1; 8; 8]%Z false false);
                     ("A.w", mk_var [4; 1; 1; 1]%Z true true);
                     ("a", mk_var [-1; 4; 8; 8]%Z false false);
                     ("D.w", mk_var [4; 1; 1; 1]%Z true true);
                     ("d", mk_var [-1; 4; 8; 8]%Z false false) ] |}.

Definition depthwise_scope : gmap string ndarray :=
  list_to_map [ ("A.w", array [4; 1; 1; 1] [3; -1; 2; 1]%Q);
                ("D.w", array [4; 1; 1; 1] [5; 6; 7; 8]%Q) ].

(** The tensor stored under [name] is the same in [s'] as in [s]. *)
Definition same_tensor (name : string) (s s' : State) : Prop :=
  scope s' !! name = scope s !! name.

(** Two convolutions with a batch normalisation between them. *)
Definition conv_bn_net : Program :=
  {| block_ops :=
       [ mk_op 0 "conv2d" [("Filter", ["A.w"]); ("Input", ["x"])] [("Output", ["a"])];
         mk_op 1 "batch_norm"
           [("Bias", ["bn.b"]); ("Mean", ["bn.m"]); ("Scale", ["bn.s"]);
            ("Variance", ["bn.v"]); ("X", ["a"])]
           [("Y", ["y"])];
         mk_op 2 "conv2d" [("Filter", ["B.w"]); ("Input", ["y"])] [("Output", ["b"])] ];
     block_vars :=
       list_to_map [ ("x", mk_var [-1; 1; 8; 8]%Z false false);
                     ("A.w", mk_var [4; 1; 1; 1]%Z true true);
                     ("a", mk_var [-1; 4; 8; 8]%Z false false);
                     ("bn.b", mk_var [4]%Z true true);
                     ("bn.m", mk_var [4]%Z false true);
                     ("bn.s", mk_var [4]%Z true true);
                     ("bn.v", mk_var [4]%Z false true);
                     ("y", mk_var [-1; 4; 8; 8]%Z false false);
                     ("B.w", mk_var [2; 4; 1; 1]%Z true true);
                     ("b", mk_var [-1; 2; 8; 8]%Z false false) ] |}.

Definition conv_bn_scope : gmap string ndarray :=
  list_to_map [ ("A.w", array [4; 1; 1; 1] [3; -1; 2; 1]%Q);
                ("bn.b", array [4] [10; 11; 12; 13]%Q);
                ("bn.m", array [4] [20; 21; 22; 23]%Q);
                ("bn.s", array [4] [30; 31; 32; 33]%Q);
                ("bn.v", array [4] [40; 41; 42; 43]%Q);
                ("B.w", array [2; 4; 1; 1] [1; 2; 3; 4; 5; 6; 7; 8]%Q) ].

(** The state in which [_prune_parameters] starts its loop. *)
Definition conv_bn_state : State :=
  set_pruned_list (fun _ => [[]; []]) (initial_state conv_bn_net conv_bn_scope).

(** A feature map of four channels, three by three, flattened into a
    fully-connected layer. *)
Definition fc_mul : Op :=
  mk_op 1 "mul" [("X", ["a"]); ("Y", ["fc.w"])] [("Out", ["o"])].

Definition fc_net : Program :=
  {| block_ops :=
       [ mk_op 0 "conv2d" [("Filter", ["A.w"]); ("Input", ["x"])] [("Output", ["a"])];
         fc_mul ];
     block_vars :=
       list_to_map [ ("x", mk_var [-1; 1; 3; 3]%Z false false);
                     ("A.w", mk_var [4; 1; 1; 1]%Z true true);
                     ("a", mk_var [-1; 4; 3; 3]%Z false false);
                     ("fc.w", mk_var [36; 2]%Z true true);
                     ("o", mk_var [-1; 2]%Z false false) ] |}.

Definition fc_scope : gmap string ndarray :=
  list_to_map [ ("A.w", array [4; 1; 1; 1] [1; 3; 2; 4]%Q);
                ("fc.w", array [36; 2] ((fun i => inject_Z (Z.of_nat i)) <$> seq 0 72)) ].

Definition fc_state : State :=
  set_pruned_list (fun _ => [[]; []]) (initial_state fc_net fc_scope).

(** A convolution whose output goes straight into a concatenation. *)
Definition concat_direct_net : Program :=
  {| block_ops :=
       [ mk_op 0 "conv2d" [("Filter", ["A.w"]); ("Input", ["x"])] [("Output", ["a"])];
         mk_op 1 "concat" [("X", ["a"; "c"])] [("Out", ["z"])];
         mk_op 2 "conv2d" [("Filter", ["B.w"]); ("Input", ["z"])] [("Output", ["b"])] ];
     block_vars :=
       list_to_map [ ("x", mk_var [-1; 1; 8; 8]%Z false false);
                     ("c", mk_var [-1; 2; 8; 8]%Z false false);
                     ("A.w", mk_var [4; 1; 1; 1]%Z true true);
                     ("a", mk_var [-1; 4; 8; 8]%Z false false);
                     ("z", mk_var [-1; 6; 8; 8]%Z false false);
                     ("B.w", mk_var [1; 6; 1; 1]%Z true true);
                     ("b", mk_var [-1; 1; 8; 8]%Z false false) ] |}.

Definition concat_direct_scope : gmap string ndarray :=
  list_to_map [ ("A.w", array [4; 1; 1; 1] [3; -1; 2; 1]%Q);
                ("B.w", array [1; 6; 1; 1] [0; 1; 2; 3; 4; 5]%Q) ].

(** Three feature maps of 4, 6 and 5 channels concatenated; the second one
    comes from the convolution [A] through a relu. *)
Definition concat_net : Program :=
  {| block_ops :=
       [ mk_op 0 "conv2d" [("Filter", ["A.w"]); ("Input", ["x"])] [("Output", ["a"])];
         mk_op 1 "relu" [("X", ["a"])] [("Out", ["r"])];
         mk_op 2 "concat" [("X", ["p"; "r"; "q"])] [("Out", ["z"])];
         mk_op 3 "conv2d" [("Filter", ["B.w"]); ("Input", ["z"])] [("Output", ["b"])] ];
     block_vars :=
       list_to_map [ ("x", mk_var [-1; 1; 8; 8]%Z false false);
                     ("p", mk_var [-1; 4; 8; 8]%Z false false);
                     ("q", mk_var [-1; 5; 8; 8]%Z false false);
                     ("A.w", mk_var [6; 1; 1; 1]%Z true true);
                     ("a", mk_var [-1; 6; 8; 8]%Z false false);
                     ("r", mk_var [-1; 6; 8; 8]%Z false false);
                     ("z", mk_var [-1; 15; 8; 8]%Z false false);
                     ("B.w", mk_var [1; 15; 1; 1]%Z true true);
                     ("b", mk_var [-1; 1; 8; 8]%Z false false) ] |}.

Definition concat_scope : gmap string ndarray :=
  list_to_map [ ("A.w", array [6; 1; 1; 1] [5; 1; 6; 2; 7; 8]%Q);
                ("B.w", array [1; 15; 1; 1]
                          [0; 1; 2; 3; 4; 5; 6; 7; 8; 9; 10; 11; 12; 13; 14]%Q) ].

(** The batch normalisation behind [A] has two channels where [A] has four. *)
Definition mismatch_scope : gmap string ndarray :=
  list_to_map [ ("A.w", array [4; 1; 1; 1] [3; 4; 1; 2]%Q);
                ("bn.b", array [2] [10; 11]%Q);
                ("bn.m", array [2] [20; 21]%Q);
                ("bn.s", array [2] [30; 31]%Q);
                ("bn.v", array [2] [40; 41]%Q);
                ("B.w", array [2; 4; 1; 1] [1; 2; 3; 4; 5; 6; 7; 8]%Q) ].

(** The log is the same in [s'] as in [s]. *)
Definition same_log (s s' : State) : Prop := log s' = log s.

(** A parameter [w] with the velocity the momentum optimizer keeps for it. *)
Definition momentum_net : Program :=
  {| block_ops :=
       [ mk_op 0 "conv2d" [("Filter", ["w"]); ("Input", ["x"])] [("Output", ["y"])];
         {| idx := 1; type := "momentum";
            input_slots := [("Grad", ["w@GRAD"]); ("Param", ["w"]); ("Velocity", ["w_velocity"])];
            output_slots := [("ParamOut", ["w"]); ("VelocityOut", ["w_velocity"])];
            is_bwd_op := false; is_opt_op := true; attrs := ∅ |} ];
     block_vars :=
       list_to_map [ ("x", mk_var [-1; 1; 8; 8]%Z false false);
                     ("w", mk_var [4; 1; 1; 1]%Z true true);
                     ("y", mk_var [-1; 4; 8; 8]%Z false false);
                     ("w@GRAD", mk_var [4; 1; 1; 1]%Z false false);
                     ("w_velocity", mk_var [4; 1; 1; 1]%Z false true) ] |}.

(** The operator identities of the graph not yet in the [visited] list. *)
Definition unseen (graph : Program) (v : list nat) : list nat :=
  filter (fun k => k ∉ v) (remove_dups (idx <$> ops graph)).

(** What decides how long the walk of [_search_brother_ops] can go on. *)
Definition brothers_measure (graph : Program) (st : Brothers) : nat :=
  length (b_stack st) + length (unseen graph (b_visited st)).

(** The type test that makes a parent a sibling. *)
Definition conv_like (op : Op) : bool :=
  contains "conv2d" (type op) || contains "deformable_conv" (type op)
  || String.eqb (type op) "fc".

(** What holds of the siblings found so far. *)
Definition brothers_inv (graph : Program) (op_node : Op) (st : Brothers) : Prop :=
  idx op_node ∈ b_visited st /\
  NoDup (idx <$> brothers st) /\
  forall b, b ∈ brothers st ->
    b ∈ ops graph /\ is_bwd_op b = false /\ is_opt_op b = false /\
    conv_like b = true /\ idx b ∈ b_visited st /\ idx b <> idx op_node.

(** A residual network block: two convolutions whose outputs are added. *)
Definition residual_net : Program :=
  {| block_ops :=
       [ mk_op 0 "conv2d" [("Filter", ["A.w"]); ("Input", ["x"])] [("Output", ["a"])];
         mk_op 1 "conv2d" [("Filter", ["B.w"]); ("Input", ["x"])] [("Output", ["b"])];
         mk_op 2 "elementwise_add" [("X", ["a"]); ("Y", ["b"])] [("Out", ["s"])];
         mk_op 3 "relu" [("X", ["s"])] [("Out", ["r"])];
         mk_op 4 "conv2d" [("Filter", ["C.w"]); ("Input", ["r"])] [("Output", ["c"])] ];
     block_vars :=
       list_to_map [ ("x", mk_var [-1; 1; 8; 8]%Z false false);
                     ("A.w", mk_var [4; 1; 1; 1]%Z true true);
                     ("B.w", mk_var [4; 1; 1; 1]%Z true true);
                     ("C.w", mk_var [2; 4; 1; 1]%Z true true);
                     ("a", mk_var [-1; 4; 8; 8]%Z false false);
                     ("b", mk_var [-1; 4; 8; 8]%Z false false);
                     ("s", mk_var [-1; 4; 8; 8]%Z false false);
                     ("r", mk_var [-1; 4; 8; 8]%Z false false);
                     ("c", mk_var [-1; 2; 8; 8]%Z false false) ] |}.

(** An index NumPy refuses for a dimension of size [n]. *)
Definition out_of_bounds (n : nat) (i : Z) : bool :=
  negb ((- Z.of_nat n <=? i)%Z && (i <? Z.of_nat n)%Z).

(** The channels a list of indices in bounds stands for: a negative index
    counts from the end. *)
Definition channels (n : nat) (idx : list Z) : list nat :=
  (fun i => Z.to_nat (i mod Z.of_nat n)) <$> idx.


(** The sum of a list of sizes. *)
Definition total (ws : list Z) : Z := foldr Z.add 0%Z ws.

(** [w] is the axis-1 size of the [ci]-th of [concat_inputs]. *)
Definition width_at (graph : Program) (concat_inputs : list string) (ci : nat)
    (w : Z) : Prop :=
  exists v sh, concat_inputs !! ci = Some v /\ shape_of graph v = Ok sh /\
               sh !! 1 = Some w.

(** A convolution whose output is flattened before the fully-connected
    layer. *)
Definition flatten_net : Program :=
  {| block_ops :=
       [ mk_op 0 "conv2d" [("Filter", ["A.w"]); ("Input", ["x"])] [("Output", ["a"])];
         mk_op 1 "reshape2" [("X", ["a"])] [("Out", ["f"])];
         mk_op 2 "mul" [("X", ["f"]); ("Y", ["fc.w"])] [("Out", ["o"])] ];
     block_vars :=
       list_to_map [ ("x", mk_var [-1; 1; 3; 3]%Z false false);
                     ("A.w", mk_var [4; 1; 1; 1]%Z true true);
                     ("a", mk_var [-1; 4; 3; 3]%Z false false);
                     ("f", mk_var [-1; 36]%Z false false);
                     ("fc.w", mk_var [36; 2]%Z true true);
                     ("o", mk_var [-1; 2]%Z false false) ] |}.

(** The state in which [prune] calls [_prune_parameters]: the registry
    reset, the clone [p] of the program added, the backups set up. *)
Definition prune_start (p : Program) (want_param_backup want_param_shape_backup : bool)
    (s : State) : State :=
  set_param_shape_backup
    (fun _ => if want_param_shape_backup then Some ∅ else None)
    (set_param_backup
       (fun _ => if want_param_backup then Some ∅ else None)
       (set_programs (fun ps => ps ++ [p]) (set_pruned_list (fun _ => []) s))).

(** What [prune] does with the clone [graph]. *)
Definition prune_tail (self : Pruner) (graph : nat) (params : list string)
    (ratios : list Q) (lazy only_graph : bool)
    : M (nat * option (gmap string Backup) * option (gmap string (list Z))) :=
  bind (_prune_parameters self graph params ratios lazy only_graph) (fun _ =>
  let* gr := graph_at graph in
  bind (for_each (seq 0 (length (ops gr))) (fix_groups graph)) (fun _ =>
  let* pb := gets param_backup in
  let* psb := gets param_shape_backup in
  ret (graph, pb, psb))).

(** The scope is the same in [s'] as in [s]. *)
Definition same_scope (s s' : State) : Prop := scope s' = scope s.

(** The tensor a backup entry holds, if it holds one. *)
Definition backup_tensor (b : Backup) : option ndarray :=
  match b with
  | BackupValue t => Some t
  | BackupShape _ => None
  end.

(** Putting the tensors of the backup [d] back into the scope [sc]. *)
Definition restore (d : gmap string Backup) (sc : gmap string ndarray)
    : gmap string ndarray :=
  omap backup_tensor d ∪ sc.

(** The backup of [s] accounts for the scope [sc0] the call started with:
    a name without an entry has the tensor it had, and an entry is the
    tensor its name had. *)
Definition backup_inv (sc0 : gmap string ndarray) (s : State) : Prop :=
  exists d, param_backup s = Some d /\
    forall name,
      (d !! name = None /\ scope s !! name = sc0 !! name) \/
      (exists t0, sc0 !! name = Some t0 /\ d !! name = Some (BackupValue t0)).

Definition keeps_backup_inv (sc0 : gmap string ndarray) (s s' : State) : Prop :=
  backup_inv sc0 s -> backup_inv sc0 s'.

(** Neither the scope nor the value backup differs between [s] and [s']. *)
Definition same_scope_and_backup (s s' : State) : Prop :=
  scope s' = scope s /\ param_backup s' = param_backup s.

(** The body of the loop of [_prune_parameters], for one name and ratio. *)
Definition prune_parameters_turn (self : Pruner) (g : nat) (lazy only_graph : bool)
    (pr : string * Q) : M unit :=
  let* skip := in_pruned_list (fst pr) 0 in
  if skip then logger (InfoSkip (fst pr))
  else
    bind (logger (InfoPruning (fst pr))) (fun _ =>
    let* gr := graph_at g in
    bind (_forward_pruning_ralated_params self g (var_handle gr (fst pr))
            (Some (snd pr)) None lazy only_graph) (fun _ =>
    let* gr := graph_at g in
    for_each (outputs gr (fst pr)) (fun op =>
      if bool_decide (type op ∈ ["conv2d"; "deformable_conv"]) then
        let* gr := graph_at g in
        let* brother_ops := liftR (_search_brother_ops gr op) in
        for_each brother_ops (fun broher =>
          let* gr := graph_at g in
          let* ps := liftR (get_param_by_op gr broher) in
          for_each ps (fun p =>
            _forward_pruning_ralated_params self g (Some p) (Some (snd pr)) None
              lazy only_graph))
      else ret tt))).

(** The name [p] is in the registry of [axis]. *)
Definition registered (p : string) (axis : nat) (s : State) : Prop :=
  exists l, pruned_list s !! axis = Some l /\ p ∈ l.

(** The operator identity of [q] is marked visited. *)
Definition marked (st : Search) (q : Op) : Prop :=
  visited st !! idx q = Some true.

(** Every consumer of [p] that is no backward operator is marked. *)
Definition expanded (graph : Program) (st : Search) (p : Op) : Prop :=
  forall q, q ∈ next_ops graph p -> is_bwd_op q = false -> marked st q.

(** Every identity marked visited is that of an operator on the path or of
    one of the operators [starts]. *)
Definition explained (starts : list Op) (st : Search) : Prop :=
  forall k, visited st !! k = Some true ->
    (exists p, p ∈ visit_path st /\ idx p = k) \/
    (exists s, s ∈ starts /\ idx s = k).

(** What the search keeps while [j] operators of the path have left the
    worklist. *)
Definition closure_inv (graph : Program) (starts : list Op) (j : nat)
    (st : Search) : Prop :=
  explained starts st /\
  (forall s, s ∈ starts -> expanded graph st s) /\
  (forall i p, i < j -> visit_path st !! i = Some p ->
     is_boundary (type p) = false -> expanded graph st p) /\
  stack st = drop j (visit_path st).

(** In [s] the parameter [param] of graph [g] can be pruned at [axis] by the
    channels [sel]: it has a tensor in the scope with a non-empty
    dimension off the axis, its axis has as many entries in the graph as
    in the tensor, and the channels are in range. *)
Definition prunable (g : nat) (axis : nat) (sel : list nat) (s : State)
    (param : string) : Prop :=
  exists gr sh t n,
    programs s !! g = Some gr /\ shape_of gr param = Ok sh /\
    scope s !! param = Some t /\
    sh !! axis = Some (Z.of_nat n) /\ shape t !! axis = Some n /\
    (0 ∉ delete axis (shape t)) /\ forall c, c ∈ sel -> c < n.

(** The two loops of [_prune_parameter_by_idx] over the names. *)
Definition graph_only_turn (g : nat) (pruned_idx : list Z) (pruned_axis : nat)
    (param : string) : M unit :=
  let* ori_shape := var_shape_of g param in
  bind (backup_value param (BackupShape ori_shape)) (fun _ =>
  let* new_shape :=
    liftR (list_update ori_shape pruned_axis
             (fun x => x - Z.of_nat (length pruned_idx))%Z) in
  bind (var_set_shape g param new_shape) (fun _ =>
  pruned_list_append pruned_axis param)).

Definition value_turn (g : nat) (pruned_idx : list Z) (pruned_axis : nat)
    (lazy : bool) (param : string) : M unit :=
  let* param_t := find_tensor param in
  bind (backup_value param (BackupValue param_t)) (fun _ =>
  let* pruned_param := liftR (_prune_tensor param_t pruned_idx pruned_axis lazy) in
  bind (tensor_set param pruned_param) (fun _ =>
  let* ori_shape := var_shape_of g param in
  bind (backup_shape param ori_shape) (fun _ =>
  let* n := liftR (seq_index (shape pruned_param) pruned_axis) in
  let* new_shape :=
    liftR (list_update ori_shape pruned_axis (fun _ => Z.of_nat n)) in
  bind (var_set_shape g param new_shape) (fun _ =>
  pruned_list_append pruned_axis param)))).

(** [m], started in a state with [P], ends in a state with [Q] when it
    returns and in one with [E] when it raises. *)
Definition hoare {A} (P : State -> Prop) (m : M A) (Q : A -> State -> Prop)
    (E : State -> Prop) : Prop :=
  forall s, P s ->
    match m s with
    | (Ok a, s') => Q a s'
    | (Raise _, s') => E s'
    end.

(** The backup [d] accounts for the shapes the variables have in the program
    [p0]: a name without an entry has in [gr] the shape it has in [p0], and
    an entry is (as [entry]) the shape its name has in [p0]. *)
Definition shapes_backed {B} (entry : list Z -> B) (p0 gr : Program)
    (d : gmap string B) : Prop :=
  forall name,
    (d !! name = None /\ shape_of gr name = shape_of p0 name) \/
    (exists sh0, shape_of p0 name = Ok sh0 /\ d !! name = Some (entry sh0)).

(** The invariant of the backup read off a state by [proj], for graph [g]. *)
Definition shapes_inv {B} (proj : State -> option (gmap string B))
    (entry : list Z -> B) (g : nat) (p0 : Program) (s : State) : Prop :=
  exists d gr, proj s = Some d /\ programs s !! g = Some gr /\
               shapes_backed entry p0 gr d.

(** The shape backup of value pruning, and that of graph-only pruning. *)
Definition value_shapes_inv (g : nat) (p0 : Program) : State -> Prop :=
  shapes_inv param_shape_backup (fun sh => sh) g p0.

Definition graph_shapes_inv (g : nat) (p0 : Program) : State -> Prop :=
  shapes_inv param_backup BackupShape g p0.

(** The program behind [g] and the backup read by [proj] are the same in
    [s'] as in [s]. *)
Definition same_graph_and_backup {B} (proj : State -> option (gmap string B))
    (g : nat) (s s' : State) : Prop :=
  programs s' !! g = programs s !! g /\ proj s' = proj s.

Definition keeps {P : State -> Prop} (s s' : State) : Prop := P s -> P s'.

(** The current shape of [q] in graph [g] is [sh]. *)
Definition current_shape (g : nat) (q : string) (sh : list Z) (s : State) : Prop :=
  exists gr, programs s !! g = Some gr /\ shape_of gr q = Ok sh.

(** The backup holds the shape [q] has in [p0]. *)
Definition shape_backed {B} (proj : State -> option (gmap string B))
    (entry : list Z -> B) (p0 : Program) (q : string) (s : State) : Prop :=
  exists d sh0, proj s = Some d /\ shape_of p0 q = Ok sh0 /\ d !! q = Some (entry sh0).

(** The shape backup is the same in [s'] as in [s]. *)
Definition same_shape_backup (s s' : State) : Prop :=
  param_shape_backup s' = param_shape_backup s.

(** * Verification *)

(** * Channel selection *)

Section Rounding.




End Rounding.

Section Argsort.

Variable v : list Q.
Let sc (i : nat) : Q := v !!! i.







End Argsort.

Section Scores.




End Scores.




(** * Tensor pruning *)

Section Masks.

Lemma insert_fmap_seq (f : nat -> bool) (n i : nat) :
  <[i := true]> (f <$> seq 0 n)
  = (fun c => bool_decide (c = i) || f c) <$> seq 0 n.
Proof.
  apply list_eq. intros c.
  destruct (decide (c < n)) as [Hc|Hc].
  - rewrite list_lookup_fmap, lookup_seq_lt by exact Hc. simpl.
    destruct (decide (c = i)) as [->|Hne].
    + rewrite list_lookup_insert_eq
        by (rewrite length_fmap, length_seq; exact Hc).
      rewrite bool_decide_eq_true_2 by reflexivity. reflexivity.
    + rewrite list_lookup_insert_ne by congruence.
      rewrite list_lookup_fmap, lookup_seq_lt by exact Hc. simpl.
      rewrite bool_decide_eq_false_2 by exact Hne. reflexivity.
  - rewrite !lookup_ge_None_2; [reflexivity| |].
    + rewrite length_fmap, length_seq. lia.
    + rewrite length_insert, length_fmap, length_seq. lia.
Qed.

Lemma set_true_members (n : nat) (sel acc : list nat) :
  (forall c, c ∈ sel -> c < n) ->
  np.set_true ((fun c => bool_decide (c ∈ acc)) <$> seq 0 n) (Z.of_nat <$> sel)
  = Ok ((fun c => bool_decide (c ∈ acc ++ sel)) <$> seq 0 n).
Proof.
  revert acc. induction sel as [|i sel IH]; intros acc Hr.
  - simpl. rewrite app_nil_r. reflexivity.
  - cbn [fmap list_fmap np.set_true].
    rewrite length_fmap, length_seq.
    assert (i < n) as Hi by (apply Hr; set_solver).
    replace ((0 <=? Z.of_nat i)%Z && (Z.of_nat i <? Z.of_nat n)%Z) with true
      by (symmetry; apply andb_true_iff; split;
          [apply Z.leb_le|apply Z.ltb_lt]; lia).
    rewrite Nat2Z.id, insert_fmap_seq.
    erewrite (list_fmap_ext _ (fun c => bool_decide (c ∈ acc ++ [i]))).
    + rewrite IH by (intros c Hc; apply Hr; set_solver).
      rewrite <- app_assoc. reflexivity.
    + intros _ c _. simpl.
      destruct (decide (c = i)) as [->|Hne].
      * rewrite (bool_decide_eq_true_2 (i = i)) by reflexivity.
        symmetry. apply bool_decide_eq_true_2.
        apply elem_of_app. right. apply list_elem_of_singleton. reflexivity.
      * rewrite (bool_decide_eq_false_2 (c = i)) by exact Hne. simpl.
        apply bool_decide_ext. rewrite elem_of_app, list_elem_of_singleton.
        tauto.
Qed.

(** The mask [_prune_tensor] builds from a list of channels in range. *)
Lemma mask_of_channels (n : nat) (sel : list nat) :
  (forall c, c ∈ sel -> c < n) ->
  np.set_true (np.zeros n) (Z.of_nat <$> sel)
  = Ok ((fun c => bool_decide (c ∈ sel)) <$> seq 0 n).
Proof.
  intros Hr.
  replace (np.zeros n) with ((fun c => bool_decide (c ∈ @nil nat)) <$> seq 0 n).
  - rewrite set_true_members by exact Hr. reflexivity.
  - unfold np.zeros. apply list_eq. intros c.
    destruct (decide (c < n)) as [Hc|Hc].
    + rewrite list_lookup_fmap, lookup_seq_lt, lookup_replicate_2 by exact Hc.
      reflexivity.
    + rewrite !lookup_ge_None_2; [reflexivity| |].
      * rewrite length_replicate. lia.
      * rewrite length_fmap, length_seq. lia.
Qed.

Lemma compress_fmap {A B} (p : A -> bool) (g : A -> B) (l : list A) :
  np.compress (p <$> l) (g <$> l) = g <$> List.filter p l.
Proof.
  induction l as [|a l IH]; [reflexivity|].
  cbn. destruct (p a); cbn; rewrite IH; reflexivity.
Qed.

Lemma putmask_fmap {A B} (p : A -> bool) (v : B) (g : A -> B) (l : list A) :
  np.putmask (p <$> l) v (g <$> l) = (fun a => if p a then v else g a) <$> l.
Proof.
  induction l as [|a l IH]; [reflexivity|].
  cbn. rewrite IH. reflexivity.
Qed.

Lemma length_kept_channels (n : nat) (sel : list nat) :
  NoDup sel -> (forall c, c ∈ sel -> c < n) ->
  length (kept_channels n sel) = n - length sel.
Proof.
  intros Hnd Hr. unfold kept_channels.
  assert (List.filter (fun c => bool_decide (c ∈ sel)) (seq 0 n) ≡ₚ sel) as Hp.
  { apply NoDup_Permutation.
    - apply NoDup_ListNoDup, List.NoDup_filter, NoDup_ListNoDup, NoDup_seq.
    - exact Hnd.
    - intros c. rewrite list_elem_of_In, List.filter_In, bool_decide_eq_true.
      rewrite <- list_elem_of_In, elem_of_seq. split; [tauto|].
      intros Hc. pose proof (Hr c Hc). split; [lia|exact Hc]. }
  pose proof (List.filter_length (fun c => bool_decide (c ∈ sel)) (seq 0 n)) as Hlen.
  rewrite Hp, List.length_seq in Hlen.
  change List.length with (@length nat) in Hlen. 
  lia.
Qed.

End Masks.

Section PruneTensor.

Variables (t : ndarray) (axis n : nat) (sel : list nat).
Hypothesis Hn : shape t !! axis = Some n.
Hypothesis Hsel : forall c, c ∈ sel -> c < n.
Hypothesis Hdims : 0 ∉ delete axis (shape t).

Let mask : list bool := (fun c => bool_decide (c ∈ sel)) <$> seq 0 n.

Lemma total_axis : shape t !!! axis = n.
Proof. apply list_lookup_total_correct, Hn. Qed.

Lemma func_line (ix : list nat) :
  func mask (np.line t axis ix)
  = (fun a => item t (<[axis := a]> ix)) <$> kept_channels n sel.
Proof.
  unfold func, np.line, mask. rewrite total_axis.
  rewrite <- list_fmap_compose. apply compress_fmap.
Qed.

Lemma lazy_func_line (ix : list nat) :
  lazy_func mask (np.line t axis ix)
  = (fun a => if bool_decide (a ∈ sel) then 0%Q else item t (<[axis := a]> ix))
      <$> seq 0 n.
Proof.
  unfold lazy_func, np.line, mask. rewrite total_axis. apply putmask_fmap.
Qed.

Lemma insert_own_axis (ix : list nat) : <[axis := ix !!! axis]> ix = ix.
Proof.
  destruct (ix !! axis) as [a|] eqn:Ha.
  - rewrite (list_lookup_total_correct _ _ _ Ha). apply list_insert_id, Ha.
  - apply list_insert_ge, lookup_ge_None, Ha.
Qed.

(** Hard mode: the slices [sel] are cut out. *)
Lemma prune_tensor_hard :
  exists t', _prune_tensor t (Z.of_nat <$> sel) axis false = Ok t' /\
             slices_removed t t' axis sel.
Proof.
  unfold _prune_tensor, seq_index. rewrite Hn. cbn [rbind].
  rewrite mask_of_channels by exact Hsel. cbn [rbind].
  unfold np.apply_along_axis.
  rewrite bool_decide_eq_false_2 by exact Hdims.
  eexists. split; [reflexivity|].
  unfold slices_removed. cbn [shape item]. rewrite total_axis.
  fold mask. split.
  - rewrite func_line, length_fmap. reflexivity.
  - intros ix Hix. rewrite func_line.
    rewrite (list_lookup_total_fmap (A:=nat) _ (kept_channels n sel) _ Hix).
    reflexivity.
Qed.

(** Lazy mode: the slices [sel] are overwritten with zeros. *)
Lemma prune_tensor_lazy :
  exists t', _prune_tensor t (Z.of_nat <$> sel) axis true = Ok t' /\
             slices_zeroed t t' axis sel.
Proof.
  unfold _prune_tensor, seq_index. rewrite Hn. cbn [rbind].
  rewrite mask_of_channels by exact Hsel. cbn [rbind].
  unfold np.apply_along_axis.
  rewrite bool_decide_eq_false_2 by exact Hdims.
  eexists. split; [reflexivity|].
  unfold slices_zeroed. cbn [shape item]. rewrite total_axis.
  fold mask. split.
  - rewrite lazy_func_line, length_fmap, length_seq.
    apply list_insert_id, Hn.
  - intros ix Hix. rewrite lazy_func_line.
    assert (ix !!! axis < length (seq 0 n)) as Hix'
      by (rewrite length_seq; exact Hix).
    rewrite (list_lookup_total_fmap (A:=nat) _ (seq 0 n) _ Hix').
    rewrite lookup_total_seq_lt by exact Hix. cbn.
    rewrite insert_own_axis. reflexivity.
Qed.

End PruneTensor.

(** * Selection and tensor pruning: the claims *)








(** An unsupported criterion surfaces only in [_cal_pruned_idx], where the
    local [criterions] has not been bound. *)
Lemma cal_pruned_idx_unsupported (self : Pruner) (param : ndarray) (ratio : Q)
    (axis n : nat) :
  criterion self <> "l1_norm" ->
  shape param !! axis = Some n ->
  _cal_pruned_idx self param ratio axis = Raise (UnboundLocalError "criterions").
Proof.
  intros Hc Hn. unfold _cal_pruned_idx, seq_index. rewrite Hn. cbn [rbind].
  destruct (String.eqb_spec (criterion self) "l1_norm"); [contradiction|reflexivity].
Qed.

(** C8 (as amended): constructing the pruner succeeds for every criterion
    string, "l1_norm" or not, and stores the string unchecked; no error is
    raised at construction time, and a pruner built with another criterion
    never returns a selection. *)
Theorem init_accepts_any_criterion (c : string) :
  exists self : Pruner,
    __init__ c = Ok self /\ criterion self = c /\
    (c <> "l1_norm" ->
     forall param ratio axis idx, _cal_pruned_idx self param ratio axis <> Ok idx).
Proof.
  eexists. split; [reflexivity|]. split; [reflexivity|].
  intros Hc param ratio axis idx. unfold _cal_pruned_idx.
  destruct (seq_index (shape param) axis); cbn [rbind criterion]; [|discriminate].
  destruct (String.eqb_spec c "l1_norm"); [contradiction|discriminate].
Qed.

Lemma init_accepts_any_criterion_witness :
  exists self : Pruner,
    __init__ "geometry_median" = Ok self /\ criterion self = "geometry_median" /\
    ("geometry_median" <> "l1_norm" ->
     forall param ratio axis idx, _cal_pruned_idx self param ratio axis <> Ok idx).
Proof. apply (init_accepts_any_criterion "geometry_median"). Defined.

(** C8, counterexample: construction with the unsupported criterion
    "geometry_median" raises nothing; the error appears when indices are
    selected. *)
Lemma init_unsupported_criterion_succeeds :
  __init__ "geometry_median" = Ok {| criterion := "geometry_median" |} /\
  _cal_pruned_idx {| criterion := "geometry_median" |} descending_param (2 # 3) 0
  = Raise (UnboundLocalError "criterions").
Proof. split; reflexivity. Qed.

(** * Forward search *)

(** Membership in a list built with cons and append. *)
Ltac in_list :=
  repeat first [rewrite elem_of_cons | rewrite elem_of_app]; auto 6.

Section SearchLemmas.

Variable graph : Program.

Lemma next_ops_in_graph (op q : Op) : q ∈ next_ops graph op -> q ∈ ops graph.
Proof.
  unfold next_ops. intros H.
  apply list_elem_of_bind in H as (q' & H & Hq').
  apply list_elem_of_bind in H as (out & H & _).
  case_bool_decide; [|apply elem_of_nil in H; contradiction].
  apply list_elem_of_singleton in H. subst. exact Hq'.
Qed.

Lemma covers_insert (v : gmap nat bool) (k : nat) (b : bool) :
  covers graph v -> covers graph (<[k := b]> v).
Proof.
  intros Hc op Hop. destruct (decide (k = idx op)) as [->|Hne].
  - rewrite lookup_insert_eq. eauto.
  - rewrite lookup_insert_ne by exact Hne. auto.
Qed.

Lemma unvisited_count_mark (v : gmap nat bool) (k : nat) :
  v !! k = Some false ->
  S (unvisited_count (<[k := true]> v)) = unvisited_count v.
Proof.
  intros Hk. unfold unvisited_count.
  rewrite map_filter_insert_False by (simpl; discriminate).
  rewrite map_filter_delete, map_size_delete_Some.
  - assert (size (filter (fun kv : nat * bool => kv.2 = false) v) <> 0) as Hne.
    { apply map_size_non_empty_iff. intros Hempty.
      assert (filter (fun kv : nat * bool => kv.2 = false) v !! k = Some false) as H
        by (apply map_lookup_filter_Some; auto).
      rewrite Hempty, lookup_empty in H. discriminate. }
    lia.
  - exists false. apply map_lookup_filter_Some. auto.
Qed.

Lemma unvisited_count_mark_le (v : gmap nat bool) (k : nat) :
  unvisited_count (<[k := true]> v) <= unvisited_count v.
Proof.
  unfold unvisited_count.
  rewrite map_filter_insert_False by (simpl; discriminate).
  rewrite map_filter_delete. rewrite map_size_delete.
  destruct (_ !! k); simpl; lia.
Qed.

(** [_get_next_unvisited_op] never fails on a dict that covers the graph,
    and returns graph operators that are not backward operators. *)
Lemma unvisited_of_ok (v : gmap nat bool) (l : list Op) :
  (forall op, op ∈ l -> is_Some (v !! idx op)) ->
  exists r, unvisited_of v l = Ok r /\
    forall op, op ∈ r -> op ∈ l /\ is_bwd_op op = false.
Proof.
  induction l as [|op l IH]; intros Hc.
  - exists []. split; [reflexivity|]. intros op H. apply elem_of_nil in H. contradiction.
  - destruct IH as (r & Hr & Hin); [intros q Hq; apply Hc; in_list|].
    destruct (Hc op) as [b Hb]; [in_list|].
    cbn [unvisited_of]. unfold visited_get. rewrite Hb. cbn [rbind].
    rewrite Hr. cbn [rbind]. eexists. split; [reflexivity|].
    intros q Hq.
    destruct (negb b && negb (is_bwd_op op)) eqn:Hcond.
    + apply elem_of_cons in Hq as [->|Hq].
      * apply andb_true_iff in Hcond as [_ Hcond].
        apply negb_true_iff in Hcond. split; [in_list|exact Hcond].
      * destruct (Hin q Hq). split; [in_list|assumption].
    + destruct (Hin q Hq). split; [in_list|assumption].
Qed.

Lemma get_next_unvisited_op_ok (v : gmap nat bool) (top_op : Op) :
  covers graph v ->
  exists r, _get_next_unvisited_op graph v top_op = Ok r /\
    forall op, op ∈ r ->
      op ∈ next_ops graph top_op /\ op ∈ ops graph /\ is_bwd_op op = false.
Proof.
  intros Hc. unfold _get_next_unvisited_op.
  destruct (unvisited_of_ok v (next_ops graph top_op)) as (r & Hr & Hin).
  - intros op Hop. apply Hc. eapply next_ops_in_graph, Hop.
  - exists r. split; [exact Hr|]. intros op Hop. destruct (Hin op Hop).
    split; [assumption|]. split; [eapply next_ops_in_graph; eassumption|assumption].
Qed.

End SearchLemmas.

Section PushUnvisited.

Variable graph : Program.

(** What the push loop does: the operators [new] it appends were
    unvisited, are distinct, and are marked visited afterwards. *)
Lemma push_unvisited_spec (next : list Op) (st : Search) :
  covers graph (visited st) ->
  (forall op, op ∈ next -> op ∈ ops graph) ->
  exists (new : list Op) (st' : Search),
    push_unvisited next st = Ok st' /\
    stack st' = stack st ++ new /\
    visit_path st' = visit_path st ++ new /\
    (forall op, op ∈ new -> op ∈ next /\ visited st !! idx op = Some false) /\
    NoDup (idx <$> new) /\
    covers graph (visited st') /\
    (forall k, visited st !! k = Some true -> visited st' !! k = Some true) /\
    (forall op, op ∈ new -> visited st' !! idx op = Some true) /\
    unvisited_count (visited st') + length new = unvisited_count (visited st).
Proof.
  revert st. induction next as [|op rest IH]; intros st Hc Hg.
  - exists [], st. rewrite !app_nil_r. cbn.
    split; [reflexivity|]. split; [reflexivity|]. split; [reflexivity|].
    split; [intros ? H; apply elem_of_nil in H; contradiction|].
    split; [constructor|]. split; [exact Hc|]. split; [auto|].
    split; [intros ? H; apply elem_of_nil in H; contradiction|lia].
  - destruct (Hc op) as [b Hb]; [apply Hg; in_list|].
    cbn [push_unvisited]. unfold visited_get. rewrite Hb. cbn [rbind].
    destruct b; cbn [negb].
    + destruct (IH st Hc) as (new & st' & Hp & Hs & Hv & Hnew & Hnd & Hc' & Hm & Ht & Hcnt);
        [intros q Hq; apply Hg; in_list|].
      exists new, st'.
      split; [exact Hp|]. split; [exact Hs|]. split; [exact Hv|].
      split; [intros q Hq; destruct (Hnew q Hq); split; [in_list|assumption]|].
      auto.
    + set (st1 := {| visited := <[idx op := true]> (visited st);
                     stack := stack st ++ [op];
                     visit_path := visit_path st ++ [op] |}).
      destruct (IH st1) as (new & st' & Hp & Hs & Hv & Hnew & Hnd & Hc' & Hm & Ht & Hcnt).
      { apply covers_insert, Hc. }
      { intros q Hq; apply Hg; in_list. }
      assert (forall q, q ∈ new -> idx q <> idx op) as Hne.
      { intros q Hq Heq. destruct (Hnew q Hq) as [_ Hf].
        cbn in Hf. rewrite Heq, lookup_insert_eq in Hf. discriminate. }
      exists (op :: new), st'. cbn in Hs, Hv.
      split; [exact Hp|].
      split; [rewrite Hs, <- app_assoc; reflexivity|].
      split; [rewrite Hv, <- app_assoc; reflexivity|].
      split.
      { intros q Hq. apply elem_of_cons in Hq as [->|Hq].
        - split; [in_list|exact Hb].
        - destruct (Hnew q Hq) as [Hin Hf]. split; [in_list|].
          cbn in Hf. rewrite lookup_insert_ne in Hf; [exact Hf|].
          intros Heq. apply (Hne q Hq). symmetry. exact Heq. }
      split.
      { cbn. constructor; [|exact Hnd].
        intros Hin. apply list_elem_of_fmap in Hin as (q & Heq & Hq).
        apply (Hne q Hq). symmetry. exact Heq. }
      split; [exact Hc'|].
      split.
      { intros k Hk. apply Hm. cbn.
        destruct (decide (idx op = k)) as [->|Hk'].
        - apply lookup_insert_eq.
        - rewrite lookup_insert_ne by exact Hk'. exact Hk. }
      split.
      { intros q Hq. apply elem_of_cons in Hq as [->|Hq]; [|auto].
        apply Hm. cbn. apply lookup_insert_eq. }
      cbn in Hcnt |- *.
      pose proof (unvisited_count_mark (visited st) (idx op) Hb). lia.
Qed.

End PushUnvisited.

Section SearchInvariant.

Variable graph : Program.

(** Pushing the still unvisited operators of [next] keeps the invariant. *)
Lemma push_unvisited_inv (next : list Op) (st : Search) :
  core_inv graph st ->
  (forall op, op ∈ next -> op ∈ ops graph /\ is_bwd_op op = false) ->
  exists (new : list Op) (st' : Search),
    push_unvisited next st = Ok st' /\
    core_inv graph st' /\
    stack st' = stack st ++ new /\
    visit_path st' = visit_path st ++ new /\
    (forall op, op ∈ new -> op ∈ next) /\
    unvisited_count (visited st') + length new = unvisited_count (visited st).
Proof.
  intros (Hc & Hvis & Hnd & Hpath) Hnext.
  destruct (push_unvisited_spec graph next st Hc)
    as (new & st' & Hp & Hs & Hv & Hnew & Hndn & Hc' & Hm & Ht & Hcnt);
    [intros op Hop; apply Hnext, Hop|].
  exists new, st'. split; [exact Hp|]. split; [|split; [exact Hs|]].
  - split; [exact Hc'|]. rewrite Hv. split; [|split].
    + intros op Hop. apply elem_of_app in Hop as [Hop|Hop]; auto.
    + rewrite fmap_app. apply NoDup_app. split; [exact Hnd|]. split; [|exact Hndn].
      intros k Hk Hk'.
      apply list_elem_of_fmap in Hk as (p & -> & Hp').
      apply list_elem_of_fmap in Hk' as (q & Heq & Hq).
      destruct (Hnew q Hq) as [_ Hf]. rewrite <- Heq in Hf.
      rewrite (Hvis p Hp') in Hf. discriminate.
    + intros op Hop. apply elem_of_app in Hop as [Hop|Hop]; [auto|].
      apply Hnext. apply Hnew, Hop.
  - split; [exact Hv|]. split; [|exact Hcnt].
    intros op Hop. apply Hnew, Hop.
Qed.

(** Marking an operator visited keeps the invariant and does not raise
    the number of unvisited operators. *)
Lemma mark_visited_inv (k : nat) (st : Search) :
  core_inv graph st ->
  core_inv graph {| visited := <[k := true]> (visited st);
                    stack := stack st; visit_path := visit_path st |}.
Proof.
  intros (Hc & Hvis & Hnd & Hpath). cbn.
  split; [apply covers_insert, Hc|]. split; [|split; assumption].
  intros op Hop. cbn. destruct (decide (k = idx op)) as [->|Hne].
  - apply lookup_insert_eq.
  - rewrite lookup_insert_ne by exact Hne. auto.
Qed.

Lemma pop_inv (st : Search) (rest : list Op) :
  core_inv graph st ->
  core_inv graph {| visited := visited st; stack := rest;
                    visit_path := visit_path st |}.
Proof. intros H. exact H. Qed.

End SearchInvariant.

Section SearchStart.

Variable graph : Program.

Lemma fresh_visited_covers : covers graph (fresh_visited graph).
Proof.
  intros op Hop. apply not_eq_None_Some. intros Hnone.
  apply not_elem_of_list_to_map in Hnone. apply Hnone.
  rewrite <- list_fmap_compose. apply list_elem_of_fmap. exists op. auto.
Qed.

Lemma size_list_to_map_le {A} (l : list (nat * A)) :
  size (list_to_map l : gmap nat A) <= length l.
Proof.
  induction l as [|[k a] l IH]; cbn; [rewrite map_size_empty; lia|].
  rewrite map_size_insert. destruct (_ !! k); cbn; lia.
Qed.

Lemma fresh_visited_count : unvisited_count (fresh_visited graph) <= length (ops graph).
Proof.
  unfold unvisited_count, fresh_visited.
  etransitivity; [apply map_size_filter|].
  etransitivity; [apply size_list_to_map_le|].
  rewrite length_fmap. reflexivity.
Qed.

Lemma start_from_var_spec (name : string) (l : list Op) (st : Search)
    (acc : list Op) (N : nat) :
  core_inv graph st ->
  stack st = visit_path st ->
  search_measure st <= N ->
  (forall q, q ∈ visit_path st -> exists s, s ∈ acc /\ q ∈ next_ops graph s) ->
  exists st',
    start_from_var graph name l st = Ok st' /\
    core_inv graph st' /\
    stack st' = visit_path st' /\
    search_measure st' <= N /\
    (forall q, q ∈ visit_path st' ->
       exists s,
         s ∈ acc ++ List.filter
               (fun op => negb (is_bwd_op op) && bool_decide (name ∈ all_inputs op)) l /\
         q ∈ next_ops graph s).
Proof.
  revert st acc. induction l as [|op l IH]; intros st acc Hinv Hst Hm Hacc.
  - exists st. cbn. rewrite app_nil_r. auto.
  - cbn [start_from_var List.filter].
    destruct (negb (is_bwd_op op) && bool_decide (name ∈ all_inputs op)) eqn:Hcond.
    + destruct (get_next_unvisited_op_ok graph (visited st) op) as (next & Hnext & Hin);
        [apply Hinv|].
      rewrite Hnext. cbn [rbind].
      set (st1 := {| visited := <[idx op := true]> (visited st);
                     stack := stack st; visit_path := visit_path st |}).
      destruct (push_unvisited_inv graph next st1) as (new & st2 & Hp & Hinv2 & Hs2 & Hv2 & Hnew & Hcnt).
      { apply mark_visited_inv, Hinv. }
      { intros q Hq. destruct (Hin q Hq) as (_ & ? & ?). auto. }
      rewrite Hp. cbn [rbind].
      destruct (IH st2 (acc ++ [op])) as (st' & Hr & Hinv' & Hst' & Hm' & Hacc').
      { exact Hinv2. }
      { rewrite Hs2, Hv2. cbn. rewrite Hst. reflexivity. }
      { unfold search_measure in *. rewrite Hs2, length_app. cbn in Hcnt |- *.
        pose proof (unvisited_count_mark_le (visited st) (idx op)). lia. }
      { intros q Hq. rewrite Hv2 in Hq. cbn in Hq.
        apply elem_of_app in Hq as [Hq|Hq].
        - destruct (Hacc q Hq) as (s & Hs & Hqs). exists s. split; [in_list|exact Hqs].
        - exists op. split; [in_list|]. apply Hin, Hnew, Hq. }
      exists st'. rewrite <- app_assoc in Hacc'. auto.
    + apply IH; assumption.
Qed.

(** The state in which the while loop is entered. *)
Lemma search_start_spec (node : Node) :
  exists st0,
    search_start graph node = Ok st0 /\
    core_inv graph st0 /\
    stack st0 = visit_path st0 /\
    search_measure st0 <= length (ops graph) /\
    (forall q, q ∈ visit_path st0 ->
       exists s, s ∈ start_ops graph node /\ q ∈ next_ops graph s).
Proof.
  set (st := {| visited := fresh_visited graph; stack := []; visit_path := [] |}).
  assert (core_inv graph st) as Hinv.
  { split; [apply fresh_visited_covers|]. cbn.
    split; [intros ? H; apply elem_of_nil in H; contradiction|].
    split; [constructor|intros ? H; apply elem_of_nil in H; contradiction]. }
  assert (search_measure st <= length (ops graph)) as Hm
    by (unfold search_measure; cbn; apply fresh_visited_count).
  unfold search_start. fold (fresh_visited graph). fold st. destruct node as [name|op].
  - destruct (start_from_var_spec name (ops graph) st [] (length (ops graph)))
      as (st' & Hr & ? & ? & ? & ?); auto.
    { intros ? H; apply elem_of_nil in H; contradiction. }
    exists st'. auto.
  - destruct (get_next_unvisited_op_ok graph (visited st) op) as (next & Hnext & Hin);
      [apply Hinv|].
    rewrite Hnext. cbn [rbind].
    destruct (push_unvisited_inv graph next st Hinv)
      as (new & st' & Hp & Hinv' & Hs & Hv & Hnew & Hcnt).
    { intros q Hq. destruct (Hin q Hq) as (_ & ? & ?). auto. }
    exists st'. split; [exact Hp|]. split; [exact Hinv'|].
    split; [rewrite Hs, Hv; reflexivity|].
    split.
    + unfold search_measure in *. rewrite Hs, length_app. cbn in *. lia.
    + intros q Hq. rewrite Hv in Hq. cbn in Hq. exists op.
      split; [cbn; in_list|]. apply Hin, Hnew, Hq.
Qed.

End SearchStart.

Section SearchLoop.

Variables (graph : Program) (init : list Op).

Lemma drop_cons_inv {A} (l : list A) (j : nat) (x : A) (rest : list A) :
  drop j l = x :: rest -> l !! j = Some x /\ rest = drop (S j) l.
Proof.
  intros H.
  assert (l !! j = Some x) as Hx.
  { rewrite <- (Nat.add_0_r j), <- lookup_drop, H. reflexivity. }
  split; [exact Hx|].
  rewrite (drop_S _ _ _ Hx) in H. congruence.
Qed.

Lemma search_step_spec (j : nat) (st : Search) (top_op : Op) (rest : list Op) :
  loop_inv graph init j st ->
  stack st = top_op :: rest ->
  exists st',
    search_step graph top_op
      {| visited := visited st; stack := rest; visit_path := visit_path st |}
    = Ok st' /\
    loop_inv graph init (S j) st' /\
    visit_path st `prefix_of` visit_path st' /\
    S (search_measure st') = search_measure st.
Proof.
  intros (Hcore & Hstack & Hreach & Hpre) Htop.
  rewrite Htop in Hstack. symmetry in Hstack.
  apply drop_cons_inv in Hstack as [Hlook Hrest].
  assert (top_op ∈ visit_path st) as Hin by (eapply list_elem_of_lookup_2; eauto).
  assert (S j <= length (visit_path st)) as Hlen
    by (apply lookup_lt_Some in Hlook; lia).
  set (st1 := {| visited := visited st; stack := rest; visit_path := visit_path st |}).
  unfold search_step. destruct (is_boundary (type top_op)) eqn:Hb.
  - exists st1. split; [reflexivity|]. split.
    + split; [exact Hcore|]. split; [exact Hrest|]. split; assumption.
    + split; [reflexivity|]. unfold search_measure. rewrite Htop. cbn. lia.
  - destruct (get_next_unvisited_op_ok graph (visited st1) top_op) as (next & Hnext & Hnin);
      [apply Hcore|].
    rewrite Hnext. cbn [rbind].
    destruct (push_unvisited_inv graph next st1) as (new & st2 & Hp & Hinv2 & Hs2 & Hv2 & Hnew & Hcnt).
    { apply Hcore. }
    { intros q Hq. destruct (Hnin q Hq) as (_ & ? & ?). auto. }
    exists st2. split; [exact Hp|]. cbn in Hs2, Hv2, Hcnt. split.
    + split; [exact Hinv2|]. split.
      { rewrite Hs2, Hv2, Hrest. symmetry. apply drop_app_le. exact Hlen. }
      split.
      { intros op Hop. rewrite Hv2 in Hop |- *.
        apply elem_of_app in Hop as [Hop|Hop].
        - destruct (Hreach op Hop) as [?|(p & Hp' & ? & ?)]; [left; assumption|].
          right. exists p. split; [in_list|auto].
        - right. exists top_op. split; [in_list|]. split; [exact Hb|].
          apply Hnin, Hnew, Hop. }
      rewrite Hv2. etransitivity; [exact Hpre|]. apply prefix_app_r. reflexivity.
    + split; [rewrite Hv2; apply prefix_app_r; reflexivity|].
      unfold search_measure. rewrite Hs2, Htop, length_app. cbn. lia.
Qed.

(** The while loop: it never fails, keeps the invariant, only appends to
    the path, and has emptied the worklist when given enough fuel. *)
Lemma search_loop_spec (fuel j : nat) (st : Search) :
  loop_inv graph init j st ->
  exists st',
    search_loop fuel graph st = Ok st' /\
    loop_inv graph init (j + fuel) st' /\
    visit_path st `prefix_of` visit_path st' /\
    (search_measure st <= fuel -> stack st' = []).
Proof.
  revert j st. induction fuel as [|fuel IH]; intros j st Hinv.
  - exists st. cbn. rewrite Nat.add_0_r. split; [reflexivity|].
    split; [exact Hinv|]. split; [reflexivity|].
    unfold search_measure. intros H. apply length_zero_iff_nil. lia.
  - cbn [search_loop]. destruct (stack st) as [|top_op rest] eqn:Hst.
    + exists st. split; [reflexivity|]. split.
      * destruct Hinv as (Hcore & Hstack & Hreach & Hpre).
        split; [exact Hcore|]. split; [|split; assumption].
        rewrite Hst. symmetry. apply drop_ge.
        rewrite Hst in Hstack. symmetry in Hstack.
        apply drop_nil_inv in Hstack. lia.
      * split; [reflexivity|auto].
    + destruct (search_step_spec j st top_op rest Hinv Hst)
        as (st1 & Hstep & Hinv1 & Hpre1 & Hm1).
      rewrite Hstep. cbn [rbind].
      destruct (IH (S j) st1 Hinv1) as (st' & Hloop & Hinv' & Hpre' & Hdone).
      exists st'. split; [exact Hloop|].
      replace (j + S fuel) with (S j + fuel) by lia.
      split; [exact Hinv'|]. split; [etransitivity; eassumption|].
      intros Hm. apply Hdone. lia.
Qed.

End SearchLoop.

Section SearchRun.

Variable graph : Program.

Lemma search_loop_done (fuel : nat) (st : Search) :
  stack st = [] -> search_loop fuel graph st = Ok st.
Proof. intros H. destruct fuel; cbn; [|rewrite H]; reflexivity. Qed.

Lemma search_loop_add (a b : nat) (st : Search) :
  search_loop (a + b) graph st
  = let? st' := search_loop a graph st in search_loop b graph st'.
Proof.
  revert st. induction a as [|a IH]; intros st; [reflexivity|].
  cbn [Nat.add search_loop]. destruct (stack st) eqn:Hst.
  - cbn [rbind]. symmetry. apply search_loop_done, Hst.
  - destruct (search_step graph _ _); cbn [rbind]; [apply IH|reflexivity].
Qed.

(** The search from [node], as a whole. *)
Lemma search_run_spec (node : Node) :
  exists st,
    search_run graph node = Ok st /\
    stack st = [] /\
    core_inv graph st /\
    (forall op, op ∈ visit_path st ->
       (exists s, s ∈ start_ops graph node /\ op ∈ next_ops graph s) \/
       (exists p, p ∈ visit_path st /\ is_boundary (type p) = false /\
                  op ∈ next_ops graph p)) /\
    (forall k, exists st_k,
       (let? st0 := search_start graph node in search_loop k graph st0) = Ok st_k /\
       stack st_k = drop k (visit_path st_k) /\
       visit_path st_k `prefix_of` visit_path st).
Proof.
  destruct (search_start_spec graph node) as (st0 & Hstart & Hcore0 & Hst0 & Hm0 & Hinit).
  assert (loop_inv graph (visit_path st0) 0 st0) as Hinv0.
  { split; [exact Hcore0|]. split; [exact Hst0|]. split; [auto|reflexivity]. }
  destruct (search_loop_spec graph (visit_path st0) (length (ops graph)) 0 st0 Hinv0)
    as (st & Hloop & Hinv & Hpre & Hdone).
  exists st. unfold search_run. rewrite Hstart. cbn [rbind].
  split; [exact Hloop|]. split; [auto|].
  destruct Hinv as (Hcore & _ & Hreach & _).
  split; [exact Hcore|]. split.
  - intros op Hop. destruct (Hreach op Hop) as [Hi|?]; [left; auto|right; assumption].
  - intros k.
    destruct (search_loop_spec graph (visit_path st0) k 0 st0 Hinv0)
      as (st_k & Hk & Hinvk & _ & _).
    exists st_k. split; [exact Hk|].
    split; [destruct Hinvk as (_ & Hstk & _); exact Hstk|].
    destruct (Nat.le_gt_cases k (length (ops graph))) as [Hle|Hgt].
    + replace (length (ops graph)) with (k + (length (ops graph) - k)) in Hloop by lia.
      rewrite search_loop_add, Hk in Hloop. cbn [rbind] in Hloop.
      destruct (search_loop_spec graph (visit_path st0)
                  (length (ops graph) - k) (0 + k) st_k Hinvk)
        as (st' & Hloop' & _ & Hpre' & _).
      rewrite Hloop in Hloop'. injection Hloop' as <-. exact Hpre'.
    + replace k with (length (ops graph) + (k - length (ops graph))) in Hk by lia.
      rewrite search_loop_add, Hloop in Hk. cbn [rbind] in Hk.
      rewrite search_loop_done in Hk by auto. injection Hk as <-. reflexivity.
Qed.

End SearchRun.

(** ** The forward search: the claim *)

(** C3 (as amended): for every graph and start node (a tensor or an
    operator) the forward search returns a list of operators.  Every operator
    of the list is an operator of the graph and no backward-pass operator;
    no operator identity occurs twice in the list; the loop ends with an
    empty worklist within as many iterations as the graph has operators
    (running it longer changes nothing); the worklist is served
    first in, first out: after [k] iterations of the loop the worklist is the
    path found so far without its first [k] entries, and that path is a
    prefix of the list returned; and every operator of the list consumes an
    output of a start operator or of a listed operator that is not of a
    boundary type (conv2d, deformable_conv, mul, concat), so the search never
    goes on past a listed boundary operator.  Optimizer operators are not
    left out, and the start operators are expanded whatever their type. *)
Theorem forward_search_related_op_spec (graph : Program) (node : Node) :
  exists r,
    _forward_search_related_op graph node = Ok r /\
    (forall op, op ∈ r -> op ∈ ops graph /\ is_bwd_op op = false) /\
    NoDup (idx <$> r) /\
    (forall fuel, length (ops graph) <= fuel ->
       exists st,
         (let? st0 := search_start graph node in search_loop fuel graph st0) = Ok st /\
         stack st = [] /\ visit_path st = r) /\
    (forall k, exists st_k,
       (let? st0 := search_start graph node in search_loop k graph st0) = Ok st_k /\
       stack st_k = drop k (visit_path st_k) /\
       visit_path st_k `prefix_of` r) /\
    (forall op, op ∈ r ->
       (exists s, s ∈ start_ops graph node /\ op ∈ next_ops graph s) \/
       (exists p, p ∈ r /\ is_boundary (type p) = false /\ op ∈ next_ops graph p)).
Proof.
  destruct (search_run_spec graph node) as (st & Hrun & Hempty & Hinv & Hreach & Hfifo).
  destruct Hinv as (_ & _ & Hnodup & Hops).
  exists (visit_path st).
  unfold _forward_search_related_op. rewrite Hrun. simpl.
  split; [reflexivity|]. split; [exact Hops|]. split; [exact Hnodup|].
  split; [|split; [exact Hfifo | exact Hreach]].
  intros fuel Hfuel. exists st.
  split; [|split; [exact Hempty | reflexivity]].
  unfold search_run in Hrun.
  destruct (search_start graph node) as [st0|e]; [|discriminate].
  cbn [rbind] in *.
  replace fuel with (length (ops graph) + (fuel - length (ops graph))) by lia.
  rewrite search_loop_add, Hrun. cbn [rbind].
  apply search_loop_done, Hempty.
Qed.

(** C3, the claim as worded fails: the search from [w] in [decay_net]
    returns the optimizer operator. *)
Lemma forward_search_reaches_optimizer_op :
  exists r op,
    _forward_search_related_op decay_net (VarNode "w") = Ok r /\
    op ∈ r /\ is_opt_op op = true.
Proof.
  eexists _, _. split; [vm_compute; reflexivity|].
  split; [apply list_elem_of_here | reflexivity].
Qed.

(** ** Frames: what a computation of the pruner leaves as it is *)

#[global] Instance same_programs_except_preorder (g : nat) :
  PreOrder (same_programs_except g).
Proof.
  split.
  - intros s. split; auto.
  - intros s1 s2 s3 [H1 H2] [H3 H4]. split; [congruence|].
    intros g' Hne. rewrite H4, H2; auto.
Qed.

#[global] Instance registry_grows_preorder : PreOrder registry_grows.
Proof.
  split.
  - intros s axis l x Hl Hx. eauto.
  - intros s1 s2 s3 H1 H2 axis l x Hl Hx.
    destruct (H1 _ _ _ Hl Hx) as (l' & Hl' & Hx'). eauto.
Qed.

Section Respects.

Context (R : State -> State -> Prop) `{!PreOrder R}.

Lemma respects_ret {A} (a : A) : respects R (ret a).
Proof. intros s. reflexivity. Qed.

Lemma respects_raise {A} (e : Exn) : respects R (raise (A:=A) e).
Proof. intros s. reflexivity. Qed.

Lemma respects_liftR {A} (r : Result A) : respects R (liftR r).
Proof. intros s. reflexivity. Qed.

Lemma respects_gets {A} (f : State -> A) : respects R (gets f).
Proof. intros s. reflexivity. Qed.

Lemma respects_bind {A B} (m : M A) (k : A -> M B) :
respects R m -> (forall a, respects R (k a)) -> respects R (bind m k).
Proof.
intros Hm Hk s. unfold bind. specialize (Hm s).
destruct (m s) as [[a|e] s1]; simpl in *; auto.
transitivity s1; [exact Hm | apply Hk].
Qed.

Lemma respects_graph_at (g : nat) : respects R (graph_at g).
Proof. intros s. unfold graph_at. destruct (programs s !! g); reflexivity. Qed.

Lemma respects_find_tensor (name : string) : respects R (find_tensor name).
Proof. intros s. unfold find_tensor. destruct (scope s !! name); reflexivity. Qed.

Lemma respects_for_each {A} (l : list A) (body : A -> M unit) :
(forall x, respects R (body x)) -> respects R (for_each l body).
Proof.
intros Hb. induction l as [|x l IH]; simpl.
- apply respects_ret; exact _.
- apply respects_bind; auto.
Qed.

Lemma respects_for_fold {A L} (l : list A) (local : L) (body : A -> L -> M L) :
(forall x c, respects R (body x c)) -> respects R (for_fold l local body).
Proof.
intros Hb. revert local. induction l as [|x l IH]; intros local; simpl.
- apply respects_ret; exact _.
- apply respects_bind; auto.
Qed.

End Respects.

(** The steps that settle [respects] for a body written with the notations
    of the monad. *)
Ltac frame_step :=
  match goal with
  | |- respects _ (bind _ _) => apply respects_bind; [exact _ | | intros]
  | |- respects _ (ret _) => apply respects_ret; exact _
  | |- respects _ (raise _) => apply respects_raise; exact _
  | |- respects _ (liftR _) => apply respects_liftR; exact _
  | |- respects _ (gets _) => apply respects_gets; exact _
  | |- respects _ (graph_at _) => apply respects_graph_at; exact _
  | |- respects _ (find_tensor _) => apply respects_find_tensor; exact _
  | |- respects _ (for_each _ _) => apply respects_for_each; [exact _ | intros]
  | |- respects _ (for_fold _ _ _) => apply respects_for_fold; [exact _ | intros]
  | |- respects _ (if ?b then _ else _) => destruct b
  | |- respects _ (match ?x with _ => _ end) => destruct x
  | |- respects _ (let (_, _) := ?x in _) => destruct x
  end.

Ltac frame := repeat first [frame_step | assumption | solve [auto]].

(** The functions under [_prune_parameters] respect every preorder that the
    writes they are made of respect. *)
Section FrameOfPruner.

Context (R : State -> State -> Prop) `{!PreOrder R}.
Variable g : nat.
Hypothesis update_graph_ok : forall f, respects R (update_graph g f).
Hypothesis tensor_set_ok : forall name t, respects R (tensor_set name t).
Hypothesis pruned_list_append_ok :
forall axis name, respects R (pruned_list_append axis name).
Hypothesis backup_value_ok : forall name b, respects R (backup_value name b).
Hypothesis backup_shape_ok : forall name sh, respects R (backup_shape name sh).
Hypothesis logger_ok : forall r, respects R (logger r).

Lemma respects_var_shape_of (name : string) : respects R (var_shape_of g name).
Proof. unfold var_shape_of. frame. Qed.

Lemma respects_var_set_shape (name : string) (sh : list Z) :
respects R (var_set_shape g name sh).
Proof. unfold var_set_shape. frame. Qed.

Lemma respects_in_pruned_list (name : string) (axis : nat) :
respects R (in_pruned_list name axis).
Proof. unfold in_pruned_list. frame. Qed.

Local Hint Resolve respects_var_shape_of respects_var_set_shape
respects_in_pruned_list : core.

Lemma respects_prune_filters_by_ratio (self : Pruner) (params : list string)
  (ratio : Q) (lazy only_graph : bool) :
respects R (_prune_filters_by_ratio self g params ratio lazy only_graph).
Proof. unfold _prune_filters_by_ratio. frame. Qed.

Lemma respects_prune_parameter_by_idx (params : list string)
  (pruned_idx : list Z) (pruned_axis : nat) (lazy only_graph : bool) :
respects R (_prune_parameter_by_idx g params pruned_idx pruned_axis lazy only_graph).
Proof. unfold _prune_parameter_by_idx. frame. Qed.

Local Hint Resolve respects_prune_filters_by_ratio
respects_prune_parameter_by_idx : core.

Lemma respects_prune_with_accumulators (param : option string)
  (pruned_idx : list Z) (pruned_axis : nat) (lazy only_graph : bool) :
respects R (prune_with_accumulators g param pruned_idx pruned_axis lazy only_graph).
Proof. unfold prune_with_accumulators. frame. Qed.

Local Hint Resolve respects_prune_with_accumulators : core.

Lemma respects_prune_parameter_inputs (op : Op) (pruned_idx : list Z)
  (pruned_axis : nat) (lazy only_graph : bool) :
respects R (prune_parameter_inputs g op pruned_idx pruned_axis lazy only_graph).
Proof. unfold prune_parameter_inputs. frame. Qed.

Local Hint Resolve respects_prune_parameter_inputs : core.

Lemma respects_prune_ops (depth : nat) (ops : list Op) (pruned_idxs : list Z)
  (lazy only_graph : bool) :
respects R (_prune_ops depth g ops pruned_idxs lazy only_graph).
Proof.
revert ops pruned_idxs.
induction depth as [|depth IH]; intros ops pruned_idxs; simpl.
- frame.
- unfold prune_op. frame.
Qed.

Local Hint Resolve respects_prune_ops : core.

Lemma respects_forward_pruning_ralated_params (self : Pruner)
  (param : option string) (ratio : option Q) (pruned_idxs : option (list Z))
  (lazy only_graph : bool) :
respects R
  (_forward_pruning_ralated_params self g param ratio pruned_idxs lazy only_graph).
Proof. unfold _forward_pruning_ralated_params. frame. Qed.

Local Hint Resolve respects_forward_pruning_ralated_params : core.

(** The loop of [_prune_parameters], behind the reset of the registry. *)
Lemma respects_prune_parameters_loop (self : Pruner) (l : list (string * Q))
  (lazy only_graph : bool) (body : string * Q -> M unit) :
body = (fun pr =>
  let* skip := in_pruned_list (fst pr) 0 in
  if skip then logger (InfoSkip (fst pr))
  else
    bind (logger (InfoPruning (fst pr))) (fun _ =>
    let* gr := graph_at g in
    bind (_forward_pruning_ralated_params self g (var_handle gr (fst pr))
            (Some (snd pr)) None lazy only_graph) (fun _ =>
    let* gr := graph_at g in
    for_each (outputs gr (fst pr)) (fun op =>
      if bool_decide (type op ∈ ["conv2d"; "deformable_conv"]) then
        let* gr := graph_at g in
        let* brother_ops := liftR (_search_brother_ops gr op) in
        for_each brother_ops (fun broher =>
          let* gr := graph_at g in
          let* ps := liftR (get_param_by_op gr broher) in
          for_each ps (fun p =>
            _forward_pruning_ralated_params self g (Some p) (Some (snd pr)) None
              lazy only_graph))
      else ret tt)))) ->
respects R (for_each l body).
Proof. intros ->. frame. Qed.

End FrameOfPruner.

(** *** Program objects *)

Section ProgramFrame.

Variable g : nat.

Lemma modify_keeps_programs (f : State -> State) :
(forall s, programs (f s) = programs s) ->
respects (same_programs_except g) (modify f).
Proof. intros Hf s. simpl. split; rewrite Hf; auto. Qed.

Lemma update_graph_touches_only (f : Program -> Program) :
respects (same_programs_except g) (update_graph g f).
Proof.
intros s. simpl. split.
- apply length_alter.
- intros g' Hne. apply list_lookup_alter_ne. auto.
Qed.

Lemma pruned_list_append_keeps_programs (axis : nat) (name : string) :
respects (same_programs_except g) (pruned_list_append axis name).
Proof.
unfold pruned_list_append. frame. apply modify_keeps_programs. reflexivity.
Qed.

Lemma prune_parameters_touches_only (self : Pruner) (params : list string)
  (ratios : list Q) (lazy only_graph : bool) :
respects (same_programs_except g)
  (_prune_parameters self g params ratios lazy only_graph).
Proof.
unfold _prune_parameters.
destruct (negb _); [frame|].
apply respects_bind; [exact _ | apply modify_keeps_programs; reflexivity |].
intros _.
eapply respects_prune_parameters_loop; try reflexivity; try apply _;
  intros; first [ apply update_graph_touches_only
                | apply pruned_list_append_keeps_programs
                | apply modify_keeps_programs; reflexivity ].
Qed.

Lemma fix_groups_touches_only (pos : nat) :
respects (same_programs_except g) (fix_groups g pos).
Proof.
unfold fix_groups. frame. apply update_graph_touches_only.
Qed.

End ProgramFrame.


(** *** The registry *)

Lemma modify_keeps_registry (f : State -> State) :
  (forall s, pruned_list (f s) = pruned_list s) ->
  respects registry_grows (modify f).
Proof. intros Hf s axis l x Hl Hx. simpl. rewrite Hf. eauto. Qed.

Lemma pruned_list_append_grows (axis : nat) (name : string) :
  respects registry_grows (pruned_list_append axis name).
Proof.
  intros s axis' l x Hl Hx.
  unfold pruned_list_append, bind, gets, liftR, list_update, modify.
  destruct (bool_decide _); simpl; [|eauto].
  rewrite list_lookup_alter.
  destruct (decide (axis = axis')) as [->|Hne].
  - rewrite Hl. simpl. exists (l ++ [name]). split; [auto|].
    apply elem_of_app. auto.
  - eauto.
Qed.

Section RegistryFrame.

Variable g : nat.

Lemma prune_parameter_by_idx_grows (params : list string) (pruned_idx : list Z)
  (pruned_axis : nat) (lazy only_graph : bool) :
respects registry_grows
  (_prune_parameter_by_idx g params pruned_idx pruned_axis lazy only_graph).
Proof.
apply respects_prune_parameter_by_idx; try exact _; intros;
  first [ apply pruned_list_append_grows
        | apply modify_keeps_registry; reflexivity ].
Qed.

Lemma prune_ops_grows (depth : nat) (ops : list Op) (pruned_idxs : list Z)
  (lazy only_graph : bool) :
respects registry_grows (_prune_ops depth g ops pruned_idxs lazy only_graph).
Proof.
apply respects_prune_ops; try exact _; intros;
  first [ apply pruned_list_append_grows
        | apply modify_keeps_registry; reflexivity ].
Qed.

Lemma forward_pruning_ralated_params_grows (self : Pruner)
  (param : option string) (ratio : option Q) (pruned_idxs : option (list Z))
  (lazy only_graph : bool) :
respects registry_grows
  (_forward_pruning_ralated_params self g param ratio pruned_idxs lazy only_graph).
Proof.
apply respects_forward_pruning_ralated_params; try exact _; intros;
  first [ apply pruned_list_append_grows
        | apply modify_keeps_registry; reflexivity ].
Qed.

End RegistryFrame.

(** ** The caller's program is left alone *)

Lemma bind_run {A B} (m : M A) (k : A -> M B) (s : State) :
  bind m k s = match m s with
               | (Ok a, s') => k a s'
               | (Raise e, s') => (Raise e, s')
               end.
Proof. reflexivity. Qed.

Lemma clone_run (program : nat) (s : State) :
  clone program s =
  match programs s !! program with
  | Some p => (Ok (length (programs s)), set_programs (fun ps => ps ++ [p]) s)
  | None => (Raise AttributeError, s)
  end.
Proof.
  unfold clone, bind, graph_at. destruct (programs s !! program); reflexivity.
Qed.

(** A call that returns hands back its last [ret]. *)
Lemma bind_ok_inv {A B} (m : M A) (k : A -> M B) (s s' : State) (b : B) :
  bind m k s = (Ok b, s') -> exists a s1, m s = (Ok a, s1) /\ k a s1 = (Ok b, s').
Proof.
  rewrite bind_run. destruct (m s) as [[a|e] s1]; [eauto | discriminate].
Qed.

(** C10: for every call to [prune], whatever the arguments and the state and
    whether the call returns or raises, every program object that existed
    before the call (the caller's program among them) is afterwards what it
    was before; a call that returns gives back the handle of a program
    object that did not exist before, the clone of the caller's program made
    at the start, and every write to a graph or a shape goes to that object.
    Of the caller's data only the scope (and the pruner's own registry, the
    backups and the log) can differ afterwards. *)
Theorem prune_leaves_program_unchanged (self : Pruner) (program : nat)
    (params : list string) (ratios : list Q) (lazy only_graph : bool)
    (want_param_backup want_param_shape_backup : bool) (s : State) :
  let (r, s') := prune self program params ratios lazy only_graph
                   want_param_backup want_param_shape_backup s in
  (forall g, g < length (programs s) -> programs s' !! g = programs s !! g) /\
  (forall graph pb psb, r = Ok (graph, pb, psb) ->
     graph = length (programs s) /\
     is_Some (programs s !! program) /\
     is_Some (programs s' !! graph) /\
     length (programs s') = S (length (programs s))).
Proof.
  unfold prune. rewrite bind_run. cbn [modify].
  rewrite bind_run, clone_run. cbn [set_pruned_list programs].
  destruct (programs s !! program) as [p|] eqn:Hp.
  2:{ split; [auto | intros; discriminate]. }
  rewrite bind_run. cbn [modify]. rewrite bind_run. cbn [modify].
  set (n := length (programs s)).
  match goal with |- (let (_, _) := ?m ?st in _) => set (s1 := st); set (rest := m) end.
  assert (Hs1 : programs s1 = programs s ++ [p]) by reflexivity.
  assert (Hrest : respects (same_programs_except n) rest).
  { subst rest.
    apply respects_bind; [exact _ | apply prune_parameters_touches_only | intros _].
    apply respects_bind; [exact _ | apply respects_graph_at; exact _ | intros gr].
    apply respects_bind; [exact _ | | intros _; frame].
    apply respects_for_each; [exact _ | intros pos].
    apply fix_groups_touches_only. }
  specialize (Hrest s1).
  destruct (rest s1) as [r s'] eqn:Hrun.
  simpl in Hrest. destruct Hrest as [Hlen Hframe].
  rewrite Hs1 in Hlen, Hframe. rewrite length_app in Hlen. simpl in Hlen.
  split.
  - intros g Hg. rewrite Hframe by (unfold n; lia).
    apply lookup_app_l. exact Hg.
  - intros graph pb psb Hr. subst r.
    assert (graph = n) as ->.
    { subst rest.
      apply bind_ok_inv in Hrun as (? & ? & _ & Hrun).
      apply bind_ok_inv in Hrun as (? & ? & _ & Hrun).
      apply bind_ok_inv in Hrun as (? & ? & _ & Hrun).
      apply bind_ok_inv in Hrun as (? & ? & _ & Hrun).
      apply bind_ok_inv in Hrun as (? & ? & _ & Hrun).
      inversion Hrun. reflexivity. }
    split; [reflexivity|]. split; [eauto|].
    split; [apply lookup_lt_is_Some; unfold n in *; lia | unfold n in *; lia].
Qed.

(** ** The post-pass over the depthwise convolutions *)

Lemma liftR_ok_inv {A} (r : Result A) (s s' : State) (a : A) :
  liftR r s = (Ok a, s') -> r = Ok a /\ s' = s.
Proof. unfold liftR. intros [= -> ->]. auto. Qed.

Lemma graph_at_ok_inv (g : nat) (s s' : State) (gr : Program) :
  graph_at g s = (Ok gr, s') -> programs s !! g = Some gr /\ s' = s.
Proof.
  unfold graph_at. destruct (programs s !! g); intros [= <- <-]; auto.
Qed.

Lemma seq_index_ok_inv {A} (l : list A) (i : nat) (a : A) :
  seq_index l i = Ok a -> l !! i = Some a.
Proof. unfold seq_index. destruct (l !! i); intros [= <-]; auto. Qed.

Section PostPass.

Variable g : nat.

Lemma set_attr_groups_ok (gr : Program) (pos : nat) (op : Op) (filter : string)
  (sh : list Z) (n : Z) :
ops gr !! pos = Some op ->
inputs op "Filter" !! 0 = Some filter ->
shape_of gr filter = Ok sh ->
sh !! 0 = Some n ->
forall q, q = pos \/ groups_ok_at gr q ->
          groups_ok_at (set_attr pos "groups" n gr) q.
Proof.
intros Hop Hf Hsh Hn q Hq op' Hop'.
unfold ops, set_attr in Hop'. simpl in Hop'.
destruct (decide (q = pos)) as [->|Hne].
- rewrite list_lookup_alter in Hop'. unfold ops in Hop. rewrite Hop in Hop'.
  rewrite decide_True in Hop' by reflexivity. simpl in Hop'.
  injection Hop' as <-.
  intros _. exists filter, sh, n.
  repeat split; auto. simpl. apply lookup_insert_eq.
- rewrite list_lookup_alter_ne in Hop' by auto.
  destruct Hq as [?|Hq]; [contradiction|].
  intros Hd. destruct (Hq op' Hop' Hd) as (f' & sh' & n' & ? & ? & ? & ?).
  exists f', sh', n'. repeat split; auto.
Qed.

Lemma fix_groups_spec (pos : nat) (s s' : State) (gr : Program) :
programs s !! g = Some gr ->
fix_groups g pos s = (Ok tt, s') ->
exists gr',
  programs s' !! g = Some gr' /\
  length (ops gr') = length (ops gr) /\
  groups_ok_at gr' pos /\
  (forall q, groups_ok_at gr q -> groups_ok_at gr' q).
Proof.
intros Hg Hrun. unfold fix_groups in Hrun.
apply bind_ok_inv in Hrun as (gr0 & s0 & Hgr0 & Hrun).
apply graph_at_ok_inv in Hgr0 as [Hgr0 ->].
assert (gr0 = gr) as -> by congruence.
apply bind_ok_inv in Hrun as (op & s0 & Hop & Hrun).
apply liftR_ok_inv in Hop as [Hop ->]. apply seq_index_ok_inv in Hop.
fold (is_depthwise op) in Hrun.
destruct (is_depthwise op) eqn:Hd.
- apply bind_ok_inv in Hrun as (filter & s0 & Hf & Hrun).
  apply liftR_ok_inv in Hf as [Hf ->]. apply seq_index_ok_inv in Hf.
  apply bind_ok_inv in Hrun as (sh & s0 & Hsh & Hrun).
  apply liftR_ok_inv in Hsh as [Hsh ->].
  apply bind_ok_inv in Hrun as (n & s0 & Hn & Hrun).
  apply liftR_ok_inv in Hn as [Hn ->]. apply seq_index_ok_inv in Hn.
  unfold update_graph, modify in Hrun. injection Hrun as <-.
  exists (set_attr pos "groups" n gr). simpl.
  split; [rewrite list_lookup_alter, decide_True, Hg by reflexivity; reflexivity|].
  split; [apply length_alter|].
  split; [eapply set_attr_groups_ok; eauto|].
  intros q Hq. eapply set_attr_groups_ok; eauto.
- injection Hrun as <-. exists gr.
  split; [auto|]. split; [auto|]. split; [|auto].
  intros op' Hop'. assert (op' = op) as -> by congruence.
  intros Hd'. congruence.
Qed.

Lemma fix_groups_loop (l : list nat) (s s' : State) (gr : Program) :
programs s !! g = Some gr ->
for_each l (fix_groups g) s = (Ok tt, s') ->
exists gr',
  programs s' !! g = Some gr' /\
  length (ops gr') = length (ops gr) /\
  (forall pos, pos ∈ l -> groups_ok_at gr' pos) /\
  (forall q, groups_ok_at gr q -> groups_ok_at gr' q).
Proof.
revert s gr. induction l as [|pos l IH]; intros s gr Hg Hrun; simpl in Hrun.
- injection Hrun as <-. exists gr. repeat split; auto.
  intros pos Hin. inversion Hin.
- apply bind_ok_inv in Hrun as ([] & s1 & Hstep & Hrun).
  destruct (fix_groups_spec _ _ _ _ Hg Hstep) as (gr1 & Hg1 & Hlen1 & Hpos & Hkeep1).
  destruct (IH _ _ Hg1 Hrun) as (gr' & Hg' & Hlen' & Hall & Hkeep).
  exists gr'. split; [auto|]. split; [congruence|]. split; [|auto].
  intros q Hq. apply elem_of_cons in Hq as [->|Hq]; auto.
Qed.

End PostPass.

(** C6: whenever a call to [prune] returns, every depthwise-convolution
    operator (type depthwise_conv2d or depthwise_conv2d_grad) of the program
    it returns has a "groups" attribute, and it equals the axis-0 size the
    first variable of the operator's "Filter" slot has in that program, that
    is, the size after whatever pruning the call has done. *)
Theorem prune_sets_depthwise_groups (self : Pruner) (program : nat)
    (params : list string) (ratios : list Q) (lazy only_graph : bool)
    (want_param_backup want_param_shape_backup : bool) (s s' : State)
    (graph : nat) (pb : option (gmap string Backup))
    (psb : option (gmap string (list Z))) :
  prune self program params ratios lazy only_graph
        want_param_backup want_param_shape_backup s = (Ok (graph, pb, psb), s') ->
  exists gr,
    programs s' !! graph = Some gr /\
    forall op, op ∈ ops gr -> is_depthwise op = true ->
      exists filter sh n,
        inputs op "Filter" !! 0 = Some filter /\
        shape_of gr filter = Ok sh /\
        sh !! 0 = Some n /\
        attrs op !! "groups" = Some n.
Proof.
  intros Hrun. unfold prune in Hrun.
  apply bind_ok_inv in Hrun as (? & s0 & _ & Hrun).
  apply bind_ok_inv in Hrun as (graph0 & s1 & _ & Hrun).
  apply bind_ok_inv in Hrun as (? & s2 & _ & Hrun).
  apply bind_ok_inv in Hrun as (? & s3 & _ & Hrun).
  apply bind_ok_inv in Hrun as (? & s4 & _ & Hrun).
  apply bind_ok_inv in Hrun as (gr4 & s5 & Hgr & Hrun).
  apply graph_at_ok_inv in Hgr as [Hgr ->].
  apply bind_ok_inv in Hrun as ([] & s5 & Hloop & Hrun).
  apply bind_ok_inv in Hrun as (? & s6 & Hpb & Hrun).
  apply bind_ok_inv in Hrun as (? & s7 & Hpsb & Hrun).
  injection Hpb as <- <-. injection Hpsb as <- <-.
  injection Hrun as <- <- <- <-.
  destruct (fix_groups_loop _ _ _ _ _ Hgr Hloop) as (gr' & Hg' & Hlen & Hall & _).
  exists gr'. split; [exact Hg'|].
  intros op Hin Hd.
  apply list_elem_of_lookup_1 in Hin as [pos Hpos]. 
  apply (Hall pos); auto.
  apply elem_of_seq. split; [lia|]. simpl.
  apply lookup_lt_Some in Hpos. unfold ops in *. lia.
Qed.

(** A run whose result is known is the pair of that result and its state. *)
Lemma run_result {A} (m : M A) (s : State) (r : Result A) :
  (m s).1 = r -> m s = (r, (m s).2).
Proof. intros <-. destruct (m s); reflexivity. Qed.

(** C6 at work: pruning half of the four filters of [A.w] in
    [depthwise_net] leaves the depthwise operator with "groups" 2, the
    axis-0 size of the pruned [D.w]. *)
Lemma prune_sets_depthwise_groups_witness :
  exists gr,
    programs (prune l1_norm 0 ["A.w"] [1 # 2]%Q false false false false
                (initial_state depthwise_net depthwise_scope)).2 !! 1 = Some gr /\
    forall op, op ∈ ops gr -> is_depthwise op = true ->
      exists filter sh n,
        inputs op "Filter" !! 0 = Some filter /\
        shape_of gr filter = Ok sh /\
        sh !! 0 = Some n /\
        attrs op !! "groups" = Some n.
Proof.
  apply (prune_sets_depthwise_groups l1_norm 0 ["A.w"] [1 # 2]%Q false false
           false false (initial_state depthwise_net depthwise_scope) _ 1 None None).
  apply run_result. vm_compute. reflexivity.
Defined.

(** The attribute the run above leaves behind. *)
Lemma depthwise_net_groups_after_prune :
  (fun p => (fun op => attrs op !! "groups") <$> ops p) <$>
    programs (prune l1_norm 0 ["A.w"] [1 # 2]%Q false false false false
                (initial_state depthwise_net depthwise_scope)).2 !! 1
  = Some [None; Some 2%Z].
Proof. vm_compute. reflexivity. Qed.

(** ** The registry of pruned names *)

#[global] Instance same_tensor_preorder (name : string) : PreOrder (same_tensor name).
Proof.
  split.
  - intros s. reflexivity.
  - intros s1 s2 s3 H1 H2. unfold same_tensor in *. congruence.
Qed.

Lemma in_pruned_list_run (name : string) (axis : nat) (s : State) :
  in_pruned_list name axis s =
  (match pruned_list s !! axis with
   | Some l => Ok (bool_decide (name ∈ l))
   | None => Raise (IndexError (Z.of_nat axis) (Z.of_nat (length (pruned_list s))))
   end, s).
Proof.
  unfold in_pruned_list, bind, gets, liftR, seq_index, ret.
  destruct (pruned_list s !! axis); reflexivity.
Qed.

Lemma pruned_list_append_ok_inv (axis : nat) (name : string) (s s' : State) :
  pruned_list_append axis name s = (Ok tt, s') ->
  scope s' = scope s /\
  exists l, pruned_list s' !! axis = Some l /\ name ∈ l.
Proof.
  unfold pruned_list_append, bind, gets, liftR, list_update, modify.
  destruct (bool_decide _) eqn:Hlt; simpl; [|discriminate].
  intros [= <-]. simpl. split; [reflexivity|].
  apply bool_decide_eq_true in Hlt.
  apply lookup_lt_is_Some in Hlt as [l Hl].
  exists (l ++ [name]).
  rewrite list_lookup_alter, decide_True, Hl by reflexivity.
  split; [reflexivity | apply elem_of_app; right; apply list_elem_of_singleton; reflexivity].
Qed.

Lemma modify_ok_inv (f : State -> State) (s s' : State) (u : unit) :
  modify f s = (Ok u, s') -> s' = f s.
Proof. unfold modify. congruence. Qed.




(** One turn of either loop of [_prune_parameter_by_idx] registers the
    name; in the loop that prunes values it stores the pruned tensor. *)
Lemma prune_parameter_by_idx_graph_turn (g : nat) (param : string) (n : Z)
    (axis : nat) (s s' : State) :
  (let* ori_shape := var_shape_of g param in
   bind (backup_value param (BackupShape ori_shape)) (fun _ =>
   let* new_shape := liftR (list_update ori_shape axis (fun x => x - n)%Z) in
   bind (var_set_shape g param new_shape) (fun _ =>
   pruned_list_append axis param))) s = (Ok tt, s') ->
  exists l, pruned_list s' !! axis = Some l /\ param ∈ l.
Proof.
  intros H.
  apply bind_ok_inv in H as (? & ? & _ & H).
  apply bind_ok_inv in H as (? & ? & _ & H).
  apply bind_ok_inv in H as (? & ? & _ & H).
  apply bind_ok_inv in H as (? & ? & _ & H).
  apply pruned_list_append_ok_inv in H as [_ H]. exact H.
Qed.






(** The tensor the run above leaves under [B.w]. *)
Lemma conv_bn_pruned_once :
  (fun t => (shape t, ravelled t)) <$>
    scope (_prune_parameter_by_idx 0 ["B.w"] [1; 3]%Z 1 false false conv_bn_state).2
      !! "B.w"
  = Some ([2; 2; 1; 1], [1; 3; 5; 7]%Q).
Proof. vm_compute. reflexivity. Qed.

(** ** The dispatcher at a fully-connected layer *)

(** What the loop over the inputs of a "mul" operator picks: an input that
    is no parameter, and a parameter. *)
Lemma mul_operands_spec (gr : Program) (l : list string) (a b r1 r2 : option string) :
  mul_operands gr l a b = Ok (r1, r2) ->
  (r1 = a \/ exists v, r1 = Some v /\ v ∈ l /\ is_parameter gr v = Ok false) /\
  (r2 = b \/ exists p, r2 = Some p /\ p ∈ l /\ is_parameter gr p = Ok true).
Proof.
  revert a b. induction l as [|v l IH]; intros a b H; simpl in H.
  - injection H as <- <-. auto.
  - destruct (is_parameter gr v) as [[|]|e] eqn:Hv; simpl in H; [| |discriminate].
    + destruct (IH _ _ H) as [H1 H2]. split.
      * destruct H1 as [->|(v' & -> & Hin & Hp)]; [auto|].
        right. exists v'. split; [auto|]. split; [right; auto|auto].
      * destruct H2 as [->|(p & -> & Hin & Hp)].
        -- right. exists v. split; [auto|]. split; [left|auto].
        -- right. exists p. split; [auto|]. split; [right; auto|auto].
    + destruct (IH _ _ H) as [H1 H2]. split.
      * destruct H1 as [->|(v' & -> & Hin & Hp)].
        -- right. exists v. split; [auto|]. split; [left|auto].
        -- right. exists v'. split; [auto|]. split; [right; auto|auto].
      * destruct H2 as [->|(p & -> & Hin & Hp)]; [auto|].
        right. exists p. split; [auto|]. split; [right; auto|auto].
Qed.




(** The rows of [fc.w] left by that step: those of the channels 1 and 3. *)
Lemma fc_net_rows_after_prune :
  (fun t => (shape t, (fun r => item t [r; 0]) <$> seq 0 18)) <$>
    scope (prune_op (fun _ _ => ret tt) 0 [fc_mul] [0; 2]%Z false false fc_mul
             fc_state).2 !! "fc.w"
  = Some ([18; 2], (fun r => inject_Z (Z.of_nat (2 * r))) <$> (seq 9 9 ++ seq 27 9)).
Proof. vm_compute. reflexivity. Qed.

(** ** The dispatcher at a concatenation *)

(** Where an operator between the pruned convolution and the concatenation
    is in the list, the position is found and the indices are shifted: the
    filters 1 and 3 of [A.w] go, and with them the input channels 5 and 7
    of [B.w]. *)
Lemma concat_net_shifts_indices :
  let r := prune l1_norm 0 ["A.w"] [1 # 3]%Q false false false false
             (initial_state concat_net concat_scope) in
  r.1 = Ok (1, None, None) /\
  _cal_pruned_idx l1_norm (array [6; 1; 1; 1] [5; 1; 6; 2; 7; 8]%Q) (1 # 3) 0
  = Ok [1; 3]%Z /\
  (fun t => (shape t, ravelled t)) <$> scope r.2 !! "B.w"
  = Some ([1; 13; 1; 1], [0; 1; 2; 3; 4; 6; 8; 9; 10; 11; 12; 13; 14]%Q).
Proof. vm_compute. repeat split; reflexivity. Qed.

(** C4, the code against the claim: in [concat_direct_net] the dispatcher
    comes to the concatenation with a list that holds no operator writing
    one of its inputs (the search leaves the start operator out), finds no
    position, and the call ends in the TypeError of [range(None)]: no index
    is shifted or passed on, [B.w] keeps its six input channels, while
    [A.w] has been pruned already. *)
Theorem prune_concat_direct_raises :
  let r := prune l1_norm 0 ["A.w"] [1 # 2]%Q false false false false
             (initial_state concat_direct_net concat_direct_scope) in
  _forward_search_related_op concat_direct_net (VarNode "A.w")
  = Ok [mk_op 1 "concat" [("X", ["a"; "c"])] [("Out", ["z"])]] /\
  find_concat_idx [mk_op 1 "concat" [("X", ["a"; "c"])] [("Out", ["z"])]] ["a"; "c"]
  = None /\
  r.1 = Raise TypeError /\
  shape <$> scope r.2 !! "A.w" = Some [2; 1; 1; 1] /\
  shape <$> scope r.2 !! "B.w" = Some [1; 6; 1; 1].
Proof. vm_compute. repeat split; reflexivity. Qed.

(** ** Index errors *)

#[global] Instance same_log_preorder : PreOrder same_log.
Proof.
  split.
  - intros s. reflexivity.
  - intros s1 s2 s3 H1 H2. unfold same_log in *. congruence.
Qed.

(** [_prune_parameter_by_idx] logs nothing at level INFO or above, whatever
    happens in it. *)
Lemma prune_parameter_by_idx_keeps_log (g : nat) (params : list string)
    (pruned_idx : list Z) (pruned_axis : nat) (lazy only_graph : bool) :
  respects same_log
    (_prune_parameter_by_idx g params pruned_idx pruned_axis lazy only_graph).
Proof.
  apply respects_prune_parameter_by_idx; try exact _; intros; intros s;
    unfold same_log, pruned_list_append, bind, gets, liftR, list_update, modify;
    try destruct (bool_decide _); reflexivity.
Qed.

(** An IndexError of [_prune_tensor] on the first name leaves
    [_prune_parameter_by_idx] as it is. *)
Lemma prune_parameter_by_idx_index_error (g : nat) (p0 : string)
    (rest : list string) (idx : list Z) (axis : nat) (lazy : bool) (s : State)
    (l : list string) (t : ndarray) (e : Exn) :
  pruned_list s !! axis = Some l -> p0 ∉ l ->
  scope s !! p0 = Some t ->
  _prune_tensor t idx axis lazy = Raise e ->
  exists s', _prune_parameter_by_idx g (p0 :: rest) idx axis lazy false s
             = (Raise e, s') /\ log s' = log s.
Proof.
  intros Hl Hnotin Ht He.
  pose proof (prune_parameter_by_idx_keeps_log g (p0 :: rest) idx axis lazy false s)
    as Hlog.
  destruct (_prune_parameter_by_idx g (p0 :: rest) idx axis lazy false s)
    as [r s'] eqn:Hrun.
  exists s'. split; [|exact Hlog].
  f_equal. revert Hrun. unfold _prune_parameter_by_idx.
  rewrite bind_run.
  change (liftR (seq_index (p0 :: rest) 0) s) with (Ok p0, s). cbv iota beta.
  rewrite bind_run, in_pruned_list_run, Hl.
  rewrite bool_decide_eq_false_2 by exact Hnotin.
  cbn [for_each]. rewrite bind_run. rewrite bind_run.
  unfold find_tensor at 1. rewrite Ht.
  rewrite bind_run. cbn [backup_value modify].
  rewrite bind_run. unfold liftR at 1. rewrite He.
  intros [= <- _]. reflexivity.
Qed.

(** C9, the code against the claim: with a batch normalisation of two
    channels behind a convolution of four, the index 2 chosen for [A.w] is
    out of range for the mean; the IndexError leaves [prune], no error
    record is logged, and the second requested parameter [B.w] is not
    pruned. *)
Theorem prune_index_error_escapes :
  let r := prune l1_norm 0 ["A.w"; "B.w"] [1 # 2; 1 # 2]%Q false false false false
             (initial_state conv_bn_net mismatch_scope) in
  r.1 = Raise (IndexError 2 2) /\
  log r.2 = [InfoPruning "A.w"] /\
  pruned_list r.2 = [["A.w"]; []] /\
  shape <$> scope r.2 !! "B.w" = Some [2; 4; 1; 1].
Proof. vm_compute. repeat split; reflexivity. Qed.

(** ** Accumulators *)

Lemma elem_of_List_filter {A} (f : A -> bool) (l : list A) (x : A) :
  x ∈ List.filter f l <-> x ∈ l /\ f x = true.
Proof. rewrite !list_elem_of_In. apply List.filter_In. Qed.

Lemma accumulators_of_spec (graph : Program) (param : string) (outs acc : list string) :
  accumulators_of graph param outs = Ok acc ->
  forall x, x ∈ acc <-> x ∈ outs /\ x <> param /\ is_persistable graph x = Ok true.
Proof.
  revert acc. induction outs as [|o outs IH]; intros acc H x; simpl in H.
  - injection H as <-. split; [intros Hx; inversion Hx | intros [Hx _]; inversion Hx].
  - destruct (is_persistable graph o) as [b|e] eqn:Hb; [|discriminate].
    simpl in H.
    destruct (accumulators_of graph param outs) as [rest|e]; [|discriminate].
    simpl in H. injection H as <-.
    specialize (IH rest eq_refl x).
    destruct (String.eqb_spec o param) as [Heq|Hne]; destruct b; simpl;
      rewrite ?elem_of_cons, IH; split.
    all: try (intros (Hin & Hne' & Hp); split; [right; exact Hin | auto]).
    all: try (intros ([->|Hin] & Hne' & Hp); [congruence | auto]).
    + intros [->|(Hin & Hne' & Hp)]; [auto|]. split; [right; exact Hin | auto].
    + intros ([->|Hin] & Hne' & Hp); [left; reflexivity | right; auto].
Qed.

Lemma accumulators_of_total (graph : Program) (param : string) (outs : list string) :
  (forall x, x ∈ outs -> is_Some (var graph x)) ->
  exists acc, accumulators_of graph param outs = Ok acc.
Proof.
  induction outs as [|o outs IH]; intros Hv; simpl; [eauto|].
  destruct (Hv o) as [v Hvo]; [left|].
  unfold is_persistable. rewrite Hvo. simpl.
  destruct IH as [rest ->]; [intros x Hx; apply Hv; right; exact Hx|].
  simpl. eauto.
Qed.

Lemma accumulators_loop_spec (graph : Program) (param : string) (l : list Op)
    (acc : list string) :
  accumulators_loop graph param l = Ok acc ->
  forall x, x ∈ acc <->
    exists op, op ∈ l /\ is_opt_op op = true /\ x ∈ all_outputs op /\
               x <> param /\ is_persistable graph x = Ok true.
Proof.
  revert acc. induction l as [|op l IH]; intros acc H x; simpl in H.
  - injection H as <-. split; [intros Hx; inversion Hx|].
    intros (op & Hop & _). inversion Hop.
  - destruct (is_opt_op op) eqn:Hopt.
    + destruct (accumulators_of graph param (all_outputs op)) as [here|e] eqn:Hhere;
        [|discriminate].
      simpl in H.
      destruct (accumulators_loop graph param l) as [rest|e]; [|discriminate].
      simpl in H. injection H as <-.
      rewrite elem_of_app, (accumulators_of_spec _ _ _ _ Hhere), (IH rest eq_refl x).
      split.
      * intros [(Hin & Hne & Hp)|(op' & Hop' & H')].
        -- exists op. split; [left|auto].
        -- exists op'. split; [right; exact Hop'|exact H'].
      * intros (op' & Hop' & Ho & Hin & Hne & Hp).
        apply elem_of_cons in Hop' as [->|Hop']; [left; auto|].
        right. exists op'. auto.
    + simpl in H.
      destruct (accumulators_loop graph param l) as [rest|e]; [|discriminate].
      simpl in H. injection H as <-.
      rewrite (IH rest eq_refl x). split.
      * intros (op' & Hop' & H'). exists op'. split; [right; exact Hop'|exact H'].
      * intros (op' & Hop' & Ho & H').
        apply elem_of_cons in Hop' as [->|Hop']; [congruence|].
        exists op'. auto.
Qed.

Lemma accumulators_loop_total (graph : Program) (param : string) (l : list Op) :
  (forall op x, op ∈ l -> x ∈ all_outputs op -> is_Some (var graph x)) ->
  exists acc, accumulators_loop graph param l = Ok acc.
Proof.
  induction l as [|op l IH]; intros Hv; simpl; [eauto|].
  destruct IH as [rest Hrest]; [intros op' x Hop'; apply Hv; right; exact Hop'|].
  rewrite Hrest.
  destruct (is_opt_op op); simpl; [|eauto].
  destruct (accumulators_of_total graph param (all_outputs op)) as [here ->];
    [intros x Hx; eapply Hv; [left|exact Hx]|].
  simpl. eauto.
Qed.

(** In a graph whose operators write variables of the graph,
    [_get_accumulator] returns for every parameter name; the list holds
    exactly the persistable outputs, other than the parameter itself, of the
    optimizer operators that read the parameter.  In particular the
    parameter is never among its own accumulators.  Without a variable
    ([None]) the assertion fails. *)
Theorem get_accumulator_spec (graph : Program) (param : string) :
  (forall op x, op ∈ ops graph -> x ∈ all_outputs op -> is_Some (var graph x)) ->
  _get_accumulator graph None = Raise AssertionError /\
  exists acc,
    _get_accumulator graph (Some param) = Ok acc /\
    (param ∉ acc) /\
    forall x, x ∈ acc <->
      x <> param /\
      exists op, op ∈ ops graph /\ is_opt_op op = true /\
                 param ∈ all_inputs op /\ x ∈ all_outputs op /\
                 is_persistable graph x = Ok true.
Proof.
  intros Hv. split; [reflexivity|].
  unfold _get_accumulator.
  destruct (accumulators_loop_total graph param (outputs graph param)) as [acc Hacc].
  { intros op x Hop. apply Hv. unfold outputs in Hop.
    apply elem_of_List_filter in Hop as [Hop _]. exact Hop. }
  exists acc. split; [exact Hacc|].
  pose proof (accumulators_loop_spec _ _ _ _ Hacc) as Hspec.
  assert (Hiff : forall x, x ∈ acc <->
      x <> param /\
      exists op, op ∈ ops graph /\ is_opt_op op = true /\
                 param ∈ all_inputs op /\ x ∈ all_outputs op /\
                 is_persistable graph x = Ok true).
  { intros x. rewrite Hspec. unfold outputs. split.
    - intros (op & Hop & Ho & Hx & Hne & Hp).
      apply elem_of_List_filter in Hop as [Hop Hin].
      apply bool_decide_eq_true in Hin.
      split; [exact Hne|]. exists op. auto 6.
    - intros (Hne & op & Hop & Ho & Hin & Hx & Hp).
      exists op. split; [|auto].
      apply elem_of_List_filter. split; [exact Hop|].
      apply bool_decide_eq_true. exact Hin. }
  split; [|exact Hiff].
  intros Hin. apply Hiff in Hin as [Hne _]. congruence.
Qed.

Lemma get_accumulator_spec_witness :
  _get_accumulator momentum_net None = Raise AssertionError /\
  exists acc,
    _get_accumulator momentum_net (Some "w") = Ok acc /\
    ("w" ∉ acc) /\
    forall x, x ∈ acc <->
      x <> "w" /\
      exists op, op ∈ ops momentum_net /\ is_opt_op op = true /\
                 "w" ∈ all_inputs op /\ x ∈ all_outputs op /\
                 is_persistable momentum_net x = Ok true.
Proof.
  apply (get_accumulator_spec momentum_net "w").
  intros op x Hop Hx.
  unfold ops, momentum_net in Hop. simpl in Hop.
  repeat (apply elem_of_cons in Hop as [->|Hop]);
    [| |inversion Hop]; simpl in Hx;
    repeat (apply elem_of_cons in Hx as [->|Hx]); try (inversion Hx; fail);
    vm_compute; eauto.
Defined.

(** The accumulators found in [momentum_net]. *)
Lemma momentum_net_accumulators :
  _get_accumulator momentum_net (Some "w") = Ok ["w_velocity"].
Proof. reflexivity. Qed.

(** ** The search for sibling operators *)

Section Unseen.

Lemma filter_mark_le (l v : list nat) (k : nat) :
length (filter (fun x => x ∉ v ++ [k]) l) <= length (filter (fun x => x ∉ v) l).
Proof.
induction l as [|x l IH]; [reflexivity|].
rewrite !filter_cons.
destruct (decide (x ∉ v ++ [k])) as [Hx|Hx]; destruct (decide (x ∉ v)) as [Hv|Hv];
  simpl; try lia.
exfalso. apply Hv. intros Hin. apply Hx. apply elem_of_app. auto.
Qed.

Lemma filter_mark_lt (l v : list nat) (k : nat) :
k ∈ l -> k ∉ v ->
S (length (filter (fun x => x ∉ v ++ [k]) l)) <= length (filter (fun x => x ∉ v) l).
Proof.
induction l as [|x l IH]; intros Hk Hv; [inversion Hk|].
rewrite !filter_cons.
apply elem_of_cons in Hk as [<-|Hk].
- rewrite decide_False, decide_True by
    (try exact Hv; intros H; apply H, elem_of_app; right; left).
  simpl. pose proof (filter_mark_le l v k). lia.
- specialize (IH Hk Hv).
  destruct (decide (x ∉ v ++ [k])) as [Hx|Hx]; destruct (decide (x ∉ v)) as [Hv'|Hv'];
    simpl; try lia.
  exfalso. apply Hv'. intros Hin. apply Hx. apply elem_of_app. auto.
Qed.

Lemma length_remove_dups_le (l : list nat) : length (remove_dups l) <= length l.
Proof.
induction l as [|x l IH]; [reflexivity|]. simpl.
destruct (decide_rel elem_of x l); simpl; lia.
Qed.

Variable graph : Program.

Lemma unseen_mark_le (v : list nat) (k : nat) :
length (unseen graph (v ++ [k])) <= length (unseen graph v).
Proof. apply filter_mark_le. Qed.

Lemma unseen_mark_lt (v : list nat) (op : Op) :
op ∈ ops graph -> idx op ∉ v ->
S (length (unseen graph (v ++ [idx op]))) <= length (unseen graph v).
Proof.
intros Hop Hv. apply filter_mark_lt; [|exact Hv].
apply elem_of_remove_dups, list_elem_of_fmap. eauto.
Qed.

Lemma unseen_le_ops (v : list nat) : length (unseen graph v) <= length (ops graph).
Proof.
unfold unseen. etransitivity; [apply length_filter|].
etransitivity; [apply length_remove_dups_le|]. rewrite length_fmap. reflexivity.
Qed.

End Unseen.

Section Brothers.

Variables (graph : Program) (op_node : Op).

Lemma pre_ops_in_graph (op q : Op) : q ∈ pre_ops graph op -> q ∈ ops graph.
Proof.
unfold pre_ops. rewrite list_elem_of_bind. intros (q' & Hq & Hin).
apply list_elem_of_bind in Hq as (inv & Hq & _).
destruct (bool_decide _); [|inversion Hq].
apply list_elem_of_singleton in Hq as ->. exact Hin.
Qed.

Lemma brothers_children_spec (l : list Op) (check : bool) (st : Brothers) :
(forall op, op ∈ l -> op ∈ ops graph) ->
brothers (brothers_children l check st) = brothers st /\
(forall k, k ∈ b_visited st -> k ∈ b_visited (brothers_children l check st)) /\
(check = true ->
 brothers_measure graph (brothers_children l check st) <= brothers_measure graph st).
Proof.
revert st. induction l as [|op l IH]; intros st Hl; simpl; [auto|].
assert (Hl' : forall op', op' ∈ l -> op' ∈ ops graph)
  by (intros op' Hop'; apply Hl; right; exact Hop').
destruct (passable op && (negb check || negb (bool_decide (idx op ∈ b_visited st)))
          && negb (is_bwd_op op) && negb (is_opt_op op)) eqn:Hc; [|auto].
destruct (IH {| b_visited := b_visited st ++ [idx op];
                b_stack := b_stack st ++ [op];
                brothers := brothers st |} Hl') as (Hb & Hv & Hm).
split; [exact Hb|]. split.
- intros k Hk. apply Hv. simpl. apply elem_of_app. auto.
- intros ->. etransitivity; [apply Hm; reflexivity|].
  unfold brothers_measure. simpl. rewrite length_app. simpl.
  apply andb_true_iff in Hc as [Hc _]. apply andb_true_iff in Hc as [Hc _].
  apply andb_true_iff in Hc as [_ Hc]. simpl in Hc.
  apply negb_true_iff, bool_decide_eq_false in Hc.
  pose proof (unseen_mark_lt graph (b_visited st) op (Hl op ltac:(left)) Hc). lia.
Qed.

Lemma brothers_parents_spec (l : list Op) (st : Brothers) :
(forall op, op ∈ l -> op ∈ ops graph) ->
brothers_inv graph op_node st ->
brothers_inv graph op_node (brothers_parents l st) /\
brothers_measure graph (brothers_parents l st) <= brothers_measure graph st.
Proof.
revert st. induction l as [|p l IH]; intros st Hl Hinv; simpl; [auto|].
assert (Hl' : forall op', op' ∈ l -> op' ∈ ops graph)
  by (intros op' Hop'; apply Hl; right; exact Hop').
assert (Hp : p ∈ ops graph) by (apply Hl; left).
destruct (negb (bool_decide (idx p ∈ b_visited st)) && negb (is_bwd_op p)
          && negb (is_opt_op p)) eqn:Hc; [|auto].
apply andb_true_iff in Hc as [Hc Hopt]. apply andb_true_iff in Hc as [Hnv Hbwd].
apply negb_true_iff in Hopt, Hbwd.
apply negb_true_iff, bool_decide_eq_false in Hnv.
destruct Hinv as (Hnode & Hnodup & Hall).
pose proof (unseen_mark_lt graph (b_visited st) p Hp Hnv) as Hlt.
fold (conv_like p). destruct (conv_like p) eqn:Hconv.
- match goal with |- context [brothers_parents l ?st1] =>
    destruct (IH st1 Hl') as [Hinv' Hm]
  end.
  { split; [simpl; apply elem_of_app; auto|]. split.
    - simpl. rewrite fmap_app. apply NoDup_app. split; [exact Hnodup|].
      split; [|apply NoDup_singleton].
      intros k Hk Hk'. apply list_elem_of_singleton in Hk' as ->.
      apply list_elem_of_fmap in Hk as (b & Hidx & Hb).
      destruct (Hall b Hb) as (_ & _ & _ & _ & Hvis & _).
      apply Hnv. rewrite Hidx. exact Hvis.
    - simpl. intros b Hb. apply elem_of_app in Hb as [Hb|Hb].
      + destruct (Hall b Hb) as (? & ? & ? & ? & ? & ?).
        repeat split; auto. apply elem_of_app. auto.
      + apply list_elem_of_singleton in Hb as ->.
        repeat split; auto.
        * apply elem_of_app. right. left.
        * intros Heq. apply Hnv. rewrite Heq. exact Hnode. }
  split; [exact Hinv'|].
  etransitivity; [exact Hm|]. unfold brothers_measure. simpl. lia.
- match goal with |- context [brothers_parents l ?st1] =>
    destruct (IH st1 Hl') as [Hinv' Hm]
  end.
  { split; [simpl; apply elem_of_app; auto|]. split; [exact Hnodup|].
    simpl. intros b Hb. destruct (Hall b Hb) as (? & ? & ? & ? & ? & ?).
    repeat split; auto. apply elem_of_app. auto. }
  split; [exact Hinv'|].
  etransitivity; [exact Hm|]. unfold brothers_measure. simpl.
  rewrite length_app. simpl. lia.
Qed.

Lemma brothers_children_inv (l : list Op) (check : bool) (st : Brothers) :
(forall op, op ∈ l -> op ∈ ops graph) ->
brothers_inv graph op_node st ->
brothers_inv graph op_node (brothers_children l check st).
Proof.
intros Hl (Hnode & Hnodup & Hall).
destruct (brothers_children_spec l check st Hl) as (Hb & Hv & _).
split; [apply Hv, Hnode|]. rewrite Hb. split; [exact Hnodup|].
intros b Hin. destruct (Hall b Hin) as (? & ? & ? & ? & ? & ?).
repeat split; auto.
Qed.

Lemma brothers_loop_spec (fuel : nat) (st : Brothers) :
brothers_inv graph op_node st ->
brothers_measure graph st <= fuel ->
exists r, brothers_loop fuel graph st = Ok r /\
          NoDup (idx <$> r) /\
          forall b, b ∈ r ->
            b ∈ ops graph /\ is_bwd_op b = false /\ is_opt_op b = false /\
            conv_like b = true /\ idx b <> idx op_node.
Proof.
revert st. induction fuel as [|fuel IH]; intros st Hinv Hm.
- destruct (rev (b_stack st)) as [|top rest] eqn:Hrev.
  + exists (brothers st). simpl. rewrite Hrev.
    destruct Hinv as (_ & Hnodup & Hall). split; [reflexivity|].
    split; [exact Hnodup|]. intros b Hb.
    destruct (Hall b Hb) as (? & ? & ? & ? & ? & ?). auto.
  + exfalso. apply (f_equal length) in Hrev. rewrite length_rev in Hrev.
    unfold brothers_measure in Hm. simpl in Hrev. lia.
- destruct (rev (b_stack st)) as [|top rest] eqn:Hrev.
  + exists (brothers st). simpl. rewrite Hrev.
    destruct Hinv as (_ & Hnodup & Hall). split; [reflexivity|].
    split; [exact Hnodup|]. intros b Hb.
    destruct (Hall b Hb) as (? & ? & ? & ? & ? & ?). auto.
  + simpl. rewrite Hrev.
    set (st1 := {| b_visited := b_visited st; b_stack := rev rest;
                   brothers := brothers st |}).
    assert (Hinv1 : brothers_inv graph op_node st1) by exact Hinv.
    assert (Hm1 : S (brothers_measure graph st1) = brothers_measure graph st).
    { unfold brothers_measure, st1. simpl. rewrite length_rev.
      apply (f_equal length) in Hrev. rewrite length_rev in Hrev.
      simpl in Hrev. lia. }
    destruct (brothers_parents_spec (pre_ops graph top) st1) as [Hinv2 Hm2];
      [intros op Hop; eapply pre_ops_in_graph; exact Hop | exact Hinv1 |].
    set (st2 := brothers_parents (pre_ops graph top) st1) in *.
    assert (Hnext : forall op, op ∈ next_ops graph top -> op ∈ ops graph)
      by (intros op Hop; eapply next_ops_in_graph; exact Hop).
    destruct (brothers_children_spec (next_ops graph top) true st2 Hnext)
      as (_ & _ & Hm3).
    apply IH.
    * apply brothers_children_inv; assumption.
    * specialize (Hm3 eq_refl). lia.
Qed.

(** [_search_brother_ops] returns for every graph and operator: the walk
  ends before the bound of the model is reached.  The operators it
  returns are operators of the graph of a convolution or "fc" type, none
  of them a backward or optimizer operator, none with the identity of the
  start operator, and no identity occurs twice. *)
Theorem search_brother_ops_spec :
exists r,
  _search_brother_ops graph op_node = Ok r /\
  NoDup (idx <$> r) /\
  forall b, b ∈ r ->
    b ∈ ops graph /\ is_bwd_op b = false /\ is_opt_op b = false /\
    conv_like b = true /\ idx b <> idx op_node.
Proof.
unfold _search_brother_ops.
set (st0 := {| b_visited := [idx op_node]; b_stack := []; brothers := [] |}).
assert (Hinv0 : brothers_inv graph op_node st0).
{ split; [left|]. split; [constructor|]. intros b Hb. inversion Hb. }
apply brothers_loop_spec.
- apply brothers_children_inv; [|exact Hinv0].
  intros op Hop. eapply next_ops_in_graph. exact Hop.
- unfold brothers_measure.
  pose proof (unseen_le_ops graph
                (b_visited (brothers_children (next_ops graph op_node) false st0))).
  lia.
Qed.

End Brothers.

(** In [residual_net] the sibling of the first convolution is the second
    one, whose output is added to its own. *)
Lemma residual_net_brothers :
  (let? r := _search_brother_ops residual_net
               (mk_op 0 "conv2d" [("Filter", ["A.w"]); ("Input", ["x"])]
                  [("Output", ["a"])]) in
   Ok (idx <$> r))
  = Ok [1].
Proof. vm_compute. reflexivity. Qed.

(** ** The outcome of [_prune_tensor] for any index list *)

Lemma zeros_mask (n : nat) :
  np.zeros n = (fun c => bool_decide (c ∈ @nil nat)) <$> seq 0 n.
Proof.
  unfold np.zeros. apply list_eq. intros c.
  destruct (decide (c < n)) as [Hc|Hc].
  - rewrite list_lookup_fmap, lookup_seq_lt, lookup_replicate_2 by exact Hc.
    reflexivity.
  - rewrite !lookup_ge_None_2; [reflexivity| |];
      rewrite ?length_replicate, ?length_fmap, ?length_seq; lia.
Qed.

Lemma mask_snoc (n i : nat) (acc : list nat) :
  <[i := true]> ((fun c => bool_decide (c ∈ acc)) <$> seq 0 n)
  = (fun c => bool_decide (c ∈ acc ++ [i])) <$> seq 0 n.
Proof.
  rewrite insert_fmap_seq. apply list_fmap_ext. intros _ c _. simpl.
  destruct (decide (c = i)) as [->|Hne].
  - rewrite (bool_decide_eq_true_2 (i = i)) by reflexivity.
    symmetry. apply bool_decide_eq_true_2.
    apply elem_of_app. right. apply list_elem_of_singleton. reflexivity.
  - rewrite (bool_decide_eq_false_2 (c = i)) by exact Hne. simpl.
    apply bool_decide_ext. rewrite elem_of_app, list_elem_of_singleton. tauto.
Qed.

(** [mask[idx] = True]: the first index out of bounds raises, and without
    one the mask marks the channels of [idx]. *)
Lemma set_true_outcome (n : nat) (idx : list Z) (acc : list nat) :
  np.set_true ((fun c => bool_decide (c ∈ acc)) <$> seq 0 n) idx
  = match List.find (out_of_bounds n) idx with
    | Some i => Raise (IndexError i (Z.of_nat n))
    | None => Ok ((fun c => bool_decide (c ∈ acc ++ channels n idx)) <$> seq 0 n)
    end.
Proof.
  revert acc. induction idx as [|i idx IH]; intros acc.
  - simpl. rewrite app_nil_r. reflexivity.
  - cbn [np.set_true List.find]. rewrite length_fmap, length_seq.
    unfold out_of_bounds at 1.
    destruct ((0 <=? i)%Z && (i <? Z.of_nat n)%Z) eqn:Hpos.
    + apply andb_true_iff in Hpos as [H0 Hn].
      apply Z.leb_le in H0. apply Z.ltb_lt in Hn.
      replace ((- Z.of_nat n <=? i)%Z && (i <? Z.of_nat n)%Z) with true
        by (symmetry; apply andb_true_iff; split;
            [apply Z.leb_le|apply Z.ltb_lt]; lia).
      simpl negb. cbv iota.
      rewrite mask_snoc, IH.
      destruct (List.find (out_of_bounds n) idx); [reflexivity|].
      unfold channels. rewrite fmap_cons, Z.mod_small by lia.
      rewrite <- app_assoc. reflexivity.
    + destruct ((- Z.of_nat n <=? i)%Z && (i <? 0)%Z) eqn:Hneg.
      * apply andb_true_iff in Hneg as [H0 Hn].
        apply Z.leb_le in H0. apply Z.ltb_lt in Hn.
        replace ((- Z.of_nat n <=? i)%Z && (i <? Z.of_nat n)%Z) with true
          by (symmetry; apply andb_true_iff; split;
              [apply Z.leb_le|apply Z.ltb_lt]; lia).
        simpl negb. cbv iota.
        rewrite mask_snoc, IH.
        destruct (List.find (out_of_bounds n) idx); [reflexivity|].
        unfold channels. rewrite fmap_cons.
        replace (i mod Z.of_nat n)%Z with (Z.of_nat n + i)%Z.
        -- rewrite <- app_assoc. reflexivity.
        -- rewrite <- (Z.mod_small (Z.of_nat n + i) (Z.of_nat n)) by lia.
           rewrite Z.add_comm.
           rewrite <- (Z.mul_1_l (Z.of_nat n)) at 1.
           apply Z_mod_plus_full.
      * replace ((- Z.of_nat n <=? i)%Z && (i <? Z.of_nat n)%Z) with false;
          [reflexivity|].
        symmetry. apply andb_false_iff.
        apply andb_false_iff in Hpos, Hneg.
        rewrite Z.leb_gt, Z.ltb_ge in *. lia.
Qed.

Lemma channels_in_range (n : nat) (idx : list Z) :
  List.find (out_of_bounds n) idx = None ->
  forall c, c ∈ channels n idx -> c < n.
Proof.
  intros Hfind c Hc. unfold channels in Hc.
  apply list_elem_of_fmap in Hc as (i & -> & Hi).
  apply list_elem_of_In in Hi.
  pose proof (List.find_none _ _ Hfind i Hi) as Hb.
  unfold out_of_bounds in Hb. apply negb_false_iff, andb_true_iff in Hb as [H1 H2].
  apply Z.leb_le in H1. apply Z.ltb_lt in H2.
  assert (0 < Z.of_nat n)%Z by lia.
  pose proof (Z.mod_pos_bound i (Z.of_nat n) ltac:(lia)). lia.
Qed.

(** What [_prune_tensor] does with any array, index list and axis: an axis
    the array does not have is an IndexError; so is the first index outside
    [-n, n), [n] being the size of the axis; an empty dimension off the axis
    is a ValueError; and in every other case the call returns, the slices
    of the channels the indices stand for (negative ones counted from the
    end, repeated ones once) being cut out in hard mode and zeroed in lazy
    mode. *)
Theorem prune_tensor_outcome (t : ndarray) (idx : list Z) (axis : nat) (lazy : bool) :
  match shape t !! axis with
  | None =>
      _prune_tensor t idx axis lazy
      = Raise (IndexError (Z.of_nat axis) (Z.of_nat (length (shape t))))
  | Some n =>
      match List.find (out_of_bounds n) idx with
      | Some i => _prune_tensor t idx axis lazy = Raise (IndexError i (Z.of_nat n))
      | None =>
          if bool_decide (0 ∈ delete axis (shape t))
          then _prune_tensor t idx axis lazy = Raise ValueError
          else exists t',
                 _prune_tensor t idx axis lazy = Ok t' /\
                 if lazy then slices_zeroed t t' axis (channels n idx)
                 else slices_removed t t' axis (channels n idx)
      end
  end.
Proof.
  unfold _prune_tensor, seq_index.
  destruct (shape t !! axis) as [n|] eqn:Hn; [|reflexivity].
  cbn [rbind]. rewrite zeros_mask, set_true_outcome.
  destruct (List.find (out_of_bounds n) idx) as [i|] eqn:Hfind; [reflexivity|].
  cbn [rbind app].
  destruct (bool_decide (0 ∈ delete axis (shape t))) eqn:Hdims.
  - unfold np.apply_along_axis. rewrite Hdims. destruct lazy; reflexivity.
  - apply bool_decide_eq_false in Hdims.
    pose proof (channels_in_range n idx Hfind) as Hr.
    destruct lazy.
    + destruct (prune_tensor_lazy t axis n (channels n idx) Hn Hr Hdims)
        as (t' & Ht' & Hz).
      exists t'. split; [|exact Hz]. rewrite <- Ht'.
      unfold _prune_tensor, seq_index. rewrite Hn. cbn [rbind].
      rewrite mask_of_channels by exact Hr. reflexivity.
    + destruct (prune_tensor_hard t axis n (channels n idx) Hn Hr Hdims)
        as (t' & Ht' & Hz).
      exists t'. split; [|exact Hz]. rewrite <- Ht'.
      unfold _prune_tensor, seq_index. rewrite Hn. cbn [rbind].
      rewrite mask_of_channels by exact Hr. reflexivity.
Qed.

(** The last channel asked for three times, by [-1], [3] and [-1] again:
    one slice goes. *)
Lemma prune_tensor_negative_index :
  (let? t := _prune_tensor (array [4] [10; 11; 12; 13]%Q) [-1; 3; -1]%Z 0 false in
   Ok (shape t, ravelled t))
  = Ok ([3], [10; 11; 12]%Q).
Proof. vm_compute. reflexivity. Qed.

(** ** Selection for any ratio *)




(** The selections at ratios -1/2 and 3/2. *)
Lemma cal_pruned_idx_out_of_range_ratios :
  _cal_pruned_idx l1_norm selecting_param (- (1 # 2)) 0 = Ok [1; 3]%Z /\
  _cal_pruned_idx l1_norm selecting_param (3 # 2) 0 = Ok [1; 3; 2; 0]%Z.
Proof. split; vm_compute; reflexivity. Qed.

(** ** The dispatcher at a concatenation, in general *)

Lemma concat_offset_sum (graph : Program) (concat_inputs : list string)
    (cis : list nat) (acc off : Z) :
  concat_offset graph concat_inputs cis acc = Ok off ->
  exists ws, Forall2 (width_at graph concat_inputs) cis ws /\
             off = (acc + total ws)%Z.
Proof.
  revert acc. induction cis as [|ci cis IH]; intros acc H; simpl in H.
  - injection H as <-. exists []. split; [constructor|]. simpl. lia.
  - destruct (seq_index concat_inputs ci) as [v|e] eqn:Hv; [|discriminate].
    simpl in H.
    destruct (shape_of graph v) as [sh|e] eqn:Hsh; [|discriminate]. simpl in H.
    destruct (seq_index sh 1) as [w|e] eqn:Hw; [|discriminate]. simpl in H.
    destruct (IH _ H) as (ws & Hws & ->).
    exists (w :: ws). split.
    + constructor; [|exact Hws].
      exists v, sh. apply seq_index_ok_inv in Hv, Hw. auto.
    + simpl. lia.
Qed.

Lemma elem_of_rev {A} (x : A) (l : list A) : x ∈ rev l <-> x ∈ l.
Proof. rewrite !list_elem_of_In. symmetry. apply in_rev. Qed.

Lemma list_index_of_spec (x : string) (l : list string) (k : nat) :
  list_index_of x l = Some k -> l !! k = Some x /\ x ∉ take k l.
Proof.
  revert k. induction l as [|y l IH]; intros k H; simpl in H; [discriminate|].
  destruct (String.eqb_spec y x) as [->|Hne].
  - injection H as <-. split; [reflexivity|]. simpl. apply not_elem_of_nil.
  - destruct (list_index_of x l) as [k'|]; [|discriminate].
    injection H as <-. destruct (IH k' eq_refl) as [Hk Hnot].
    split; [exact Hk|]. simpl. intros Hin.
    apply elem_of_cons in Hin as [->|Hin]; [congruence|contradiction].
Qed.

Lemma list_index_of_None (x : string) (l : list string) :
  list_index_of x l = None -> x ∉ l.
Proof.
  induction l as [|y l IH]; intros H; simpl in H; [apply not_elem_of_nil|].
  destruct (String.eqb_spec y x) as [->|Hne]; [discriminate|].
  destruct (list_index_of x l); [discriminate|].
  intros Hin. apply elem_of_cons in Hin as [->|Hin]; [congruence|].
  apply IH; auto.
Qed.

(** The position the "concat" case works with: that of an input written by
    an operator of the list; there is none only if no operator of the list
    writes an input. *)
Lemma find_concat_idx_spec (l : list Op) (concat_inputs : list string) :
  match find_concat_idx l concat_inputs with
  | Some k =>
      exists producer out_var,
        producer ∈ l /\ out_var ∈ all_outputs producer /\
        concat_inputs !! k = Some out_var /\ out_var ∉ take k concat_inputs
  | None =>
      forall producer out_var,
        producer ∈ l -> out_var ∈ all_outputs producer -> out_var ∉ concat_inputs
  end.
Proof.
  induction l as [|last_op l IH]; simpl.
  - intros producer out_var Hp. inversion Hp.
  - destruct (List.find _ (all_outputs last_op)) as [out_var|] eqn:Hfind.
    + apply List.find_some in Hfind as [Hin Hmem].
      apply bool_decide_eq_true in Hmem. apply list_elem_of_In in Hin.
      destruct (list_index_of out_var concat_inputs) as [k|] eqn:Hk.
      * apply list_index_of_spec in Hk as [Hk Hfirst].
        exists last_op, out_var. split; [left|auto].
      * apply list_index_of_None in Hk. contradiction.
    + destruct (find_concat_idx l concat_inputs) as [k|].
      * destruct IH as (producer & out_var & Hp & H').
        exists producer, out_var. split; [right; exact Hp|exact H'].
      * intros producer out_var Hp Hout.
        apply elem_of_cons in Hp as [->|Hp]; [|eapply IH; eauto].
        apply list_elem_of_In in Hout.
        pose proof (List.find_none _ _ Hfind _ Hout) as Hno. simpl in Hno.
        apply bool_decide_eq_false in Hno. exact Hno.
Qed.

(** When the dispatcher comes to a "concat" operator: if no operator of the
    list it works on writes an input of the concatenation, it raises
    TypeError and nothing is written; otherwise it takes the position [k] of
    such an input, and, the inputs before it having axis-1 sizes [ws], it
    hands the operators found by the search from the concatenation to
    itself, with every index raised by the sum of [ws]. *)
Theorem prune_op_concat (prune_ops : list Op -> list Z -> M unit) (g : nat)
    (ops : list Op) (op : Op) (pruned_idxs : list Z) (lazy only_graph : bool)
    (s : State) (gr : Program) :
  type op = "concat" ->
  programs s !! g = Some gr ->
  match find_concat_idx (rev ops) (all_inputs op) with
  | None =>
      prune_op prune_ops g ops pruned_idxs lazy only_graph op s = (Raise TypeError, s) /\
      forall producer out_var,
        producer ∈ ops -> out_var ∈ all_outputs producer -> out_var ∉ all_inputs op
  | Some k =>
      (exists producer out_var,
         producer ∈ ops /\ out_var ∈ all_outputs producer /\
         all_inputs op !! k = Some out_var /\ out_var ∉ take k (all_inputs op)) /\
      forall offset related_ops,
        concat_offset gr (all_inputs op) (seq 0 k) 0 = Ok offset ->
        _forward_search_related_op gr (OpNode op) = Ok related_ops ->
        prune_op prune_ops g ops pruned_idxs lazy only_graph op s
        = prune_ops related_ops ((fun x => x + offset)%Z <$> pruned_idxs) s /\
        exists ws, Forall2 (width_at gr (all_inputs op)) (seq 0 k) ws /\
                   offset = total ws
  end.
Proof.
  intros Ht Hg.
  pose proof (find_concat_idx_spec (rev ops) (all_inputs op)) as Hspec.
  assert (Hrun : prune_op prune_ops g ops pruned_idxs lazy only_graph op s
    = match find_concat_idx (rev ops) (all_inputs op) with
      | None => (Raise TypeError, s)
      | Some concat_idx =>
          match concat_offset gr (all_inputs op) (seq 0 concat_idx) 0 with
          | Ok offset =>
              match _forward_search_related_op gr (OpNode op) with
              | Ok related_ops =>
                  prune_ops related_ops ((fun x => x + offset)%Z <$> pruned_idxs) s
              | Raise e => (Raise e, s)
              end
          | Raise e => (Raise e, s)
          end
      end).
  { unfold prune_op. unfold bind at 1. rewrite Ht.
    change (bool_decide ("concat" ∈ ["conv2d"; "deformable_conv"])) with false.
    cbn [ret String.eqb Ascii.eqb Bool.eqb andb]. cbv iota beta.
    destruct (find_concat_idx (rev ops) (all_inputs op)); [|reflexivity].
    unfold bind at 1. unfold graph_at at 1. rewrite Hg.
    unfold bind at 1. unfold liftR at 1.
    destruct (concat_offset gr (all_inputs op) (seq 0 n) 0); [|reflexivity].
    unfold bind at 1. unfold liftR at 1.
    destruct (_forward_search_related_op gr (OpNode op)); reflexivity. }
  destruct (find_concat_idx (rev ops) (all_inputs op)) as [k|].
  - destruct Hspec as (producer & out_var & Hp & Hrest).
    split; [exists producer, out_var; split; [apply elem_of_rev, Hp|exact Hrest]|].
    intros offset related_ops Hoff Hrel.
    rewrite Hrun, Hoff, Hrel. split; [reflexivity|].
    destruct (concat_offset_sum _ _ _ _ _ Hoff) as (ws & Hws & ->).
    exists ws. split; [exact Hws|]. lia.
  - split; [exact Hrun|].
    intros producer out_var Hp. apply Hspec. apply elem_of_rev. exact Hp.
Qed.

Lemma prune_op_concat_witness :
  let op := mk_op 2 "concat" [("X", ["p"; "r"; "q"])] [("Out", ["z"])] in
  let ops := [mk_op 1 "relu" [("X", ["a"])] [("Out", ["r"])]; op] in
  let s := set_pruned_list (fun _ => [[]; []]) (initial_state concat_net concat_scope) in
  let prune_ops := fun related idxs => _prune_ops 1 0 related idxs false false in
  prune_op prune_ops 0 ops [1; 3]%Z false false op s
  = prune_ops
      [mk_op 3 "conv2d" [("Filter", ["B.w"]); ("Input", ["z"])] [("Output", ["b"])]]
      [5; 7]%Z s /\
  exists ws, Forall2 (width_at concat_net (all_inputs op)) (seq 0 1) ws /\
             4%Z = total ws.
Proof.
  intros op ops s prune_ops.
  pose proof (prune_op_concat prune_ops 0 ops op [1; 3]%Z false false s
                concat_net eq_refl eq_refl) as H.
  vm_compute (find_concat_idx _ _) in H.
  destruct H as [_ H].
  apply (H 4%Z
           [mk_op 3 "conv2d" [("Filter", ["B.w"]); ("Input", ["z"])] [("Output", ["b"])]]);
    vm_compute; reflexivity.
Defined.

(** ** The dispatcher at a fully-connected layer: what it needs *)

(** The "mul" case reads axes 2 and 3 of the shape of the operator's last
    input that is no parameter, and checks nothing before: if every input
    is a parameter it ends in an AttributeError, and if that input has
    fewer than four axes it ends in an IndexError; in both cases nothing
    has been written. *)
Theorem prune_op_mul_needs_feature_map (prune_ops : list Op -> list Z -> M unit)
    (g : nat) (ops : list Op) (op : Op) (pruned_idxs : list Z)
    (lazy only_graph : bool) (s : State) (gr : Program)
    (fc_input fc_param : option string) :
  type op = "mul" ->
  programs s !! g = Some gr ->
  mul_operands gr (all_inputs op) None None = Ok (fc_input, fc_param) ->
  match fc_input with
  | None =>
      prune_op prune_ops g ops pruned_idxs lazy only_graph op s
      = (Raise AttributeError, s) /\
      forall v, v ∈ all_inputs op -> is_parameter gr v = Ok true
  | Some v =>
      forall in_shape,
        shape_of gr v = Ok in_shape ->
        length in_shape < 4 ->
        prune_op prune_ops g ops pruned_idxs lazy only_graph op s
        = (Raise (IndexError (Z.of_nat (2 `max` length in_shape))
                             (Z.of_nat (length in_shape))), s)
  end.
Proof.
  intros Ht Hg Hmul.
  assert (Hrun : prune_op prune_ops g ops pruned_idxs lazy only_graph op s
    = (let* in_shape :=
         match fc_input with
         | Some v => liftR (shape_of gr v)
         | None => raise AttributeError
         end in
       let* h := liftR (seq_index in_shape 2) in
       let* w := liftR (seq_index in_shape 3) in
       prune_with_accumulators g fc_param (fc_indices (h * w) pruned_idxs) 0
         lazy only_graph) s).
  { unfold prune_op. unfold bind at 1. rewrite Ht.
    change (bool_decide ("mul" ∈ ["conv2d"; "deformable_conv"])) with false.
    cbn [ret String.eqb Ascii.eqb Bool.eqb andb]. cbv iota beta.
    unfold bind at 1. unfold graph_at at 1. rewrite Hg.
    unfold bind at 1. unfold liftR at 1. rewrite Hmul. reflexivity. }
  rewrite Hrun. destruct fc_input as [v|].
  - intros in_shape Hsh Hlen.
    unfold bind at 1. unfold liftR at 1. rewrite Hsh.
    unfold bind at 1. unfold liftR at 1. unfold seq_index at 1.
    destruct (in_shape !! 2) as [h|] eqn:Hh.
    + unfold bind at 1. unfold liftR at 1. unfold seq_index at 1.
      apply lookup_lt_Some in Hh.
      rewrite (lookup_ge_None_2 in_shape 3) by lia.
      replace (2 `max` length in_shape) with 3 by lia. reflexivity.
    + apply lookup_ge_None in Hh.
      replace (2 `max` length in_shape) with 2 by lia. reflexivity.
  - split; [reflexivity|].
    assert (Hgen : forall l a b r2,
              mul_operands gr l a b = Ok (None, r2) ->
              forall v, v ∈ l -> is_parameter gr v = Ok true).
    { clear. induction l as [|x l IH]; intros a b r2 H v Hv; [inversion Hv|].
      simpl in H.
      destruct (is_parameter gr x) as [[|]|e] eqn:Hx; simpl in H; [| |discriminate].
      - apply elem_of_cons in Hv as [->|Hv]; [exact Hx|eapply IH; eauto].
      - destruct (mul_operands_spec _ _ _ _ _ _ H) as [[H1|(v' & H1 & _)] _];
          discriminate. }
    eapply Hgen. exact Hmul.
Qed.

Lemma prune_op_mul_needs_feature_map_witness :
  prune_op (fun _ _ => ret tt) 0 [] [0; 2]%Z false false
    (mk_op 2 "mul" [("X", ["f"]); ("Y", ["fc.w"])] [("Out", ["o"])])
    (initial_state flatten_net ∅)
  = (Raise (IndexError 2 2), initial_state flatten_net ∅).
Proof.
  apply (prune_op_mul_needs_feature_map (fun _ _ => ret tt) 0 []
           (mk_op 2 "mul" [("X", ["f"]); ("Y", ["fc.w"])] [("Out", ["o"])])
           [0; 2]%Z false false (initial_state flatten_net ∅) flatten_net
           (Some "f") (Some "fc.w") eq_refl eq_refl eq_refl [-1; 36]%Z eq_refl).
  simpl. lia.
Defined.

(** Pruning the convolution of [flatten_net] ends in that IndexError. *)
Lemma flatten_net_prune_raises :
  (prune l1_norm 0 ["A.w"] [1 # 2]%Q false true false false
     (initial_state flatten_net ∅)).1
  = Raise (IndexError 2 2).
Proof. vm_compute. reflexivity. Qed.

(** ** Frames above the two functions that prune a parameter list *)

#[global] Instance same_scope_preorder : PreOrder same_scope.
Proof.
  split.
  - intros s. reflexivity.
  - intros s1 s2 s3 H1 H2. unfold same_scope in *. congruence.
Qed.

Lemma prune_run (self : Pruner) (program : nat) (params : list string)
    (ratios : list Q) (lazy only_graph : bool)
    (want_param_backup want_param_shape_backup : bool) (s : State) :
  prune self program params ratios lazy only_graph
    want_param_backup want_param_shape_backup s
  = match programs s !! program with
    | Some p =>
        prune_tail self (length (programs s)) params ratios lazy only_graph
          (prune_start p want_param_backup want_param_shape_backup s)
    | None => (Raise AttributeError, set_pruned_list (fun _ => []) s)
    end.
Proof.
  unfold prune. rewrite bind_run. cbn [modify].
  rewrite bind_run, clone_run. cbn [set_pruned_list programs].
  destruct (programs s !! program) as [p|]; reflexivity.
Qed.

Section FrameAbove.

Context (R : State -> State -> Prop) `{!PreOrder R}.
Variables (self : Pruner) (g : nat) (lazy only_graph : bool).
Hypothesis by_idx_ok :
forall params idx axis,
  respects R (_prune_parameter_by_idx g params idx axis lazy only_graph).
Hypothesis by_ratio_ok :
forall params ratio,
  respects R (_prune_filters_by_ratio self g params ratio lazy only_graph).
Hypothesis logger_ok : forall r, respects R (logger r).
Hypothesis reset_ok : respects R (modify (set_pruned_list (fun _ => [[]; []]))).
Hypothesis update_graph_ok : forall f, respects R (update_graph g f).

Lemma above_in_pruned_list (name : string) (axis : nat) :
respects R (in_pruned_list name axis).
Proof. unfold in_pruned_list. frame. Qed.

Local Hint Resolve above_in_pruned_list : core.

Lemma above_prune_with_accumulators (param : option string) (idx : list Z)
  (axis : nat) :
respects R (prune_with_accumulators g param idx axis lazy only_graph).
Proof. unfold prune_with_accumulators. frame. Qed.

Local Hint Resolve above_prune_with_accumulators : core.

Lemma above_prune_parameter_inputs (op : Op) (idx : list Z) (axis : nat) :
respects R (prune_parameter_inputs g op idx axis lazy only_graph).
Proof. unfold prune_parameter_inputs. frame. Qed.

Local Hint Resolve above_prune_parameter_inputs : core.

Lemma above_prune_ops (depth : nat) (ops : list Op) (idxs : list Z) :
respects R (_prune_ops depth g ops idxs lazy only_graph).
Proof.
revert ops idxs. induction depth as [|depth IH]; intros ops idxs; simpl.
- frame.
- unfold prune_op. frame.
Qed.

Local Hint Resolve above_prune_ops : core.

Lemma above_forward_pruning_ralated_params (param : option string)
  (ratio : option Q) (idxs : option (list Z)) :
respects R
  (_forward_pruning_ralated_params self g param ratio idxs lazy only_graph).
Proof. unfold _forward_pruning_ralated_params. frame. Qed.

Local Hint Resolve above_forward_pruning_ralated_params : core.

Lemma above_prune_parameters (params : list string) (ratios : list Q) :
respects R (_prune_parameters self g params ratios lazy only_graph).
Proof. unfold _prune_parameters. frame. Qed.

Lemma above_fix_groups (pos : nat) : respects R (fix_groups g pos).
Proof. unfold fix_groups. frame. Qed.

Lemma above_prune_tail (params : list string) (ratios : list Q) :
respects R (prune_tail self g params ratios lazy only_graph).
Proof.
unfold prune_tail.
apply respects_bind; [exact _ | apply above_prune_parameters | intros _].
apply respects_bind; [exact _ | apply respects_graph_at; exact _ | intros gr].
apply respects_bind; [exact _ | | intros _; frame].
apply respects_for_each; [exact _ | intros pos]. apply above_fix_groups.
Qed.

End FrameAbove.

(** *** Graph-only pruning and the scope *)

Lemma modify_keeps_scope (f : State -> State) :
  (forall s, scope (f s) = scope s) -> respects same_scope (modify f).
Proof. intros Hf s. apply Hf. Qed.

Lemma pruned_list_append_keeps_scope (axis : nat) (name : string) :
  respects same_scope (pruned_list_append axis name).
Proof.
  unfold pruned_list_append. frame. apply modify_keeps_scope. reflexivity.
Qed.

Lemma prune_parameter_by_idx_graph_only_keeps_scope (g : nat) (params : list string)
    (idx : list Z) (axis : nat) (lazy : bool) :
  respects same_scope (_prune_parameter_by_idx g params idx axis lazy true).
Proof.
  unfold _prune_parameter_by_idx, var_shape_of, var_set_shape, update_graph,
    backup_value, in_pruned_list.
  cbv iota.
  frame; first [ apply pruned_list_append_keeps_scope
               | apply modify_keeps_scope; reflexivity ].
Qed.

Lemma prune_filters_by_ratio_graph_only_keeps_scope (self : Pruner) (g : nat)
    (params : list string) (ratio : Q) (lazy : bool) :
  respects same_scope (_prune_filters_by_ratio self g params ratio lazy true).
Proof.
  unfold _prune_filters_by_ratio, var_shape_of, var_set_shape, update_graph,
    backup_value, in_pruned_list.
  cbv iota.
  frame; first [ apply pruned_list_append_keeps_scope
               | apply modify_keeps_scope; reflexivity ].
Qed.

(** With [only_graph=True] a call to [prune] leaves the scope as it is:
    whatever the other arguments, and whether the call returns or raises,
    the scope afterwards maps every name to the tensor it had. *)
Theorem prune_only_graph_keeps_scope (self : Pruner) (program : nat)
    (params : list string) (ratios : list Q) (lazy : bool)
    (want_param_backup want_param_shape_backup : bool) (s : State) :
  scope (prune self program params ratios lazy true
           want_param_backup want_param_shape_backup s).2 = scope s.
Proof.
  rewrite prune_run. destruct (programs s !! program) as [p|]; [|reflexivity].
  pose proof (above_prune_tail same_scope self (length (programs s)) lazy true)
    as Htail.
  unfold respects, same_scope in Htail. rewrite Htail; [reflexivity|..].
  - intros. apply prune_parameter_by_idx_graph_only_keeps_scope.
  - intros. apply prune_filters_by_ratio_graph_only_keeps_scope.
  - intros r s'. reflexivity.
  - intros s'. reflexivity.
  - intros f s'. reflexivity.
Qed.

(** ** The value backup *)

#[global] Instance keeps_backup_inv_preorder (sc0 : gmap string ndarray) :
  PreOrder (keeps_backup_inv sc0).
Proof.
  split.
  - intros s H. exact H.
  - intros s1 s2 s3 H1 H2 H. apply H2, H1, H.
Qed.

#[global] Instance same_scope_and_backup_preorder : PreOrder same_scope_and_backup.
Proof.
  split.
  - intros s. split; reflexivity.
  - intros s1 s2 s3 [H1 H2] [H3 H4]. split; congruence.
Qed.

Section ValueBackup.

Variable sc0 : gmap string ndarray.

Lemma backup_inv_same (s s' : State) :
same_scope_and_backup s s' -> backup_inv sc0 s -> backup_inv sc0 s'.
Proof.
intros [Hsc Hb] (d & Hd & Hall). exists d. rewrite Hb, Hsc. auto.
Qed.

Lemma same_implies_keeps {A} (m : M A) :
respects same_scope_and_backup m -> respects (keeps_backup_inv sc0) m.
Proof. intros H s Hinv. eapply backup_inv_same; [apply H | exact Hinv]. Qed.

Lemma modify_same (f : State -> State) :
(forall s, scope (f s) = scope s) ->
(forall s, param_backup (f s) = param_backup s) ->
respects same_scope_and_backup (modify f).
Proof. intros H1 H2 s. split; [apply H1|apply H2]. Qed.

Lemma pruned_list_append_same (axis : nat) (name : string) :
respects same_scope_and_backup (pruned_list_append axis name).
Proof.
unfold pruned_list_append. frame. apply modify_same; reflexivity.
Qed.

(** Backing up the current tensor of [param] and then storing another one
  keeps the invariant. *)
Lemma backup_then_set (param : string) (t v : ndarray) (s : State) :
backup_inv sc0 s -> scope s !! param = Some t ->
backup_inv sc0 (backup_value param (BackupValue t) s).2 /\
backup_inv sc0 (tensor_set param v (backup_value param (BackupValue t) s).2).2.
Proof.
intros (d & Hd & Hall) Ht.
assert (Hafter : exists d',
          param_backup (backup_value param (BackupValue t) s).2 = Some d' /\
          (exists t0, sc0 !! param = Some t0 /\ d' !! param = Some (BackupValue t0)) /\
          forall name, name <> param -> d' !! name = d !! name).
{ simpl. rewrite Hd. simpl.
  destruct (d !! param) as [b|] eqn:Hb.
  - exists d. split; [reflexivity|]. split; [|auto].
    destruct (Hall param) as [[Hnone _]|(t0 & Ht0 & Hb')]; [congruence|].
    exists t0. split; [exact Ht0|congruence].
  - exists (<[param := BackupValue t]> d). split; [reflexivity|]. split.
    + destruct (Hall param) as [[_ Hsame]|(t0 & _ & Hb')]; [|congruence].
      exists t. split; [congruence|apply lookup_insert_eq].
    + intros name Hne. apply lookup_insert_ne. congruence. }
destruct Hafter as (d' & Hd' & Hparam & Hother).
split.
- exists d'. split; [exact Hd'|]. intros name.
  destruct (decide (name = param)) as [->|Hne]; [right; exact Hparam|].
  rewrite (Hother name Hne). apply Hall.
- exists d'. split; [exact Hd'|]. intros name.
  destruct (decide (name = param)) as [->|Hne]; [right; exact Hparam|].
  rewrite (Hother name Hne). simpl. rewrite lookup_insert_ne by congruence.
  apply Hall.
Qed.

Ltac same_frame :=
unfold var_shape_of, var_set_shape, update_graph, backup_shape, logger;
frame;
first [ apply pruned_list_append_same | apply modify_same; reflexivity ].

Lemma prune_parameter_by_idx_keeps_backup (g : nat) (params : list string)
  (idx : list Z) (axis : nat) (lazy : bool) :
respects (keeps_backup_inv sc0) (_prune_parameter_by_idx g params idx axis lazy false).
Proof.
unfold _prune_parameter_by_idx. cbv iota.
apply respects_bind; [exact _ | frame | intros p0].
apply respects_bind; [exact _ | unfold in_pruned_list; frame | intros skip].
destruct skip; [frame|].
apply respects_for_each; [exact _ | intros param].
intros s Hinv.
rewrite bind_run. unfold find_tensor at 1.
destruct (scope s !! param) as [t|] eqn:Ht; [|exact Hinv].
rewrite bind_run.
set (s1 := (backup_value param (BackupValue t) s).2).
change (backup_value param (BackupValue t) s) with (Ok tt, s1).
cbv iota beta.
rewrite bind_run. unfold liftR at 1.
destruct (_prune_tensor t idx axis lazy) as [t'|e];
  [|apply (backup_then_set param t t s Hinv Ht)].
rewrite bind_run.
set (s2 := (tensor_set param t' s1).2).
change (tensor_set param t' s1) with (Ok tt, s2).
cbv iota beta.
assert (Hinv2 : backup_inv sc0 s2) by apply (backup_then_set param t t' s Hinv Ht).
match goal with
| |- backup_inv _ (?m s2).2 =>
    assert (Hk : respects same_scope_and_backup m) by same_frame
end.
eapply backup_inv_same; [apply Hk|exact Hinv2].
Qed.

Lemma prune_filters_by_ratio_keeps_backup (self : Pruner) (g : nat)
  (params : list string) (ratio : Q) (lazy : bool) :
respects (keeps_backup_inv sc0) (_prune_filters_by_ratio self g params ratio lazy false).
Proof.
unfold _prune_filters_by_ratio. cbv iota.
apply respects_bind; [exact _ | frame | intros p0].
apply respects_bind; [exact _ | unfold in_pruned_list; frame | intros skip].
destruct skip; [frame|].
apply respects_bind; [exact _ | frame | intros param_t].
apply respects_bind; [exact _ | frame | intros pruned_idx].
apply respects_bind; [exact _ | | intros; frame].
apply respects_for_fold; [exact _ | intros param pruned_param].
intros s Hinv.
rewrite bind_run. unfold find_tensor at 1.
destruct (scope s !! param) as [t|] eqn:Ht; [|exact Hinv].
rewrite bind_run.
set (s1 := (backup_value param (BackupValue t) s).2).
change (backup_value param (BackupValue t) s) with (Ok tt, s1).
cbv iota beta.
assert (Hinv1 : backup_inv sc0 s1) by apply (backup_then_set param t t s Hinv Ht).
assert (Hstep : forall (value : ndarray) (s1' : State) (pp : option ndarray),
          same_scope_and_backup s1 s1' ->
          backup_inv sc0
            ((bind (tensor_set param value) (fun _ =>
              let* ori_shape := var_shape_of g param in
              bind (backup_shape param ori_shape) (fun _ =>
              let* n := liftR (seq_index (shape value) 0) in
              let* new_shape :=
                liftR (list_update ori_shape 0 (fun _ => Z.of_nat n)) in
              bind (var_set_shape g param new_shape) (fun _ =>
              bind (pruned_list_append 0 param) (fun _ => ret pp))))) s1').2).
{ intros value s1' pp Hsame.
  rewrite bind_run.
  set (s2 := (tensor_set param value s1').2).
  change (tensor_set param value s1') with (Ok tt, s2).
  cbv iota beta.
  assert (Hinv2 : backup_inv sc0 s2).
  { apply (backup_inv_same (tensor_set param value s1).2).
    - destruct Hsame as [Hsc Hpb]. subst s2.
      split; simpl; [rewrite Hsc|rewrite Hpb]; reflexivity.
    - apply (backup_then_set param t value s Hinv Ht). }
  match goal with
  | |- backup_inv _ (?m s2).2 =>
      assert (Hk : respects same_scope_and_backup m) by same_frame
  end.
  eapply backup_inv_same; [apply Hk|exact Hinv2]. }
rewrite bind_run.
destruct (_prune_tensor t pruned_idx 0 lazy) as [t'|e].
- cbn [ret]. rewrite bind_run. cbn [ret].
  apply Hstep. reflexivity.
- destruct e; try exact Hinv1.
  rewrite bind_run.
  set (s1' := (logger (ErrorPruning param (IndexError i n)) s1).2).
  change (logger (ErrorPruning param (IndexError i n)) s1) with (Ok tt, s1').
  cbv iota beta. cbn [ret].
  assert (Hsame : same_scope_and_backup s1 s1') by (split; reflexivity).
  destruct pruned_param as [stale|].
  + rewrite bind_run. cbn [ret]. apply Hstep. exact Hsame.
  + rewrite bind_run. cbn [raise]. eapply backup_inv_same; eauto.
Qed.

End ValueBackup.

Lemma gets_ok_inv {A} (f : State -> A) (s s' : State) (a : A) :
  gets f s = (Ok a, s') -> a = f s /\ s' = s.
Proof. unfold gets. intros [= <- <-]. auto. Qed.

(** When [prune] is asked for a value backup and prunes values
    ([param_backup=True], [only_graph=False]) and returns, the backup it
    returns undoes the call on the scope: a name without an entry has the
    tensor it had before the call, an entry is the tensor its name had
    before the call, and putting the entries back gives the scope as it was
    before. *)
Theorem prune_param_backup_restores (self : Pruner) (program : nat)
    (params : list string) (ratios : list Q) (lazy want_param_shape_backup : bool)
    (s s' : State) (graph : nat) (pb : option (gmap string Backup))
    (psb : option (gmap string (list Z))) :
  prune self program params ratios lazy false true want_param_shape_backup s
  = (Ok (graph, pb, psb), s') ->
  exists d,
    pb = Some d /\
    restore d (scope s') = scope s /\
    (forall name, d !! name = None -> scope s' !! name = scope s !! name) /\
    (forall name b, d !! name = Some b ->
       exists t0, b = BackupValue t0 /\ scope s !! name = Some t0).
Proof.
  rewrite prune_run. destruct (programs s !! program) as [p|]; [|discriminate].
  intros Hrun.
  set (s1 := prune_start p true want_param_shape_backup s) in *.
  assert (Hinv1 : backup_inv (scope s) s1).
  { exists ∅. split; [reflexivity|]. intros name. left.
    split; [apply lookup_empty|reflexivity]. }
  pose proof (above_prune_tail (keeps_backup_inv (scope s)) self
                (length (programs s)) lazy false) as Htail.
  assert (Hinv : backup_inv (scope s) s').
  { specialize (Htail
      ltac:(intros; apply prune_parameter_by_idx_keeps_backup)
      ltac:(intros; apply prune_filters_by_ratio_keeps_backup)
      ltac:(intros r; apply same_implies_keeps; intros s0; split; reflexivity)
      ltac:(apply same_implies_keeps; intros s0; split; reflexivity)
      ltac:(intros f; apply same_implies_keeps; intros s0; split; reflexivity)
      params ratios s1).
    rewrite Hrun in Htail. apply Htail, Hinv1. }
  assert (Hpb : pb = param_backup s').
  { unfold prune_tail in Hrun.
    apply bind_ok_inv in Hrun as (? & ? & _ & Hrun).
    apply bind_ok_inv in Hrun as (? & ? & _ & Hrun).
    apply bind_ok_inv in Hrun as (? & ? & _ & Hrun).
    apply bind_ok_inv in Hrun as (pb' & ? & Hg1 & Hrun).
    apply gets_ok_inv in Hg1 as [-> ->].
    apply bind_ok_inv in Hrun as (psb' & ? & Hg2 & Hrun).
    apply gets_ok_inv in Hg2 as [-> ->].
    injection Hrun as _ <- _ <-. reflexivity. }
  destruct Hinv as (d & Hd & Hall).
  exists d. split; [congruence|]. split; [|split].
  - apply map_eq. intros name. unfold restore.
    rewrite lookup_union, lookup_omap.
    destruct (Hall name) as [[Hnone Hsame]|(t0 & Ht0 & Hb)].
    + rewrite Hnone. simpl. rewrite Hsame.
      destruct (scope s !! name); reflexivity.
    + rewrite Hb, Ht0. simpl. destruct (scope s' !! name); reflexivity.
  - intros name Hnone.
    destruct (Hall name) as [[_ Hsame]|(t0 & _ & Hb)]; [exact Hsame|congruence].
  - intros name b Hb.
    destruct (Hall name) as [[Hnone _]|(t0 & Ht0 & Hb')]; [congruence|].
    exists t0. split; [congruence|exact Ht0].
Qed.

(** Pruning [A.w] in [conv_bn_net] with a value backup. *)
Lemma prune_param_backup_restores_witness :
  let s := initial_state conv_bn_net conv_bn_scope in
  let r := prune l1_norm 0 ["A.w"] [1 # 2]%Q false false true false s in
  exists d,
    param_backup r.2 = Some d /\
    restore d (scope r.2) = scope s /\
    (forall name, d !! name = None -> scope r.2 !! name = scope s !! name) /\
    (forall name b, d !! name = Some b ->
       exists t0, b = BackupValue t0 /\ scope s !! name = Some t0).
Proof.
  intros s r.
  apply (prune_param_backup_restores l1_norm 0 ["A.w"] [1 # 2]%Q false false
           s r.2 1 (param_backup r.2) None).
  apply run_result. vm_compute. reflexivity.
Defined.

(** The names backed up by that run: the pruned filter, the four tensors of
    the batch normalisation, and the next filter. *)
Lemma conv_bn_backup_names :
  (fun d => bool_decide
     (dom d = list_to_set (C:=gset string)
                ["A.w"; "B.w"; "bn.b"; "bn.m"; "bn.s"; "bn.v"])) <$>
    param_backup (prune l1_norm 0 ["A.w"] [1 # 2]%Q false false true false
                    (initial_state conv_bn_net conv_bn_scope)).2
  = Some true.
Proof. vm_compute. reflexivity. Qed.

(** ** What [_prune_parameters] leaves in the registry *)

Lemma prune_parameters_unfold (self : Pruner) (g : nat) (params : list string)
    (ratios : list Q) (lazy only_graph : bool) :
  _prune_parameters self g params ratios lazy only_graph
  = if negb (length params =? length ratios) then raise AssertionError
    else bind (modify (set_pruned_list (fun _ => [[]; []]))) (fun _ =>
         for_each (zip params ratios) (prune_parameters_turn self g lazy only_graph)).
Proof. reflexivity. Qed.

Lemma for_each_app {A} (l1 l2 : list A) (body : A -> M unit) (s : State) :
  for_each (l1 ++ l2) body s
  = bind (for_each l1 body) (fun _ => for_each l2 body) s.
Proof.
  revert s. induction l1 as [|x l1 IH]; intros s; simpl.
  - reflexivity.
  - rewrite !bind_run. destruct (body x s) as [[[]|e] s1]; [|reflexivity].
    rewrite IH. reflexivity.
Qed.

Lemma registered_grows (p : string) (axis : nat) (s s' : State) :
  registry_grows s s' -> registered p axis s -> registered p axis s'.
Proof. intros Hg (l & Hl & Hin). exact (Hg _ _ _ Hl Hin). Qed.

Lemma in_pruned_list_ok_inv (name : string) (axis : nat) (s s' : State) (b : bool) :
  in_pruned_list name axis s = (Ok b, s') ->
  s' = s /\ (b = true <-> registered name axis s).
Proof.
  rewrite in_pruned_list_run.
  destruct (pruned_list s !! axis) as [l|] eqn:Hl; [|discriminate].
  intros [= <- <-]. split; [reflexivity|].
  rewrite bool_decide_eq_true. unfold registered. rewrite Hl. split.
  - intros Hin. eauto.
  - intros (l' & [= <-] & Hin). exact Hin.
Qed.

Lemma pruned_list_append_registers (axis : nat) (name : string) (s s' : State) :
  pruned_list_append axis name s = (Ok tt, s') -> registered name axis s'.
Proof. intros H. apply pruned_list_append_ok_inv in H as [_ H]. exact H. Qed.

Section Registers.

Variables (self : Pruner) (g : nat) (lazy only_graph : bool).

Ltac grows :=
first [ apply pruned_list_append_grows
      | apply modify_keeps_registry; reflexivity ].

Lemma prune_filters_by_ratio_grows (params : list string) (ratio : Q) :
respects registry_grows
  (_prune_filters_by_ratio self g params ratio lazy only_graph).
Proof. apply respects_prune_filters_by_ratio; try exact _; intros; grows. Qed.

(** A call of [_prune_filters_by_ratio] that returns leaves the first name
  registered for axis 0. *)
Lemma prune_filters_by_ratio_registers (p0 : string) (rest : list string)
  (ratio : Q) (s s' : State) (r : option (list Z)) :
_prune_filters_by_ratio self g (p0 :: rest) ratio lazy only_graph s = (Ok r, s') ->
registered p0 0 s'.
Proof.
unfold _prune_filters_by_ratio. intros H.
apply bind_ok_inv in H as (p & s1 & Hp & H).
apply liftR_ok_inv in Hp as [Hp ->]. injection Hp as <-.
apply bind_ok_inv in H as (skip & s1 & Hskip & H).
apply in_pruned_list_ok_inv in Hskip as [-> Hskip].
destruct skip.
{ injection H as _ <-. apply Hskip. reflexivity. }
destruct only_graph.
- apply bind_ok_inv in H as (sh0 & s1 & _ & H).
  apply bind_ok_inv in H as (n0 & s2 & _ & H).
  apply bind_ok_inv in H as ([] & s3 & Hloop & H).
  injection H as _ <-.
  simpl in Hloop.
  apply bind_ok_inv in Hloop as ([] & s4 & Hturn & Hloop).
  apply prune_parameter_by_idx_graph_turn in Hturn.
  match type of Hloop with
  | for_each ?l ?b _ = _ =>
      assert (Hgrow : respects registry_grows (for_each l b))
  end.
  { apply respects_for_each; [exact _|intros].
    unfold var_shape_of, var_set_shape, update_graph, backup_value.
    frame; grows. }
  specialize (Hgrow s4). rewrite Hloop in Hgrow.
  eapply registered_grows; [exact Hgrow|exact Hturn].
- apply bind_ok_inv in H as (param_t & s1 & _ & H).
  apply bind_ok_inv in H as (pruned_idx & s2 & _ & H).
  apply bind_ok_inv in H as (last & s3 & Hloop & H).
  injection H as _ <-.
  simpl in Hloop.
  apply bind_ok_inv in Hloop as (pp & s4 & Hturn & Hloop).
  assert (Hreg : registered p0 0 s4).
  { apply bind_ok_inv in Hturn as (? & ? & _ & Hturn).
    apply bind_ok_inv in Hturn as (? & ? & _ & Hturn).
    apply bind_ok_inv in Hturn as (? & ? & _ & Hturn).
    apply bind_ok_inv in Hturn as (? & ? & _ & Hturn).
    apply bind_ok_inv in Hturn as (? & ? & _ & Hturn).
    apply bind_ok_inv in Hturn as (? & ? & _ & Hturn).
    apply bind_ok_inv in Hturn as (? & ? & _ & Hturn).
    apply bind_ok_inv in Hturn as (? & ? & _ & Hturn).
    apply bind_ok_inv in Hturn as (? & ? & _ & Hturn).
    apply bind_ok_inv in Hturn as (? & ? & _ & Hturn).
    apply bind_ok_inv in Hturn as ([] & ? & Happ & Hturn).
    injection Hturn as _ <-.
    eapply pruned_list_append_registers. exact Happ. }
  match type of Hloop with
  | for_fold ?l ?c ?b _ = _ =>
      assert (Hgrow : respects registry_grows (for_fold l c b))
  end.
  { apply respects_for_fold; [exact _|intros].
    unfold var_shape_of, var_set_shape, update_graph, backup_value, backup_shape,
      tensor_set, logger.
    frame; grows. }
  specialize (Hgrow s4). rewrite Hloop in Hgrow.
  eapply registered_grows; [exact Hgrow|exact Hreg].
Qed.

(** So does a call of [_forward_pruning_ralated_params] with a ratio. *)
Lemma forward_pruning_registers (param : option string) (ratio : Q)
  (s s' : State) :
_forward_pruning_ralated_params self g param (Some ratio) None lazy only_graph s
= (Ok tt, s') ->
exists name, param = Some name /\ registered name 0 s'.
Proof.
unfold _forward_pruning_ralated_params. intros H.
destruct param as [name|]; [|discriminate].
exists name. split; [reflexivity|].
apply bind_ok_inv in H as (skip & s1 & Hskip & H).
apply in_pruned_list_ok_inv in Hskip as [-> Hskip].
destruct skip.
{ injection H as <-. apply Hskip. reflexivity. }
apply bind_ok_inv in H as (gr & s1 & _ & H).
apply bind_ok_inv in H as (related & s2 & _ & H).
apply bind_ok_inv in H as (idxs & s3 & Hratio & H).
apply bind_ok_inv in Hratio as (acc & s4 & _ & Hratio).
apply prune_filters_by_ratio_registers in Hratio.
destruct idxs as [idxs|]; [|discriminate].
pose proof (prune_ops_grows g recursion_limit related idxs lazy only_graph s3)
  as Hgrow.
rewrite H in Hgrow. eapply registered_grows; [exact Hgrow|exact Hratio].
Qed.

Lemma prune_parameters_turn_grows (pr : string * Q) :
respects registry_grows (prune_parameters_turn self g lazy only_graph pr).
Proof.
assert (Hf : forall param ratio idxs,
          respects registry_grows
            (_forward_pruning_ralated_params self g param ratio idxs lazy only_graph))
  by (intros; apply forward_pruning_ralated_params_grows).
assert (Hl : forall r, respects registry_grows (logger r))
  by (intros; apply modify_keeps_registry; reflexivity).
assert (Hi : forall name axis, respects registry_grows (in_pruned_list name axis))
  by (intros; unfold in_pruned_list; frame).
unfold prune_parameters_turn. frame.
Qed.

(** A turn of the loop that returns leaves its name registered for axis 0. *)
Lemma prune_parameters_turn_registers (p : string) (ratio : Q) (s s' : State) :
prune_parameters_turn self g lazy only_graph (p, ratio) s = (Ok tt, s') ->
registered p 0 s'.
Proof.
unfold prune_parameters_turn. cbn [fst snd]. intros H.
apply bind_ok_inv in H as (skip & s1 & Hskip & H).
apply in_pruned_list_ok_inv in Hskip as [-> Hskip].
destruct skip.
{ apply modify_ok_inv in H as ->. apply Hskip. reflexivity. }
apply bind_ok_inv in H as ([] & s1 & _ & H).
apply bind_ok_inv in H as (gr & s2 & _ & H).
apply bind_ok_inv in H as ([] & s3 & Hfwd & H).
apply forward_pruning_registers in Hfwd as (name & Hname & Hreg).
assert (name = p) as ->.
{ unfold var_handle in Hname. destruct (var gr p); congruence. }
apply bind_ok_inv in H as (gr' & s4 & Hgr' & H).
apply graph_at_ok_inv in Hgr' as [_ ->].
match type of H with
| for_each ?l ?b _ = _ =>
    assert (Hgrow : respects registry_grows (for_each l b))
end.
{ assert (Hf : forall param ratio idxs,
            respects registry_grows
              (_forward_pruning_ralated_params self g param ratio idxs lazy
                 only_graph))
    by (intros; apply forward_pruning_ralated_params_grows).
  frame. }
specialize (Hgrow s3). rewrite H in Hgrow.
eapply registered_grows; [exact Hgrow|exact Hreg].
Qed.

Lemma prune_parameters_loop_registers (l : list (string * Q)) (s s' : State) :
for_each l (prune_parameters_turn self g lazy only_graph) s = (Ok tt, s') ->
forall p, p ∈ l.*1 -> registered p 0 s'.
Proof.
revert s. induction l as [|[q r] l IH]; intros s H p Hp; simpl in *.
- inversion Hp.
- apply bind_ok_inv in H as ([] & s1 & Hturn & Hloop).
  apply elem_of_cons in Hp as [->|Hp]; [|eapply IH; eauto].
  apply prune_parameters_turn_registers in Hturn.
  assert (Hgrow : respects registry_grows
            (for_each l (prune_parameters_turn self g lazy only_graph)))
    by (apply respects_for_each; [exact _|apply prune_parameters_turn_grows]).
  specialize (Hgrow s1). rewrite Hloop in Hgrow.
  eapply registered_grows; [exact Hgrow|exact Hturn].
Qed.

(** When [_prune_parameters] returns, every requested name is in the
  registry of axis 0 (it was pruned, or found pruned already).  So a name
  asked for once more at the end of the list is only skipped: the call
  returns the same state, with one more INFO record "Skip". *)
Theorem prune_parameters_registers (params : list string) (ratios : list Q)
  (s s' : State) :
_prune_parameters self g params ratios lazy only_graph s = (Ok tt, s') ->
(forall p, p ∈ params -> registered p 0 s') /\
(forall p r, p ∈ params ->
   _prune_parameters self g (params ++ [p]) (ratios ++ [r]) lazy only_graph s
   = (Ok tt, set_log (fun l => l ++ [InfoSkip p]) s')).
Proof.
rewrite prune_parameters_unfold. intros H.
destruct (length params =? length ratios) eqn:Hlen; [|discriminate].
apply Nat.eqb_eq in Hlen. cbn [negb] in H.
rewrite bind_run in H. cbn [modify] in H.
set (s0 := set_pruned_list (fun _ => [[]; []]) s) in *.
assert (Hreg : forall p, p ∈ params -> registered p 0 s').
{ intros p Hp. eapply prune_parameters_loop_registers; [exact H|].
  rewrite fst_zip by lia. exact Hp. }
split; [exact Hreg|].
intros p r Hp. rewrite prune_parameters_unfold.
rewrite !length_app, Hlen, Nat.eqb_refl. cbn [negb].
rewrite bind_run. cbn [modify]. fold s0.
rewrite zip_with_app by exact Hlen.
rewrite for_each_app, bind_run, H.
cbn [zip_with for_each]. rewrite bind_run.
unfold prune_parameters_turn at 1. cbn [fst snd].
rewrite bind_run, in_pruned_list_run.
destruct (Hreg p Hp) as (l & Hl & Hin). rewrite Hl.
rewrite bool_decide_eq_true_2 by exact Hin. reflexivity.
Qed.

End Registers.

Lemma prune_parameters_registers_witness :
  let s := initial_state conv_bn_net conv_bn_scope in
  let r := _prune_parameters l1_norm 0 ["A.w"] [1 # 2]%Q false false s in
  registered "A.w" 0 r.2 /\
  _prune_parameters l1_norm 0 (["A.w"] ++ ["A.w"]) ([1 # 2] ++ [1 # 4])%Q false false s
  = (Ok tt, set_log (fun l => l ++ [InfoSkip "A.w"]) r.2).
Proof.
  intros s r.
  assert (Hrun : _prune_parameters l1_norm 0 ["A.w"] [1 # 2]%Q false false s
                 = (Ok tt, r.2)) by (apply run_result; vm_compute; reflexivity).
  destruct (prune_parameters_registers l1_norm 0 false false ["A.w"] [1 # 2]%Q
              s r.2 Hrun) as [Hreg Hdup].
  split; [apply Hreg; left|apply Hdup; left].
Defined.

(** ** Arguments [prune] refuses *)

(** A list of ratios that is not as long as the list of names fails the
    assertion of [_prune_parameters]: [prune] raises AssertionError, and
    neither the scope, nor the log, nor any program object that existed is
    changed. *)
Theorem prune_length_mismatch (self : Pruner) (program : nat) (p : Program)
    (params : list string) (ratios : list Q) (lazy only_graph : bool)
    (want_param_backup want_param_shape_backup : bool) (s : State) :
  programs s !! program = Some p ->
  length params <> length ratios ->
  exists s',
    prune self program params ratios lazy only_graph
      want_param_backup want_param_shape_backup s = (Raise AssertionError, s') /\
    scope s' = scope s /\ log s' = log s /\
    forall g, g < length (programs s) -> programs s' !! g = programs s !! g.
Proof.
  intros Hp Hlen. rewrite prune_run, Hp.
  unfold prune_tail. rewrite bind_run, prune_parameters_unfold.
  apply Nat.eqb_neq in Hlen. rewrite Hlen. cbn [negb raise].
  eexists. split; [reflexivity|]. split; [reflexivity|]. split; [reflexivity|].
  intros g Hg. simpl. apply lookup_app_l. exact Hg.
Qed.

Lemma prune_length_mismatch_witness :
  exists s',
    prune l1_norm 0 ["A.w"; "B.w"] [1 # 2]%Q false false false false
      (initial_state conv_bn_net conv_bn_scope) = (Raise AssertionError, s') /\
    scope s' = conv_bn_scope /\ log s' = [] /\
    forall g, g < 1 -> programs s' !! g = [conv_bn_net] !! g.
Proof.
  apply (prune_length_mismatch l1_norm 0 conv_bn_net ["A.w"; "B.w"] [1 # 2]%Q
           false false false false (initial_state conv_bn_net conv_bn_scope)).
  - reflexivity.
  - simpl. lia.
Defined.

(** ** The forward search misses no consumer *)

Section SearchClosure.

Variable graph : Program.

Lemma visited_get_ok_inv (v : gmap nat bool) (k : nat) (b : bool) :
visited_get v k = Ok b -> v !! k = Some b.
Proof. unfold visited_get. destruct (v !! k); intros [= <-]; reflexivity. Qed.

Lemma unvisited_of_complete (v : gmap nat bool) (l r : list Op) :
unvisited_of v l = Ok r ->
forall q, q ∈ l -> is_bwd_op q = false -> q ∈ r \/ v !! idx q = Some true.
Proof.
revert r. induction l as [|op l IH]; intros r H q Hq Hbwd; simpl in H.
- inversion Hq.
- destruct (visited_get v (idx op)) as [b|e] eqn:Hb; [|discriminate].
  simpl in H. destruct (unvisited_of v l) as [rest|e]; [|discriminate].
  simpl in H. injection H as <-.
  apply visited_get_ok_inv in Hb.
  apply elem_of_cons in Hq as [->|Hq].
  + rewrite Hbwd. destruct b; simpl; [right; exact Hb|left; left].
  + destruct (IH rest eq_refl q Hq Hbwd) as [Hin|Hv]; [|right; exact Hv].
    left. destruct (negb b && negb (is_bwd_op op)); [right|]; exact Hin.
Qed.

Lemma push_unvisited_closure (next : list Op) (st st' : Search) :
push_unvisited next st = Ok st' ->
(forall k, visited st !! k = Some true -> visited st' !! k = Some true) /\
(forall q, q ∈ next -> marked st' q) /\
exists new,
  visit_path st' = visit_path st ++ new /\
  stack st' = stack st ++ new /\
  forall k, visited st' !! k = Some true ->
    visited st !! k = Some true \/ exists p, p ∈ new /\ idx p = k.
Proof.
revert st. induction next as [|op next IH]; intros st H; simpl in H.
- injection H as <-. split; [auto|]. split; [intros q Hq; inversion Hq|].
  exists []. rewrite !app_nil_r. auto.
- destruct (visited_get (visited st) (idx op)) as [b|e] eqn:Hb; [|discriminate].
  simpl in H. apply visited_get_ok_inv in Hb.
  destruct b; simpl in H.
  + destruct (IH _ H) as (Hmono & Hmarks & new & Hpath & Hstack & Hexp).
    split; [exact Hmono|]. split.
    * intros q Hq. apply elem_of_cons in Hq as [->|Hq]; [|auto].
      apply Hmono, Hb.
    * exists new. auto.
  + destruct (IH _ H) as (Hmono & Hmarks & new & Hpath & Hstack & Hexp).
    simpl in *. split; [|split].
    * intros k Hk. apply Hmono.
      destruct (decide (k = idx op)) as [->|Hne]; [apply lookup_insert_eq|].
      rewrite lookup_insert_ne by congruence. exact Hk.
    * intros q Hq. apply elem_of_cons in Hq as [->|Hq]; [|auto].
      apply Hmono, lookup_insert_eq.
    * exists (op :: new). rewrite Hpath, Hstack, <- !app_assoc.
      split; [reflexivity|]. split; [reflexivity|].
      intros k Hk. destruct (Hexp k Hk) as [Hold|(p & Hp & Hidx)].
      -- destruct (decide (k = idx op)) as [->|Hne].
         ++ right. exists op. split; [left|reflexivity].
         ++ rewrite lookup_insert_ne in Hold by congruence. left. exact Hold.
      -- right. exists p. split; [right; exact Hp|exact Hidx].
Qed.

(** Expanding [top]: its consumers get marked, and what was marked stays. *)
Lemma expand_closure (top : Op) (st st' : Search) :
(let? next := _get_next_unvisited_op graph (visited st) top in
 push_unvisited next st) = Ok st' ->
expanded graph st' top /\
(forall k, visited st !! k = Some true -> visited st' !! k = Some true) /\
exists new,
  visit_path st' = visit_path st ++ new /\
  stack st' = stack st ++ new /\
  forall k, visited st' !! k = Some true ->
    visited st !! k = Some true \/ exists p, p ∈ new /\ idx p = k.
Proof.
unfold _get_next_unvisited_op.
destruct (unvisited_of (visited st) (next_ops graph top)) as [next|e] eqn:Hnext;
  [|discriminate].
cbn [rbind]. intros H.
destruct (push_unvisited_closure _ _ _ H) as (Hmono & Hmarks & Hnew).
split; [|split; [exact Hmono|exact Hnew]].
intros q Hq Hbwd.
destruct (unvisited_of_complete _ _ _ Hnext q Hq Hbwd) as [Hin|Hv].
- apply Hmarks, Hin.
- apply Hmono, Hv.
Qed.

Lemma expanded_mono (st st' : Search) (p : Op) :
(forall k, visited st !! k = Some true -> visited st' !! k = Some true) ->
expanded graph st p -> expanded graph st' p.
Proof. intros Hmono He q Hq Hb. apply Hmono, He; assumption. Qed.

Lemma explained_push (starts : list Op) (st st' : Search) (new : list Op) :
explained starts st ->
visit_path st' = visit_path st ++ new ->
(forall k, visited st' !! k = Some true ->
   visited st !! k = Some true \/ exists p, p ∈ new /\ idx p = k) ->
explained starts st'.
Proof.
intros He Hpath Hexp k Hk. rewrite Hpath.
destruct (Hexp k Hk) as [Hold|(p & Hp & Hidx)].
- destruct (He k Hold) as [(p & Hp & Hidx)|Hs]; [|right; exact Hs].
  left. exists p. split; [apply elem_of_app; auto|exact Hidx].
- left. exists p. split; [apply elem_of_app; auto|exact Hidx].
Qed.

Lemma search_loop_closure (starts : list Op) (fuel j : nat) (st st' : Search) :
closure_inv graph starts j st ->
search_loop fuel graph st = Ok st' ->
exists j', closure_inv graph starts j' st'.
Proof.
revert j st. induction fuel as [|fuel IH]; intros j st Hinv H; simpl in H.
- injection H as <-. eauto.
- destruct (stack st) as [|top rest] eqn:Hst.
  + injection H as <-. eauto.
  + destruct (search_step graph top _) as [st1|e] eqn:Hstep; [|discriminate].
    cbn [rbind] in H. apply (IH (S j) st1); [|exact H].
    destruct Hinv as (Hexp & Hstarts & Hdone & Hstack).
    rewrite Hst in Hstack.
    assert (Htop : visit_path st !! j = Some top).
    { rewrite <- (Nat.add_0_r j), <- lookup_drop, <- Hstack. reflexivity. }
    assert (Hrest : rest = drop (S j) (visit_path st)).
    { change rest with (drop 1 (top :: rest)).
      rewrite Hstack, drop_drop. f_equal. lia. }
    unfold search_step in Hstep.
    destruct (is_boundary (type top)) eqn:Hb.
    * injection Hstep as <-. split; [exact Hexp|]. split; [exact Hstarts|].
      split; [|exact Hrest].
      cbn [visit_path]. intros i p Hi Hp Hnb.
      destruct (decide (i = j)) as [->|Hne].
      -- rewrite Htop in Hp. injection Hp as <-. congruence.
      -- apply (Hdone i p); [lia|exact Hp|exact Hnb].
    * apply expand_closure in Hstep
        as (Htopdone & Hmono & new & Hpath & Hstack1 & Hnewexp).
      cbn [visited stack visit_path] in *.
      split; [eapply explained_push; eauto|].
      split; [intros s Hs; eapply expanded_mono; [exact Hmono|auto]|].
      split.
      -- intros i p Hi Hp Hnb. rewrite Hpath in Hp.
         assert (i < length (visit_path st)) by (apply lookup_lt_Some in Htop; lia).
         rewrite lookup_app_l in Hp by assumption.
         destruct (decide (i = j)) as [->|Hne].
         ++ rewrite Htop in Hp. injection Hp as <-. exact Htopdone.
         ++ eapply expanded_mono; [exact Hmono|].
            apply (Hdone i p); [lia|exact Hp|exact Hnb].
      -- rewrite Hstack1, Hpath, Hrest.
         apply lookup_lt_Some in Htop.
         rewrite drop_app_le by lia. reflexivity.
Qed.

Lemma fresh_visited_false (k : nat) (b : bool) :
fresh_visited graph !! k = Some b -> b = false.
Proof.
unfold fresh_visited. intros H.
apply elem_of_list_to_map_2 in H.
apply list_elem_of_fmap in H as (op & [= _ ->] & _). reflexivity.
Qed.

Lemma explained_more (acc more : list Op) (st : Search) :
explained acc st -> explained (acc ++ more) st.
Proof.
intros He k Hk. destruct (He k Hk) as [Hp|(s & Hs & Hidx)]; [left; exact Hp|].
right. exists s. split; [apply elem_of_app; auto|exact Hidx].
Qed.

Lemma start_from_var_closure (name : string) (l : list Op) (acc : list Op)
  (st st' : Search) :
explained acc st ->
(forall s, s ∈ acc -> expanded graph st s) ->
stack st = visit_path st ->
start_from_var graph name l st = Ok st' ->
let starts :=
  acc ++ List.filter
           (fun op => negb (is_bwd_op op) && bool_decide (name ∈ all_inputs op)) l in
explained starts st' /\
(forall s, s ∈ starts -> expanded graph st' s) /\
stack st' = visit_path st'.
Proof.
revert acc st. induction l as [|op l IH]; intros acc st Hexp Hacc Hstack H; simpl in H.
- injection H as <-. simpl. rewrite app_nil_r. auto.
- cbn [List.filter].
  destruct (negb (is_bwd_op op) && bool_decide (name ∈ all_inputs op)) eqn:Hc.
  + unfold _get_next_unvisited_op in H.
    destruct (unvisited_of (visited st) (next_ops graph op)) as [next|e] eqn:Hnext;
      [|discriminate].
    cbn [rbind] in H.
    match type of H with
    | (let? st2 := push_unvisited next ?st1 in _) = _ =>
        destruct (push_unvisited next st1) as [st2|e] eqn:Hpush; [|discriminate];
        destruct (push_unvisited_closure _ _ _ Hpush)
          as (Hmono & Hmarks & new & Hpath & Hstack2 & Hnewexp)
    end.
    cbn [rbind visited stack visit_path] in *.
    assert (Hmono' : forall k, visited st !! k = Some true ->
                               visited st2 !! k = Some true).
    { intros k Hk. apply Hmono.
      destruct (decide (k = idx op)) as [->|Hne]; [apply lookup_insert_eq|].
      rewrite lookup_insert_ne by congruence. exact Hk. }
    replace (acc ++ op :: List.filter
               (fun op0 => negb (is_bwd_op op0) && bool_decide (name ∈ all_inputs op0)) l)
      with ((acc ++ [op]) ++ List.filter
               (fun op0 => negb (is_bwd_op op0) && bool_decide (name ∈ all_inputs op0)) l)
      by (rewrite <- app_assoc; reflexivity).
    apply (IH (acc ++ [op]) st2); [| |congruence|exact H].
    * intros k Hk. rewrite Hpath.
      destruct (Hnewexp k Hk) as [Hold|(p & Hp & Hidx)].
      -- destruct (decide (k = idx op)) as [->|Hne].
         ++ right. exists op. split; [apply elem_of_app; right; left|reflexivity].
         ++ rewrite lookup_insert_ne in Hold by congruence.
            destruct (Hexp k Hold) as [(p & Hp & Hidx)|(s & Hs & Hidx)].
            ** left. exists p. split; [apply elem_of_app; auto|exact Hidx].
            ** right. exists s. split; [apply elem_of_app; auto|exact Hidx].
      -- left. exists p. split; [apply elem_of_app; auto|exact Hidx].
    * intros s Hs. apply elem_of_app in Hs as [Hs|Hs].
      -- eapply expanded_mono; [exact Hmono'|auto].
      -- apply list_elem_of_singleton in Hs as ->.
         intros q Hq Hbwd.
         destruct (unvisited_of_complete _ _ _ Hnext q Hq Hbwd) as [Hin|Hv].
         ++ apply Hmarks, Hin.
         ++ apply Hmono', Hv.
  + apply (IH acc st); assumption.
Qed.

Lemma search_start_closure (node : Node) (st0 : Search) :
search_start graph node = Ok st0 ->
closure_inv graph (start_ops graph node) 0 st0.
Proof.
unfold search_start. fold (fresh_visited graph).
set (st := {| visited := fresh_visited graph; stack := []; visit_path := [] |}).
assert (Hfresh : explained [] st).
{ intros k Hk. apply fresh_visited_false in Hk. discriminate. }
destruct node as [name|op]; intros H.
- destruct (start_from_var_closure name (ops graph) [] st st0 Hfresh) as (He & Hs & Hst);
    [intros s Hs; inversion Hs|reflexivity|exact H|].
  simpl in He, Hs. split; [exact He|]. split; [exact Hs|].
  split; [intros i p Hi; lia|exact Hst].
- apply expand_closure in H as (Hop & Hmono & new & Hpath & Hstack & Hnewexp).
  simpl in Hpath, Hstack. split; [|split; [|split]].
  + intros k Hk. destruct (Hnewexp k Hk) as [Hold|(p & Hp & Hidx)].
    * apply fresh_visited_false in Hold. discriminate.
    * left. exists p. rewrite Hpath. auto.
  + intros s Hs. apply list_elem_of_singleton in Hs as ->. exact Hop.
  + intros i p Hi. lia.
  + rewrite Hpath, Hstack. reflexivity.
Qed.

Lemma NoDup_fmap_inj {A B} (f : A -> B) (l : list A) (x y : A) :
NoDup (f <$> l) -> x ∈ l -> y ∈ l -> f x = f y -> x = y.
Proof.
induction l as [|a l IH]; intros Hnd Hx Hy Hf; [inversion Hx|].
rewrite fmap_cons in Hnd. apply NoDup_cons in Hnd as [Ha Hnd].
apply elem_of_cons in Hx as [->|Hx]; apply elem_of_cons in Hy as [->|Hy]; auto.
- exfalso. apply Ha. rewrite Hf. apply list_elem_of_fmap. eauto.
- exfalso. apply Ha. rewrite <- Hf. apply list_elem_of_fmap. eauto.
Qed.

(** The forward search misses nothing it is meant to reach: in the list it
  returns, every consumer that is no backward operator of a start
  operator, or of a listed operator that is not of a boundary type, has
  its identity on the list or is (by identity) a start operator itself.
  In a graph whose operators have distinct identities and hold the start
  operators, the consumer itself is on the list or a start operator. *)
Theorem forward_search_closed (node : Node) :
exists r,
  _forward_search_related_op graph node = Ok r /\
  (forall p q,
     p ∈ start_ops graph node \/ (p ∈ r /\ is_boundary (type p) = false) ->
     q ∈ next_ops graph p -> is_bwd_op q = false ->
     (exists q', q' ∈ r /\ idx q' = idx q) \/
     (exists s, s ∈ start_ops graph node /\ idx s = idx q)) /\
  (NoDup (idx <$> ops graph) ->
   (forall s, s ∈ start_ops graph node -> s ∈ ops graph) ->
   forall p q,
     p ∈ start_ops graph node \/ (p ∈ r /\ is_boundary (type p) = false) ->
     q ∈ next_ops graph p -> is_bwd_op q = false ->
     q ∈ r \/ q ∈ start_ops graph node).
Proof.
destruct (search_run_spec graph node) as (st & Hrun & Hempty & Hcore & _).
exists (visit_path st). unfold _forward_search_related_op. rewrite Hrun.
split; [reflexivity|].
unfold search_run in Hrun.
destruct (search_start graph node) as [st0|e] eqn:Hstart; [|discriminate].
cbn [rbind] in Hrun.
destruct (search_loop_closure _ _ _ _ _ (search_start_closure _ _ Hstart) Hrun)
  as (j & Hexp & Hstarts & Hdone & Hstack).
assert (Hj : length (visit_path st) <= j).
{ rewrite Hempty in Hstack. apply (f_equal length) in Hstack.
  rewrite length_drop in Hstack. simpl in Hstack. lia. }
assert (Hclosed : forall p q,
          p ∈ start_ops graph node \/
            (p ∈ visit_path st /\ is_boundary (type p) = false) ->
          q ∈ next_ops graph p -> is_bwd_op q = false ->
          (exists q', q' ∈ visit_path st /\ idx q' = idx q) \/
          (exists s, s ∈ start_ops graph node /\ idx s = idx q)).
{ intros p q Hp Hq Hbwd. apply Hexp.
  destruct Hp as [Hp|[Hp Hnb]].
  - apply (Hstarts p Hp q Hq Hbwd).
  - apply list_elem_of_lookup_1 in Hp as [i Hi].
    apply (Hdone i p); auto. apply lookup_lt_Some in Hi. lia. }
split; [exact Hclosed|].
intros Hnd Hin p q Hp Hq Hbwd.
assert (Hqg : q ∈ ops graph) by (eapply next_ops_in_graph; exact Hq).
destruct Hcore as (_ & _ & _ & Hops).
destruct (Hclosed p q Hp Hq Hbwd) as [(q' & Hq' & Hidx)|(s & Hs & Hidx)].
- left. destruct (Hops q' Hq') as [Hq'g _].
  rewrite <- (NoDup_fmap_inj idx (ops graph) q' q Hnd Hq'g Hqg Hidx). exact Hq'.
- right.
  rewrite <- (NoDup_fmap_inj idx (ops graph) s q Hnd (Hin s Hs) Hqg Hidx). exact Hs.
Qed.

End SearchClosure.

(** In [residual_net] the search from the filter of the first convolution
    reaches the addition, the relu behind it, and the convolution behind
    that, where it stops. *)
Lemma residual_net_search :
  (let? r := _forward_search_related_op residual_net (VarNode "A.w") in
   Ok (idx <$> r))
  = Ok [2; 3; 4].
Proof. vm_compute. reflexivity. Qed.

(** ** Graph-only and value pruning agree on the graph *)

Lemma prune_parameter_by_idx_unfold (g : nat) (params : list string)
    (pruned_idx : list Z) (pruned_axis : nat) (lazy only_graph : bool) :
  _prune_parameter_by_idx g params pruned_idx pruned_axis lazy only_graph
  = let* p0 := liftR (seq_index params 0) in
    let* skip := in_pruned_list p0 pruned_axis in
    if skip then ret tt
    else if only_graph
         then for_each params (graph_only_turn g pruned_idx pruned_axis)
         else for_each params (value_turn g pruned_idx pruned_axis lazy).
Proof. reflexivity. Qed.

Section ModesAgree.

Variables (g axis : nat) (sel : list nat).
Hypothesis sel_distinct : NoDup sel.

Lemma var_shape_of_run (q : string) (s : State) (gr : Program) (sh : list Z) :
programs s !! g = Some gr -> shape_of gr q = Ok sh ->
var_shape_of g q s = (Ok sh, s).
Proof.
intros Hg Hsh. unfold var_shape_of, bind, graph_at, liftR.
rewrite Hg, Hsh. reflexivity.
Qed.

Lemma pruned_list_append_run (q : string) (s : State) (l : list string) :
pruned_list s !! axis = Some l ->
pruned_list_append axis q s
= (Ok tt, set_pruned_list
            (fun _ => alter (fun l => l ++ [q]) axis (pruned_list s)) s).
Proof.
intros Hl. unfold pruned_list_append, bind, gets, liftR, list_update, modify.
rewrite bool_decide_eq_true_2 by (eapply lookup_lt_Some; exact Hl).
reflexivity.
Qed.

Lemma list_update_run {A} (l : list A) (i : nat) (f : A -> A) (x : A) :
l !! i = Some x -> list_update l i f = Ok (<[i := f x]> l).
Proof.
intros Hx. unfold list_update.
rewrite bool_decide_eq_true_2 by (eapply lookup_lt_Some; exact Hx).
f_equal. apply list_eq. intros j.
rewrite list_lookup_alter.
destruct (decide (i = j)) as [->|Hne].
- rewrite Hx, list_lookup_insert_eq by (eapply lookup_lt_Some; exact Hx).
  reflexivity.
- rewrite list_lookup_insert_ne by exact Hne. reflexivity.
Qed.

(** What one turn of either loop leaves in the graph and the registry. *)
Lemma graph_only_turn_run (q : string) (s : State) (gr : Program) (sh : list Z)
  (n : nat) (l : list string) :
programs s !! g = Some gr -> shape_of gr q = Ok sh ->
sh !! axis = Some (Z.of_nat n) ->
pruned_list s !! axis = Some l ->
exists s',
  graph_only_turn g (Z.of_nat <$> sel) axis q s = (Ok tt, s') /\
  programs s'
  = alter (set_shape q (<[axis := (Z.of_nat n - Z.of_nat (length sel))%Z]> sh)) g
      (programs s) /\
  pruned_list s' = alter (fun l => l ++ [q]) axis (pruned_list s) /\
  scope s' = scope s.
Proof.
intros Hg Hsh Hn Hl. unfold graph_only_turn.
rewrite bind_run, (var_shape_of_run q s gr sh Hg Hsh). cbv iota beta.
rewrite bind_run.
set (s1 := (backup_value q (BackupShape sh) s).2).
change (backup_value q (BackupShape sh) s) with (Ok tt, s1). cbv iota beta.
rewrite bind_run. unfold liftR at 1.
rewrite (list_update_run sh axis _ _ Hn). cbv iota beta.
rewrite bind_run.
match goal with
| |- context [var_set_shape g q ?nsh s1] =>
    set (s2 := (var_set_shape g q nsh s1).2);
    change (var_set_shape g q nsh s1) with (Ok tt, s2)
end.
cbv iota beta.
rewrite (pruned_list_append_run q s2 l) by exact Hl.
eexists. split; [reflexivity|].
split; [|split; reflexivity].
simpl. rewrite length_fmap. reflexivity.
Qed.

Lemma value_turn_run (q : string) (s : State) (gr : Program) (sh : list Z)
  (t : ndarray) (n : nat) (l : list string) :
programs s !! g = Some gr -> shape_of gr q = Ok sh ->
scope s !! q = Some t ->
sh !! axis = Some (Z.of_nat n) -> shape t !! axis = Some n ->
0 ∉ delete axis (shape t) -> (forall c, c ∈ sel -> c < n) ->
pruned_list s !! axis = Some l ->
exists s' t',
  value_turn g (Z.of_nat <$> sel) axis false q s = (Ok tt, s') /\
  programs s'
  = alter (set_shape q (<[axis := (Z.of_nat n - Z.of_nat (length sel))%Z]> sh)) g
      (programs s) /\
  pruned_list s' = alter (fun l => l ++ [q]) axis (pruned_list s) /\
  scope s' = <[q := t']> (scope s).
Proof.
intros Hg Hsh Ht Hn Hnt Hdims Hr Hl. unfold value_turn.
rewrite bind_run. unfold find_tensor at 1. rewrite Ht.
rewrite bind_run.
set (s1 := (backup_value q (BackupValue t) s).2).
change (backup_value q (BackupValue t) s) with (Ok tt, s1). cbv iota beta.
destruct (prune_tensor_hard t axis n sel Hnt Hr Hdims) as (t' & Ht' & Hshape & _).
rewrite bind_run. unfold liftR at 1. rewrite Ht'. cbv iota beta.
rewrite bind_run.
set (s2 := (tensor_set q t' s1).2).
change (tensor_set q t' s1) with (Ok tt, s2). cbv iota beta.
rewrite bind_run, (var_shape_of_run q s2 gr sh Hg Hsh). cbv iota beta.
rewrite bind_run.
set (s3 := (backup_shape q sh s2).2).
change (backup_shape q sh s2) with (Ok tt, s3). cbv iota beta.
assert (Hlen : shape t' !! axis = Some (n - length sel)).
{ rewrite Hshape, (list_lookup_total_correct _ _ _ Hnt).
  rewrite length_kept_channels by assumption.
  apply list_lookup_insert_eq. eapply lookup_lt_Some. exact Hnt. }
rewrite bind_run. unfold liftR at 1. unfold seq_index at 1. rewrite Hlen.
cbv iota beta.
rewrite bind_run. unfold liftR at 1.
rewrite (list_update_run sh axis _ _ Hn). cbv iota beta.
rewrite bind_run.
match goal with
| |- context [var_set_shape g q ?nsh s3] =>
    set (s4 := (var_set_shape g q nsh s3).2);
    change (var_set_shape g q nsh s3) with (Ok tt, s4)
end.
cbv iota beta.
rewrite (pruned_list_append_run q s4 l) by exact Hl.
exists (set_pruned_list
          (fun _ => alter (fun l => l ++ [q]) axis (pruned_list s4)) s4), t'.
split; [reflexivity|].
assert (Hle : length sel <= n).
{ transitivity (length (seq 0 n)); [|rewrite length_seq; lia].
  apply submseteq_length, NoDup_submseteq; [exact sel_distinct|].
  intros c Hc. apply elem_of_seq. pose proof (Hr c Hc). lia. }
split; [|split; reflexivity].
simpl. rewrite Nat2Z.inj_sub by exact Hle. reflexivity.
Qed.

Lemma shape_of_set_shape_ne (gr : Program) (q p : string) (sh : list Z) :
p <> q -> shape_of (set_shape q sh gr) p = shape_of gr p.
Proof.
intros Hne. unfold shape_of, var, set_shape. simpl.
rewrite lookup_alter_ne by congruence. reflexivity.
Qed.

Lemma turns_agree (params : list string) :
NoDup params ->
forall s1 s2,
  programs s1 = programs s2 -> pruned_list s1 = pruned_list s2 ->
  is_Some (pruned_list s2 !! axis) ->
  (forall p, p ∈ params -> prunable g axis sel s2 p) ->
  exists s1' s2',
    for_each params (graph_only_turn g (Z.of_nat <$> sel) axis) s1 = (Ok tt, s1') /\
    for_each params (value_turn g (Z.of_nat <$> sel) axis false) s2 = (Ok tt, s2') /\
    programs s1' = programs s2' /\ pruned_list s1' = pruned_list s2' /\
    scope s1' = scope s1.
Proof.
induction params as [|q rest IH]; intros Hnd s1 s2 Hprog Hreg [l Hl] Hall.
- exists s1, s2. simpl. auto.
- apply NoDup_cons in Hnd as [Hq Hnd].
  destruct (Hall q ltac:(left)) as (gr & sh & t & n & Hg & Hsh & Ht & Hn & Hnt & Hdims & Hr).
  destruct (graph_only_turn_run q s1 gr sh n l) as (s1a & Hrun1 & Hp1 & Hl1 & Hsc1);
    [congruence|exact Hsh|exact Hn|congruence|].
  destruct (value_turn_run q s2 gr sh t n l Hg Hsh Ht Hn Hnt Hdims Hr Hl)
    as (s2a & t' & Hrun2 & Hp2 & Hl2 & Hsc2).
  destruct (IH Hnd s1a s2a) as (s1' & s2' & Hr1 & Hr2 & Hprog' & Hreg' & Hsc').
  + congruence.
  + congruence.
  + rewrite Hl2, list_lookup_alter, decide_True, Hl by reflexivity. eauto.
  + intros p Hp.
    assert (Hne : p <> q) by (intros ->; contradiction).
    destruct (Hall p ltac:(right; exact Hp))
      as (gr' & sh' & tp & np & Hg' & Hsh' & Htp & Hnp & Hntp & Hdimsp & Hrp).
    assert (gr' = gr) as -> by congruence.
    eexists _, sh', tp, np.
    split; [rewrite Hp2, list_lookup_alter, decide_True, Hg by reflexivity; reflexivity|].
    split; [rewrite shape_of_set_shape_ne by exact Hne; exact Hsh'|].
    split; [rewrite Hsc2, lookup_insert_ne by congruence; exact Htp|].
    auto.
  + exists s1', s2'. cbn [for_each]. rewrite !bind_run, Hrun1, Hrun2.
    split; [exact Hr1|]. split; [exact Hr2|].
    split; [exact Hprog'|]. split; [exact Hreg'|]. congruence.
Qed.

(** Cutting the distinct channels [sel] out of the parameters [p0 :: rest]
  (each with a tensor whose axis is as long as the graph says, the
  channels in range) does the same to the graph whether values are pruned
  or not: with [lazy=False] the calls with [only_graph=True] and with
  [only_graph=False] both return, and they leave the same program objects
  and the same registry; the graph-only call leaves the scope alone. *)
Theorem prune_parameter_by_idx_modes_agree (p0 : string) (rest : list string)
  (s : State) :
NoDup (p0 :: rest) ->
is_Some (pruned_list s !! axis) ->
(forall p, p ∈ p0 :: rest -> prunable g axis sel s p) ->
exists s1 s2,
  _prune_parameter_by_idx g (p0 :: rest) (Z.of_nat <$> sel) axis false true s
  = (Ok tt, s1) /\
  _prune_parameter_by_idx g (p0 :: rest) (Z.of_nat <$> sel) axis false false s
  = (Ok tt, s2) /\
  programs s1 = programs s2 /\ pruned_list s1 = pruned_list s2 /\
  scope s1 = scope s.
Proof.
intros Hnd [l Hl] Hall.
rewrite !prune_parameter_by_idx_unfold.
rewrite !bind_run.
change (liftR (seq_index (p0 :: rest) 0) s) with (Ok p0, s). cbv iota beta.
rewrite !bind_run, in_pruned_list_run, Hl.
destruct (bool_decide (p0 ∈ l)).
- exists s, s. auto.
- apply turns_agree; eauto.
Qed.

End ModesAgree.

Lemma prune_parameter_by_idx_modes_agree_witness :
  exists s1 s2,
    _prune_parameter_by_idx 0 ["B.w"] (Z.of_nat <$> [1; 3]) 1 false true conv_bn_state
    = (Ok tt, s1) /\
    _prune_parameter_by_idx 0 ["B.w"] (Z.of_nat <$> [1; 3]) 1 false false conv_bn_state
    = (Ok tt, s2) /\
    programs s1 = programs s2 /\ pruned_list s1 = pruned_list s2 /\
    scope s1 = scope conv_bn_state.
Proof.
  apply (prune_parameter_by_idx_modes_agree 0 1 [1; 3]).
  - repeat constructor; rewrite ?elem_of_cons, ?elem_of_nil; intuition discriminate.
  - repeat constructor; rewrite ?elem_of_cons, ?elem_of_nil; intuition discriminate.
  - eexists. reflexivity.
  - intros p Hp. apply list_elem_of_singleton in Hp as ->.
    exists conv_bn_net, [2; 4; 1; 1]%Z,
      (array [2; 4; 1; 1] [1; 2; 3; 4; 5; 6; 7; 8]%Q), 4.
    split; [reflexivity|]. split; [reflexivity|]. split; [reflexivity|].
    split; [reflexivity|]. split; [reflexivity|]. split.
    + simpl. rewrite !elem_of_cons, elem_of_nil. intuition discriminate.
    + intros c Hc. rewrite !elem_of_cons, elem_of_nil in Hc. lia.
Defined.

(** In lazy mode the two do not agree: values are zeroed and the graph keeps
    its shape, while the graph-only call shrinks it. *)
Lemma prune_parameter_by_idx_lazy_modes_differ :
  let shape_after s :=
    (fun p => var_shape <$> block_vars p !! "B.w") <$> programs s !! 0 in
  shape_after (_prune_parameter_by_idx 0 ["B.w"] [1; 3]%Z 1 true true conv_bn_state).2
  = Some (Some [2; 2; 1; 1]%Z) /\
  shape_after (_prune_parameter_by_idx 0 ["B.w"] [1; 3]%Z 1 true false conv_bn_state).2
  = Some (Some [2; 4; 1; 1]%Z).
Proof. vm_compute. split; reflexivity. Qed.

(** ** The shape backups *)

#[global] Instance keeps_preorder (P : State -> Prop) : PreOrder (@keeps P).
Proof.
  split.
  - intros s H. exact H.
  - intros s1 s2 s3 H1 H2 H. apply H2, H1, H.
Qed.

#[global] Instance same_graph_and_backup_preorder {B}
    (proj : State -> option (gmap string B)) (g : nat) :
  PreOrder (same_graph_and_backup proj g).
Proof.
  split.
  - intros s. split; reflexivity.
  - intros s1 s2 s3 [H1 H2] [H3 H4]. split; congruence.
Qed.

Section Hoare.

Lemma hoare_bind {A C} (P : State -> Prop) (m : M A) (Q : A -> State -> Prop)
  (k : A -> M C) (Q' : C -> State -> Prop) (E : State -> Prop) :
hoare P m Q E -> (forall a, hoare (Q a) (k a) Q' E) -> hoare P (bind m k) Q' E.
Proof.
intros Hm Hk s HP. rewrite bind_run. specialize (Hm s HP).
destruct (m s) as [[a|e] s1]; [apply Hk, Hm|exact Hm].
Qed.

Lemma hoare_weaken {A} (P P' : State -> Prop) (m : M A) (Q Q' : A -> State -> Prop)
  (E E' : State -> Prop) :
hoare P m Q E -> (forall s, P' s -> P s) -> (forall a s, Q a s -> Q' a s) ->
(forall s, E s -> E' s) ->
hoare P' m Q' E'.
Proof.
intros Hm HP HQ HE s Hs. specialize (Hm s (HP s Hs)).
destruct (m s) as [[a|e] s1]; auto.
Qed.

Lemma hoare_ret {A} (P : State -> Prop) (a : A) (E : State -> Prop) :
hoare P (ret a) (fun _ => P) E.
Proof. intros s HP. exact HP. Qed.

Lemma hoare_liftR {A} (P : State -> Prop) (r : Result A) :
hoare P (liftR r) (fun _ => P) P.
Proof. intros s HP. unfold liftR. destruct r; exact HP. Qed.

Lemma hoare_respects {A} (R : State -> State -> Prop) (P : State -> Prop) (m : M A) :
respects R m -> (forall s s', R s s' -> P s -> P s') ->
hoare P m (fun _ => P) P.
Proof.
intros Hm Hst s HP. pose proof (Hm s) as Hs.
destruct (m s) as [[a|e] s1]; simpl in Hs; eauto.
Qed.

Lemma hoare_for_each {A} (P : State -> Prop) (l : list A) (body : A -> M unit) :
(forall x, hoare P (body x) (fun _ => P) P) ->
hoare P (for_each l body) (fun _ => P) P.
Proof.
intros Hb. induction l as [|x l IH]; simpl; [apply hoare_ret|].
eapply hoare_bind; [apply Hb|intros u; exact IH].
Qed.

Lemma hoare_for_fold {A L} (P : State -> Prop) (l : list A) (local : L)
  (body : A -> L -> M L) :
(forall x c, hoare P (body x c) (fun _ => P) P) ->
hoare P (for_fold l local body) (fun _ => P) P.
Proof.
intros Hb. revert local. induction l as [|x l IH]; intros local; simpl;
  [apply hoare_ret|].
eapply hoare_bind; [apply Hb|intros c; apply IH].
Qed.

Lemma hoare_keeps {A} (P : State -> Prop) (m : M A) :
hoare P m (fun _ => P) P -> respects (@keeps P) m.
Proof.
intros Hm s HP. specialize (Hm s HP). destruct (m s) as [[a|e] s1]; exact Hm.
Qed.

Lemma keeps_hoare {A} (P : State -> Prop) (m : M A) :
respects (@keeps P) m -> hoare P m (fun _ => P) P.
Proof.
intros Hm s HP. specialize (Hm s HP). destruct (m s) as [[a|e] s1]; exact Hm.
Qed.

End Hoare.

Section ShapeBackup.

Context {B : Type} (proj : State -> option (gmap string B)) (entry : list Z -> B).
Variables (g : nat) (p0 : Program).
Variable put : string -> list Z -> M unit.
Hypothesis put_run :
forall q sh s,
  put q sh s = (Ok tt, (put q sh s).2) /\
  programs (put q sh s).2 = programs s /\
  proj (put q sh s).2
  = (fun d => match d !! q with Some _ => d | None => <[q := entry sh]> d end)
      <$> proj s.
Hypothesis proj_programs : forall f s, proj (set_programs f s) = proj s.

Lemma shapes_inv_same (s s' : State) :
same_graph_and_backup proj g s s' ->
shapes_inv proj entry g p0 s -> shapes_inv proj entry g p0 s'.
Proof.
intros [Hg Hp] (d & gr & Hd & Hgr & Hall). exists d, gr.
rewrite Hp, Hg. auto.
Qed.

Lemma current_shape_same (q : string) (sh : list Z) (s s' : State) :
same_graph_and_backup proj g s s' ->
current_shape g q sh s -> current_shape g q sh s'.
Proof. intros [Hg _] (gr & Hgr & Hsh). exists gr. rewrite Hg. auto. Qed.

Lemma shape_backed_same (q : string) (s s' : State) :
same_graph_and_backup proj g s s' ->
shape_backed proj entry p0 q s -> shape_backed proj entry p0 q s'.
Proof. intros [_ Hp] (d & sh0 & Hd & H). exists d, sh0. rewrite Hp. auto. Qed.

Lemma hoare_var_shape_of (q : string) :
hoare (shapes_inv proj entry g p0) (var_shape_of g q)
  (fun sh s => shapes_inv proj entry g p0 s /\ current_shape g q sh s)
  (shapes_inv proj entry g p0).
Proof.
intros s Hinv. pose proof Hinv as (d & gr & Hd & Hg & Hall).
unfold var_shape_of, bind, graph_at, liftR. rewrite Hg.
destruct (shape_of gr q) as [sh|e] eqn:Hsh; [|exact Hinv].
split; [exact Hinv|]. exists gr. auto.
Qed.

Lemma hoare_put (q : string) (sh : list Z) :
hoare (fun s => shapes_inv proj entry g p0 s /\ current_shape g q sh s)
  (put q sh)
  (fun _ s => shapes_inv proj entry g p0 s /\ shape_backed proj entry p0 q s)
  (shapes_inv proj entry g p0).
Proof.
intros s [(d & gr & Hd & Hg & Hall) (gr' & Hg' & Hsh)].
assert (gr' = gr) as -> by congruence.
destruct (put_run q sh s) as (Hrun & Hprog & Hproj). rewrite Hrun.
rewrite Hd in Hproj. simpl in Hproj.
destruct (d !! q) as [b|] eqn:Hq.
- destruct (Hall q) as [[Hnone _]|(sh0 & Hsh0 & Hb)]; [congruence|].
  split.
  + exists d, gr. rewrite Hprog. auto.
  + exists d, sh0. auto.
- destruct (Hall q) as [[_ Hsame]|(sh0 & _ & Hb)]; [|congruence].
  assert (Hback : shape_of p0 q = Ok sh) by congruence.
  split.
  + exists (<[q := entry sh]> d), gr. rewrite Hprog.
    split; [exact Hproj|]. split; [exact Hg|].
    intros name. destruct (decide (name = q)) as [->|Hne].
    * right. exists sh. split; [exact Hback|apply lookup_insert_eq].
    * rewrite lookup_insert_ne by congruence. apply Hall.
  + exists (<[q := entry sh]> d), sh.
    split; [exact Hproj|]. split; [exact Hback|apply lookup_insert_eq].
Qed.

Lemma hoare_var_set_shape (q : string) (nsh : list Z) :
hoare (fun s => shapes_inv proj entry g p0 s /\ shape_backed proj entry p0 q s)
  (var_set_shape g q nsh)
  (fun _ => shapes_inv proj entry g p0)
  (shapes_inv proj entry g p0).
Proof.
intros s [(d & gr & Hd & Hg & Hall) (d' & sh0 & Hd' & Hsh0 & Hb)].
assert (d' = d) as -> by congruence.
unfold var_set_shape, update_graph, modify.
exists d, (set_shape q nsh gr).
split; [rewrite proj_programs; exact Hd|].
split; [simpl; rewrite list_lookup_alter, decide_True, Hg by reflexivity; reflexivity|].
intros name. destruct (decide (name = q)) as [->|Hne].
- right. exists sh0. auto.
- rewrite shape_of_set_shape_ne by exact Hne. apply Hall.
Qed.

Lemma hoare_set_attr (pos : nat) (key : string) (v : Z) :
hoare (shapes_inv proj entry g p0) (update_graph g (set_attr pos key v))
  (fun _ => shapes_inv proj entry g p0) (shapes_inv proj entry g p0).
Proof.
intros s (d & gr & Hd & Hg & Hall).
unfold update_graph, modify.
exists d, (set_attr pos key v gr).
split; [rewrite proj_programs; exact Hd|].
split; [simpl; rewrite list_lookup_alter, decide_True, Hg by reflexivity; reflexivity|].
exact Hall.
Qed.

Lemma modify_same_graph (f : State -> State) :
(forall s, programs (f s) = programs s) -> (forall s, proj (f s) = proj s) ->
respects (same_graph_and_backup proj g) (modify f).
Proof. intros H1 H2 s. split; simpl; [rewrite H1|rewrite H2]; reflexivity. Qed.

Lemma hoare_same_inv {A} (m : M A) :
respects (same_graph_and_backup proj g) m ->
hoare (shapes_inv proj entry g p0) m (fun _ => shapes_inv proj entry g p0)
  (shapes_inv proj entry g p0).
Proof. intros Hm. eapply hoare_respects; [exact Hm|apply shapes_inv_same]. Qed.

Lemma hoare_same_backed {A} (q : string) (m : M A) :
respects (same_graph_and_backup proj g) m ->
hoare (fun s => shapes_inv proj entry g p0 s /\ shape_backed proj entry p0 q s) m
  (fun _ s => shapes_inv proj entry g p0 s /\ shape_backed proj entry p0 q s)
  (shapes_inv proj entry g p0).
Proof.
intros Hm s [Hi Hb]. pose proof (Hm s) as Hs.
destruct (m s) as [[a|e] s1]; simpl in Hs.
- split; [eapply shapes_inv_same|eapply shape_backed_same]; eauto.
- eapply shapes_inv_same; eauto.
Qed.

Lemma hoare_same_current {A} (q : string) (sh : list Z) (m : M A) :
respects (same_graph_and_backup proj g) m ->
hoare (fun s => shapes_inv proj entry g p0 s /\ current_shape g q sh s) m
  (fun _ s => shapes_inv proj entry g p0 s /\ current_shape g q sh s)
  (shapes_inv proj entry g p0).
Proof.
intros Hm s [Hi Hb]. pose proof (Hm s) as Hs.
destruct (m s) as [[a|e] s1]; simpl in Hs.
- split; [eapply shapes_inv_same|eapply current_shape_same]; eauto.
- eapply shapes_inv_same; eauto.
Qed.

(** The part all four loops share: read the shape, back it up, compute the
  new shape, set it, register the name. *)
Lemma hoare_reshape {C} (q : string) (axis : nat) (new_shape : list Z -> M (list Z))
  (last : M C) :
(forall sh, respects (same_graph_and_backup proj g) (new_shape sh)) ->
respects (same_graph_and_backup proj g) last ->
hoare (shapes_inv proj entry g p0)
  (let* ori_shape := var_shape_of g q in
   bind (put q ori_shape) (fun _ =>
   let* nsh := new_shape ori_shape in
   bind (var_set_shape g q nsh) (fun _ => last)))
  (fun _ => shapes_inv proj entry g p0) (shapes_inv proj entry g p0).
Proof.
intros Hnew Hlast.
eapply hoare_bind; [apply hoare_var_shape_of|intros sh].
eapply hoare_bind; [apply hoare_put|intros u].
eapply hoare_bind; [apply hoare_same_backed, Hnew|intros nsh].
eapply hoare_bind; [apply hoare_var_set_shape|intros u'].
apply hoare_same_inv, Hlast.
Qed.

Lemma hoare_reshape2 {C N} (q : string) (m1 : M N) (m2 : list Z -> N -> M (list Z))
  (last : M C) :
respects (same_graph_and_backup proj g) m1 ->
(forall sh n, respects (same_graph_and_backup proj g) (m2 sh n)) ->
respects (same_graph_and_backup proj g) last ->
hoare (shapes_inv proj entry g p0)
  (let* ori_shape := var_shape_of g q in
   bind (put q ori_shape) (fun _ =>
   let* n := m1 in
   let* nsh := m2 ori_shape n in
   bind (var_set_shape g q nsh) (fun _ => last)))
  (fun _ => shapes_inv proj entry g p0) (shapes_inv proj entry g p0).
Proof.
intros H1 H2 Hlast.
eapply hoare_bind; [apply hoare_var_shape_of|intros sh].
eapply hoare_bind; [apply hoare_put|intros u].
eapply hoare_bind; [apply hoare_same_backed, H1|intros n].
eapply hoare_bind; [apply hoare_same_backed, H2|intros nsh].
eapply hoare_bind; [apply hoare_var_set_shape|intros u'].
apply hoare_same_inv, Hlast.
Qed.

Lemma hoare_fix_groups (pos : nat) :
hoare (shapes_inv proj entry g p0) (fix_groups g pos)
  (fun _ => shapes_inv proj entry g p0) (shapes_inv proj entry g p0).
Proof.
unfold fix_groups.
eapply hoare_bind; [apply hoare_same_inv; frame|intros gr].
eapply hoare_bind; [apply hoare_same_inv; frame|intros op].
destruct (_ || _); [|apply hoare_same_inv; frame].
eapply hoare_bind; [apply hoare_same_inv; frame|intros filter].
eapply hoare_bind; [apply hoare_same_inv; frame|intros sh].
eapply hoare_bind; [apply hoare_same_inv; frame|intros n].
apply hoare_set_attr.
Qed.

(** What [prune_tail] hands back once the invariant holds at its start. *)
Lemma prune_tail_shapes (self : Pruner) (params : list string) (ratios : list Q)
  (lazy only_graph : bool) (s1 s' : State) (graph : nat)
  (pb : option (gmap string Backup)) (psb : option (gmap string (list Z))) :
respects (@keeps (shapes_inv proj entry g p0))
  (_prune_parameters self g params ratios lazy only_graph) ->
shapes_inv proj entry g p0 s1 ->
prune_tail self g params ratios lazy only_graph s1 = (Ok (graph, pb, psb), s') ->
shapes_inv proj entry g p0 s' /\ graph = g /\
pb = param_backup s' /\ psb = param_shape_backup s'.
Proof.
intros Hparams Hinv Hrun. unfold prune_tail in Hrun.
apply bind_ok_inv in Hrun as ([] & s2 & Hp & Hrun).
assert (Hinv2 : shapes_inv proj entry g p0 s2).
{ pose proof (Hparams s1) as H. rewrite Hp in H. apply H, Hinv. }
apply bind_ok_inv in Hrun as (gr & s3 & Hgr & Hrun).
apply graph_at_ok_inv in Hgr as [_ ->].
apply bind_ok_inv in Hrun as ([] & s3 & Hloop & Hrun).
assert (Hinv3 : shapes_inv proj entry g p0 s3).
{ pose proof (hoare_for_each _ (seq 0 (length (ops gr))) (fix_groups g)
                hoare_fix_groups s2 Hinv2) as H.
  rewrite Hloop in H. exact H. }
apply bind_ok_inv in Hrun as (pb' & s4 & Hg1 & Hrun).
apply gets_ok_inv in Hg1 as [-> ->].
apply bind_ok_inv in Hrun as (psb' & s4 & Hg2 & Hrun).
apply gets_ok_inv in Hg2 as [-> ->].
injection Hrun as <- <- <- <-. auto.
Qed.

End ShapeBackup.

(** *** Value pruning: [param_shape_backup] *)

Section ValueShapes.

Variables (g : nat) (p0 : Program).

Ltac same_graph :=
unfold backup_value, tensor_set, logger, pruned_list_append;
frame; apply modify_same_graph; reflexivity.

Lemma backup_shape_run (q : string) (sh : list Z) (s : State) :
backup_shape q sh s = (Ok tt, (backup_shape q sh s).2) /\
programs (backup_shape q sh s).2 = programs s /\
param_shape_backup (backup_shape q sh s).2
= (fun d => match d !! q with Some _ => d | None => <[q := sh]> d end)
    <$> param_shape_backup s.
Proof. repeat split. Qed.

Lemma value_turn_keeps_shapes (idx : list Z) (axis : nat) (lazy : bool) (q : string) :
hoare (value_shapes_inv g p0) (value_turn g idx axis lazy q)
  (fun _ => value_shapes_inv g p0) (value_shapes_inv g p0).
Proof.
unfold value_turn, value_shapes_inv.
eapply hoare_bind; [apply hoare_same_inv; same_graph|intros t].
eapply hoare_bind; [apply hoare_same_inv; same_graph|intros u].
eapply hoare_bind; [apply hoare_same_inv; same_graph|intros t'].
eapply hoare_bind; [apply hoare_same_inv; same_graph|intros u'].
apply (hoare_reshape2 param_shape_backup (fun sh => sh) g p0 backup_shape
         backup_shape_run ltac:(reflexivity) q
         (liftR (seq_index (shape t') axis))
         (fun ori_shape n => liftR (list_update ori_shape axis (fun _ => Z.of_nat n)))
         (pruned_list_append axis q)); intros; same_graph.
Qed.

Lemma prune_parameter_by_idx_keeps_shapes (params : list string) (idx : list Z)
  (axis : nat) (lazy : bool) :
respects (@keeps (value_shapes_inv g p0))
  (_prune_parameter_by_idx g params idx axis lazy false).
Proof.
rewrite prune_parameter_by_idx_unfold.
apply respects_bind; [exact _ | frame | intros q0].
apply respects_bind; [exact _ | unfold in_pruned_list; frame | intros skip].
destruct skip; [frame|].
apply hoare_keeps, hoare_for_each. intros q. apply value_turn_keeps_shapes.
Qed.

Lemma prune_filters_by_ratio_keeps_shapes (self : Pruner) (params : list string)
  (ratio : Q) (lazy : bool) :
respects (@keeps (value_shapes_inv g p0))
  (_prune_filters_by_ratio self g params ratio lazy false).
Proof.
unfold _prune_filters_by_ratio. cbv iota.
apply respects_bind; [exact _ | frame | intros q0].
apply respects_bind; [exact _ | unfold in_pruned_list; frame | intros skip].
destruct skip; [frame|].
apply respects_bind; [exact _ | frame | intros param_t].
apply respects_bind; [exact _ | frame | intros pruned_idx].
apply respects_bind; [exact _ | | intros; frame].
apply hoare_keeps, hoare_for_fold. intros q pp.
unfold value_shapes_inv.
eapply hoare_bind; [apply hoare_same_inv; same_graph|intros t].
eapply hoare_bind; [apply hoare_same_inv; same_graph|intros u].
eapply hoare_bind; [apply hoare_same_inv; same_graph|intros pp'].
eapply hoare_bind; [apply hoare_same_inv; same_graph|intros value].
eapply hoare_bind; [apply hoare_same_inv; same_graph|intros u'].
apply (hoare_reshape2 param_shape_backup (fun sh => sh) g p0 backup_shape
         backup_shape_run ltac:(reflexivity) q
         (liftR (seq_index (shape value) 0))
         (fun ori_shape n => liftR (list_update ori_shape 0 (fun _ => Z.of_nat n)))
         (bind (pruned_list_append 0 q) (fun _ => ret pp'))); intros; same_graph.
Qed.

End ValueShapes.

(** *** Graph-only pruning: the shapes go to [param_backup] *)

#[global] Instance same_shape_backup_preorder : PreOrder same_shape_backup.
Proof.
  split.
  - intros s. reflexivity.
  - intros s1 s2 s3 H1 H2. unfold same_shape_backup in *. congruence.
Qed.

Section GraphShapes.

Variables (g : nat) (p0 : Program).

Ltac same_graph :=
unfold pruned_list_append; frame; apply modify_same_graph; reflexivity.

Lemma backup_value_shape_run (q : string) (sh : list Z) (s : State) :
backup_value q (BackupShape sh) s = (Ok tt, (backup_value q (BackupShape sh) s).2) /\
programs (backup_value q (BackupShape sh) s).2 = programs s /\
param_backup (backup_value q (BackupShape sh) s).2
= (fun d => match d !! q with Some _ => d | None => <[q := BackupShape sh]> d end)
    <$> param_backup s.
Proof. repeat split. Qed.

Lemma graph_only_turn_keeps_shapes (idx : list Z) (axis : nat) (q : string) :
hoare (graph_shapes_inv g p0) (graph_only_turn g idx axis q)
  (fun _ => graph_shapes_inv g p0) (graph_shapes_inv g p0).
Proof.
unfold graph_only_turn, graph_shapes_inv.
apply (hoare_reshape param_backup BackupShape g p0
         (fun q sh => backup_value q (BackupShape sh))
         backup_value_shape_run ltac:(reflexivity) q axis
         (fun ori_shape =>
            liftR (list_update ori_shape axis
                     (fun x => x - Z.of_nat (length idx))%Z))
         (pruned_list_append axis q)); intros; same_graph.
Qed.

Lemma prune_parameter_by_idx_graph_only_keeps_shapes (params : list string)
  (idx : list Z) (axis : nat) (lazy : bool) :
respects (@keeps (graph_shapes_inv g p0))
  (_prune_parameter_by_idx g params idx axis lazy true).
Proof.
rewrite prune_parameter_by_idx_unfold.
apply respects_bind; [exact _ | frame | intros q0].
apply respects_bind; [exact _ | unfold in_pruned_list; frame | intros skip].
destruct skip; [frame|].
apply hoare_keeps, hoare_for_each. intros q. apply graph_only_turn_keeps_shapes.
Qed.

Lemma prune_filters_by_ratio_graph_only_keeps_shapes (self : Pruner)
  (params : list string) (ratio : Q) (lazy : bool) :
respects (@keeps (graph_shapes_inv g p0))
  (_prune_filters_by_ratio self g params ratio lazy true).
Proof.
unfold _prune_filters_by_ratio. cbv iota.
apply respects_bind; [exact _ | frame | intros q0].
apply respects_bind; [exact _ | unfold in_pruned_list; frame | intros skip].
destruct skip; [frame|].
apply respects_bind; [exact _ | unfold var_shape_of; frame | intros sh0].
apply respects_bind; [exact _ | frame | intros n0].
apply respects_bind; [exact _ | | intros; frame].
apply hoare_keeps, hoare_for_each. intros q.
unfold graph_shapes_inv.
apply (hoare_reshape param_backup BackupShape g p0
         (fun q sh => backup_value q (BackupShape sh))
         backup_value_shape_run ltac:(reflexivity) q 0
         (fun ori_shape =>
            liftR (list_update ori_shape 0
                     (fun x => x - py_round (inject_Z n0 * ratio))%Z))
         (pruned_list_append 0 q)); intros; same_graph.
Qed.

End GraphShapes.

Lemma modify_keeps_shape_backup (f : State -> State) :
  (forall s, param_shape_backup (f s) = param_shape_backup s) ->
  respects same_shape_backup (modify f).
Proof. intros Hf s. apply Hf. Qed.

Lemma prune_graph_only_keeps_shape_backup (self : Pruner) (g : nat)
    (params : list string) (ratios : list Q) (lazy : bool) :
  respects same_shape_backup (prune_tail self g params ratios lazy true).
Proof.
  assert (Happ : forall axis name,
            respects same_shape_backup (pruned_list_append axis name)).
  { intros. unfold pruned_list_append. frame.
    apply modify_keeps_shape_backup. reflexivity. }
  apply above_prune_tail; try exact _.
  - intros. unfold _prune_parameter_by_idx, var_shape_of, var_set_shape, update_graph,
      backup_value, in_pruned_list.
    cbv iota.
    frame; first [apply Happ | apply modify_keeps_shape_backup; reflexivity].
  - intros. unfold _prune_filters_by_ratio, var_shape_of, var_set_shape, update_graph,
      backup_value, in_pruned_list.
    cbv iota.
    frame; first [apply Happ | apply modify_keeps_shape_backup; reflexivity].
  - intros r s. reflexivity.
  - intros s. reflexivity.
  - intros f s. reflexivity.
Qed.

(** The clone that [prune] starts from satisfies the invariant of a backup
    that was asked for, with nothing backed up yet. *)
Lemma prune_start_shapes {B} (proj : State -> option (gmap string B))
    (entry : list Z -> B) (p : Program) (wb wsb : bool) (s : State) :
  proj (prune_start p wb wsb s) = Some ∅ ->
  shapes_inv proj entry (length (programs s)) p (prune_start p wb wsb s).
Proof.
  intros Hproj. exists ∅, p. split; [exact Hproj|]. split.
  - unfold prune_start. cbn. apply list_lookup_middle. reflexivity.
  - intros name. left. split; [apply lookup_empty|reflexivity].
Qed.

(** When [prune] is asked for a shape backup and prunes values
    ([param_shape_backup=True], [only_graph=False]) and returns, the shape
    backup it returns undoes the call on the shapes of the returned graph:
    a name without an entry has in the returned graph the shape it has in
    the program given, and an entry is the shape its name has in the
    program given. *)
Theorem prune_shape_backup_restores (self : Pruner) (program : nat)
    (params : list string) (ratios : list Q) (lazy want_param_backup : bool)
    (s s' : State) (graph : nat) (pb : option (gmap string Backup))
    (psb : option (gmap string (list Z))) :
  prune self program params ratios lazy false want_param_backup true s
  = (Ok (graph, pb, psb), s') ->
  exists p d gr',
    programs s !! program = Some p /\
    psb = Some d /\
    programs s' !! graph = Some gr' /\
    (forall name, d !! name = None -> shape_of gr' name = shape_of p name) /\
    (forall name sh, d !! name = Some sh -> shape_of p name = Ok sh).
Proof.
  rewrite prune_run. destruct (programs s !! program) as [p|]; [|discriminate].
  intros Hrun.
  pose proof (prune_tail_shapes param_shape_backup (fun sh => sh)
                (length (programs s)) p ltac:(reflexivity) self params ratios
                lazy false (prune_start p want_param_backup true s) s'
                graph pb psb) as Htail.
  destruct (Htail
              ltac:(apply above_prune_parameters;
                    [exact _
                    |intros; apply prune_parameter_by_idx_keeps_shapes
                    |intros; apply prune_filters_by_ratio_keeps_shapes
                    |intros r s0 H; exact H
                    |intros s0 H; destruct H as (d & gr & ? & ? & ?);
                     exists d, gr; auto])
              ltac:(apply prune_start_shapes; reflexivity)
              Hrun)
    as ((d & gr' & Hd & Hgr & Hall) & -> & _ & ->).
  exists p, d, gr'. repeat split; try assumption.
  - intros name Hnone.
    destruct (Hall name) as [[_ Hsame]|(sh0 & _ & Hb)]; [exact Hsame|congruence].
  - intros name sh Hsh.
    destruct (Hall name) as [[Hnone _]|(sh0 & Hsh0 & Hb)]; congruence.
Qed.

(** Pruning [A.w] in [conv_bn_net] with a shape backup. *)
Lemma prune_shape_backup_restores_witness :
  let s := initial_state conv_bn_net conv_bn_scope in
  let r := prune l1_norm 0 ["A.w"] [1 # 2]%Q false false false true s in
  exists p d gr',
    programs s !! 0 = Some p /\
    param_shape_backup r.2 = Some d /\
    programs r.2 !! 1 = Some gr' /\
    (forall name, d !! name = None -> shape_of gr' name = shape_of p name) /\
    (forall name sh, d !! name = Some sh -> shape_of p name = Ok sh).
Proof.
  intros s r.
  apply (prune_shape_backup_restores l1_norm 0 ["A.w"] [1 # 2]%Q false false
           s r.2 1 None (param_shape_backup r.2)).
  apply run_result. vm_compute. reflexivity.
Defined.

(** When [prune] only edits the graph and is asked for a backup
    ([only_graph=True], [param_backup=True]) and returns, the shapes go to
    the parameter backup: a name without an entry has in the returned graph
    the shape it has in the program given, and an entry is the shape its
    name has in the program given.  The shape backup returned is empty when
    it was asked for. *)
Theorem prune_only_graph_backs_up_shapes (self : Pruner) (program : nat)
    (params : list string) (ratios : list Q)
    (lazy want_param_shape_backup : bool)
    (s s' : State) (graph : nat) (pb : option (gmap string Backup))
    (psb : option (gmap string (list Z))) :
  prune self program params ratios lazy true true want_param_shape_backup s
  = (Ok (graph, pb, psb), s') ->
  exists p d gr',
    programs s !! program = Some p /\
    pb = Some d /\
    programs s' !! graph = Some gr' /\
    (forall name, d !! name = None -> shape_of gr' name = shape_of p name) /\
    (forall name b, d !! name = Some b ->
       exists sh0, b = BackupShape sh0 /\ shape_of p name = Ok sh0) /\
    psb = (if want_param_shape_backup then Some ∅ else None).
Proof.
  rewrite prune_run. destruct (programs s !! program) as [p|]; [|discriminate].
  intros Hrun.
  pose proof (prune_graph_only_keeps_shape_backup self (length (programs s))
                params ratios lazy
                (prune_start p true want_param_shape_backup s)) as Hpsb.
  rewrite Hrun in Hpsb. unfold same_shape_backup in Hpsb. cbn in Hpsb.
  pose proof (prune_tail_shapes param_backup BackupShape
                (length (programs s)) p ltac:(reflexivity) self params ratios
                lazy true (prune_start p true want_param_shape_backup s) s'
                graph pb psb) as Htail.
  destruct (Htail
              ltac:(apply above_prune_parameters;
                    [exact _
                    |intros; apply prune_parameter_by_idx_graph_only_keeps_shapes
                    |intros; apply prune_filters_by_ratio_graph_only_keeps_shapes
                    |intros r s0 H; exact H
                    |intros s0 H; destruct H as (d & gr & ? & ? & ?);
                     exists d, gr; auto])
              ltac:(apply prune_start_shapes; reflexivity)
              Hrun)
    as ((d & gr' & Hd & Hgr & Hall) & -> & -> & ->).
  exists p, d, gr'. repeat split; try assumption.
  - intros name Hnone.
    destruct (Hall name) as [[_ Hsame]|(sh0 & _ & Hb)]; [exact Hsame|congruence].
  - intros name b Hb.
    destruct (Hall name) as [[Hnone _]|(sh0 & Hsh0 & Hb')]; [congruence|].
    exists sh0. split; congruence.
Qed.

(** Pruning [A.w] in the graph of [conv_bn_net] only, with both backups. *)
Lemma prune_only_graph_backs_up_shapes_witness :
  let s := initial_state conv_bn_net conv_bn_scope in
  let r := prune l1_norm 0 ["A.w"] [1 # 2]%Q false true true true s in
  exists p d gr',
    programs s !! 0 = Some p /\
    param_backup r.2 = Some d /\
    programs r.2 !! 1 = Some gr' /\
    (forall name, d !! name = None -> shape_of gr' name = shape_of p name) /\
    (forall name b, d !! name = Some b ->
       exists sh0, b = BackupShape sh0 /\ shape_of p name = Ok sh0) /\
    param_shape_backup r.2 = Some ∅.
Proof.
  intros s r.
  apply (prune_only_graph_backs_up_shapes l1_norm 0 ["A.w"] [1 # 2]%Q false true
           s r.2 1 (param_backup r.2) (param_shape_backup r.2)).
  apply run_result. vm_compute. reflexivity.
Defined.
